(** * A shallow embedding of the tpcompilers backend

    The development follows the three Python modules of the backend:
    - [Asm]       : the instruction set and the machine that runs it,
    - [Optimizer] : the register allocator ([RegAllocator]),
    - [Visitor]   : the code generator ([GenVisitor]).

    Python integers are unbounded, hence [Z].  A register operand is a Python
    value that is either a [str] or [None] (the allocator's [next_var_name]
    returns [None] when no register is free and the value then flows into
    [reg_map] and into the emitted instructions), hence [option string].
    Dictionaries are finite maps. *)

From Stdlib Require Import ZArith String.
From stdpp Require Import base option list gmap strings pretty fin_maps.

Local Open Scope string_scope.
Local Open Scope list_scope.
Local Open Scope stdpp_scope.
Local Open Scope Z_scope.

(** A register operand: [Some s] is the Python string [s], [None] is Python's
    [None]. *)
Abbreviation name := (option string).

(** Fatal conditions.  Every one of them is a [sys.exit] or an uncaught
    exception in the Python code: nothing is recovered. *)
Inductive error :=
| UnboundVariable      (* GenVisitor: "Variavel inexistente" *)
| MachineFault         (* Program: unbound name, bad address, division by 0 *)
| VariableNotFound     (* RegAllocator.get_val: "Variable ... not found" *)
| NoAllocAction        (* RegAllocator.optimize: opcode absent from alloc_action *)
| NoAttribute          (* an attribute read on an instruction that lacks it *)
| OutOfFuel.           (* the model's bound on the number of machine steps *)

Inductive result (A : Type) :=
| Ok (a : A)
| Err (e : error).
Arguments Ok {A} a.
Arguments Err {A} e.

(** [result] is an error monad; [x ← r; k] stops at the first error. *)
Global Instance result_bind : MBind result := λ A B f r,
  match r with
  | Ok a => f a
  | Err e => Err e
  end.

(** ** Asm: instructions and the machine *)
Module Asm.

Inductive binop := OAdd | OSub | OMul | ODiv | OXor | OSlt.
Inductive immop := OAddi | OXori | OSlti.

(** One constructor per instruction shape; the operand order of every
    notation below is the argument order of the Python constructor. *)
Inductive inst :=
| Bin (op : binop) (rd rs1 rs2 : name)
| BinI (op : immop) (rd rs1 : name) (imm : Z)
| Lw (rs1 : name) (offset : Z) (reg : name)
| Sw (rs1 : name) (offset : Z) (reg : name)
| Jal (rd : name) (imm : Z)
| Jalr (rd rs1 : name)
| Beq (rs1 rs2 : name) (imm : Z).

Abbreviation Add := (Bin OAdd).
Abbreviation Sub := (Bin OSub).
Abbreviation Mul := (Bin OMul).
Abbreviation Div := (Bin ODiv).
Abbreviation Xor := (Bin OXor).
Abbreviation Slt := (Bin OSlt).
Abbreviation Addi := (BinI OAddi).
Abbreviation Xori := (BinI OXori).
Abbreviation Slti := (BinI OSlti).

Global Instance binop_eq_dec : EqDecision binop.
Proof. solve_decision. Defined.
Global Instance immop_eq_dec : EqDecision immop.
Proof. solve_decision. Defined.
Global Instance inst_eq_dec : EqDecision inst.
Proof. solve_decision. Defined.

(** The register-valued operands of an instruction (immediates and offsets
    are not registers). *)
Definition reg_operands (i : inst) : list name :=
  match i with
  | Bin _ rd rs1 rs2 => [rd; rs1; rs2]
  | BinI _ rd rs1 _ => [rd; rs1]
  | Lw rs1 _ reg => [rs1; reg]
  | Sw rs1 _ reg => [rs1; reg]
  | Jal rd _ => [rd]
  | Jalr rd rs1 => [rd; rs1]
  | Beq rs1 rs2 _ => [rs1; rs2]
  end.

(** The name an instruction writes, if any. *)
Definition written (i : inst) : option name :=
  match i with
  | Bin _ rd _ _ | BinI _ rd _ _ | Jal rd _ | Jalr rd _ => Some rd
  | Lw _ _ reg => Some reg
  | Sw _ _ _ | Beq _ _ _ => None
  end.

(** Modelled from the spec: the module Asm.py (class [Program] and the
    instruction classes) is not among the sources.  A program is an
    instruction list, an environment from names to integers, a flat memory of
    fixed size and a program counter (spec, section 3). *)
Record Program := mkProgram {
  insts : list inst;
  env : gmap name Z;
  mem : list Z;
  pc : Z
}.

(** Modelled from the spec: [Program(memory_size, env, insts)].  The
    environment is seeded from the caller's mapping; the zero register is
    pre-seeded, and [sp] starts as the number of memory cells (docstring of
    [RegAllocator.optimize]). *)
Definition new_Program (memory_size : nat) (env0 : gmap name Z)
    (insts0 : list inst) : Program :=
  {| insts := insts0;
     env := <[Some "sp" := Z.of_nat memory_size]> (<[Some "x0" := 0]> env0);
     mem := replicate memory_size 0;
     pc := 0 |}.

(** Modelled from the spec: [get_val] is fatal on an unbound name. *)
Definition get_val (p : Program) (var : name) : result Z :=
  match env p !! var with
  | Some v => Ok v
  | None => Err MachineFault
  end.

(** Modelled from the spec: writes to the zero register are ignored. *)
Definition set_val (p : Program) (var : name) (v : Z) : Program :=
  if decide (var = Some "x0") then p
  else {| insts := insts p; env := <[var := v]> (env p);
          mem := mem p; pc := pc p |}.

(** Modelled from the spec: an address outside the memory is fatal. *)
Definition get_mem (p : Program) (addr : Z) : result Z :=
  if decide (0 ≤ addr) then
    match mem p !! Z.to_nat addr with
    | Some v => Ok v
    | None => Err MachineFault
    end
  else Err MachineFault.

Definition set_mem (p : Program) (addr : Z) (v : Z) : result Program :=
  if decide (0 ≤ addr ∧ addr < Z.of_nat (length (mem p))) then
    Ok {| insts := insts p; env := env p;
          mem := <[Z.to_nat addr := v]> (mem p); pc := pc p |}
  else Err MachineFault.

Definition set_pc (p : Program) (n : Z) : Program :=
  {| insts := insts p; env := env p; mem := mem p; pc := n |}.

Definition add_inst (p : Program) (i : inst) : Program :=
  {| insts := insts p ++ [i]; env := env p; mem := mem p; pc := pc p |}.

Definition get_insts (p : Program) : list inst := insts p.

Definition set_insts (p : Program) (l : list inst) : Program :=
  {| insts := l; env := env p; mem := mem p; pc := pc p |}.

Definition bool_to_Z (b : bool) : Z := if b then 1 else 0.

(** Modelled from the spec (section 4.1): the arithmetic of the binary
    opcodes.  Division truncates toward zero and is fatal on a zero divisor. *)
Definition eval_binop (op : binop) (a b : Z) : result Z :=
  match op with
  | OAdd => Ok (a + b)
  | OSub => Ok (a - b)
  | OMul => Ok (a * b)
  | ODiv => if decide (b = 0) then Err MachineFault else Ok (Z.quot a b)
  | OXor => Ok (Z.lxor a b)
  | OSlt => Ok (bool_to_Z (bool_decide (a < b)))
  end.

Definition eval_immop (op : immop) (a i : Z) : Z :=
  match op with
  | OAddi => a + i
  | OXori => Z.lxor a i
  | OSlti => bool_to_Z (bool_decide (a < i))
  end.

(** Modelled from the spec (section 4.1): one instruction executed on the
    program state, program counter included. *)
Definition exec (i : inst) (p : Program) : result Program :=
  match i with
  | Bin op rd rs1 rs2 =>
      a ← get_val p rs1;
      b ← get_val p rs2;
      v ← eval_binop op a b;
      Ok (set_pc (set_val p rd v) (pc p + 1))
  | BinI op rd rs1 imm =>
      a ← get_val p rs1;
      Ok (set_pc (set_val p rd (eval_immop op a imm)) (pc p + 1))
  | Lw rs1 offset reg =>
      b ← get_val p rs1;
      v ← get_mem p (b + offset);
      Ok (set_pc (set_val p reg v) (pc p + 1))
  | Sw rs1 offset reg =>
      b ← get_val p rs1;
      v ← get_val p reg;
      q ← set_mem p (b + offset) v;
      Ok (set_pc q (pc p + 1))
  | Jal rd imm =>
      Ok (set_pc (set_val p rd (pc p + 1)) imm)
  | Jalr rd rs1 =>
      b ← get_val p rs1;
      Ok (set_pc (set_val p rd (pc p + 1)) b)
  | Beq rs1 rs2 imm =>
      a ← get_val p rs1;
      b ← get_val p rs2;
      Ok (set_pc p (if decide (a = b) then imm else pc p + 1))
  end.

(** The instruction under the program counter; [None] once the counter has
    left the instruction list. *)
Definition fetch (p : Program) : option inst :=
  if decide (0 ≤ pc p) then insts p !! Z.to_nat (pc p) else None.

(** Modelled from the spec: [eval] executes one instruction per step until
    the program counter leaves the instruction list.  The loop may not
    terminate (jumps), so the model takes a bound on the number of steps. *)
Fixpoint eval (fuel : nat) (p : Program) : result Program :=
  match fetch p with
  | None => Ok p
  | Some i =>
      match fuel with
      | O => Err OutOfFuel
      | S fuel' => q ← exec i p; eval fuel' q
      end
  end.

End Asm.

(** ** Optimizer: the register allocator *)
Module Optimizer.
Import Asm.

(** The mutable fields of a [RegAllocator] object.  [reg_map] sends a name to
    the register it currently lives in, [mem_map] to its memory address.
    The program [self.prog] is passed to the methods that read it. *)
Record RegAllocator := mkRegAllocator {
  reg_map : gmap name name;
  mem_map : gmap name Z;
  mem_counter : Z
}.

Definition usable_regs : list name :=
  [Some "a1"; Some "a2"; Some "a3"; Some "a0"].
Definition other_regs : list name :=
  [Some "x0"; Some "ra"; Some "sp"].

(** [RegAllocator.__init__] *)
Definition init : RegAllocator :=
  {| reg_map := ∅; mem_map := ∅; mem_counter := -1 |}.

Definition set_reg_map (s : RegAllocator) (m : gmap name name) : RegAllocator :=
  {| reg_map := m; mem_map := mem_map s; mem_counter := mem_counter s |}.
Definition set_mem_map (s : RegAllocator) (m : gmap name Z) : RegAllocator :=
  {| reg_map := reg_map s; mem_map := m; mem_counter := mem_counter s |}.

Definition inc_mem_counter (s : RegAllocator) : Z * RegAllocator :=
  (mem_counter s + 1,
   {| reg_map := reg_map s; mem_map := mem_map s;
      mem_counter := mem_counter s + 1 |}).

(** [reg_map.values()], as a set: only membership is ever asked. *)
Definition values (m : gmap name name) : gset name := map_img m.

(** The loop of [next_var_name] over a list of candidate registers. *)
Fixpoint first_free (regs : list name) (m : gmap name name) : name :=
  match regs with
  | [] => None
  | reg :: rest => if decide (reg ∉ values m) then reg else first_free rest m
  end.

Definition next_var_name (s : RegAllocator) : name :=
  first_free usable_regs (reg_map s).

(** [get_var_name] returns the register and the load to emit, if any. *)
Definition get_var_name (var : name) (s : RegAllocator)
    : name * option inst * RegAllocator :=
  if decide (var ∈ other_regs) then (var, None, s)
  else match reg_map s !! var with
  | Some r => (r, None, s)
  | None =>
      match mem_map s !! var with
      | Some addr =>
          let reg := next_var_name s in
          (reg, Some (Lw (Some "x0") addr reg),
           set_reg_map s (<[var := reg]> (reg_map s)))
      | None =>
          let reg := next_var_name s in
          (reg, None, set_reg_map s (<[var := reg]> (reg_map s)))
      end
  end.

Definition cleanup_maps (var : name) (s : RegAllocator) : RegAllocator :=
  set_reg_map s (delete var (reg_map s)).

(** The tail of [alloc_binary_op] after the rewritten instruction has been
    appended: the store of the result, then the release of the sources. *)
Definition store_result (rd new_rd : name) (insts : list inst)
    (s : RegAllocator) : list inst * RegAllocator :=
  if decide (new_rd ∉ other_regs) then
    let '(mem_pos, s) := inc_mem_counter s in
    (insts ++ [Sw (Some "x0") mem_pos new_rd],
     cleanup_maps rd (set_mem_map s (<[rd := mem_pos]> (mem_map s))))
  else (insts, s).

(** [alloc_binary_op].  An instruction with an [imm] attribute has no [rs2];
    its immediate is copied and is never a member of [other_regs]. *)
Definition alloc_binary_op (i : inst) (s : RegAllocator)
    : result (list inst * RegAllocator) :=
  match i with
  | Bin op rd rs1 rs2 =>
      let '(new_rs1, inst1, s) := get_var_name rs1 s in
      let '(new_rs2, inst2, s) := get_var_name rs2 s in
      let '(new_rd, inst3, s) :=
        if decide (new_rs1 ∈ other_regs ∨ new_rs2 ∈ other_regs)
        then get_var_name rd s
        else (if decide (new_rs1 ∉ other_regs) then new_rs1 else new_rs2,
              None, s) in
      let insts := option_list inst1 ++ option_list inst2 ++
                   option_list inst3 ++ [Bin op new_rd new_rs1 new_rs2] in
      let '(insts, s) := store_result rd new_rd insts s in
      Ok (insts, cleanup_maps rs2 (cleanup_maps rs1 s))
  | BinI op rd rs1 imm =>
      let '(new_rs1, inst1, s) := get_var_name rs1 s in
      let '(new_rd, inst3, s) :=
        if decide (new_rs1 ∈ other_regs)
        then get_var_name rd s
        else (new_rs1, None, s) in
      let insts := option_list inst1 ++ option_list inst3 ++
                   [BinI op new_rd new_rs1 imm] in
      let '(insts, s) := store_result rd new_rd insts s in
      Ok (insts, cleanup_maps rs1 s)
  | _ => Err NoAttribute
  end.

Definition alloc_load (i : inst) (s : RegAllocator)
    : result (list inst * RegAllocator) :=
  match i with
  | Lw rs1 offset reg =>
      let '(new_reg, inst1, s) := get_var_name reg s in
      let '(new_rs1, inst2, s) := get_var_name rs1 s in
      let insts := option_list inst1 ++ option_list inst2 ++
                   [Lw new_rs1 offset new_reg] in
      Ok (insts, cleanup_maps rs1 s)
  | _ => Err NoAttribute
  end.

(** [alloc_store] reads the base register in the program's environment as it
    is while the allocator runs. *)
Definition alloc_store (prog : Program) (i : inst) (s : RegAllocator)
    : result (list inst * RegAllocator) :=
  match i with
  | Sw rs1 offset reg =>
      let '(new_reg, inst1, s) := get_var_name reg s in
      let '(new_rs1, inst2, s) := get_var_name rs1 s in
      let insts := option_list inst1 ++ option_list inst2 ++
                   [Sw new_rs1 offset new_reg] in
      base ← Asm.get_val prog new_rs1;
      let mem_pos := base + offset in
      Ok (insts,
          cleanup_maps reg (set_mem_map s (<[reg := mem_pos]> (mem_map s))))
  | _ => Err NoAttribute
  end.

(** The table [alloc_action], keyed by opcode; the jump and branch opcodes
    have no entry. *)
Definition alloc_action (prog : Program) (i : inst)
    : RegAllocator → result (list inst * RegAllocator) :=
  match i with
  | Bin _ _ _ _ | BinI _ _ _ _ => alloc_binary_op i
  | Lw _ _ _ => alloc_load i
  | Sw _ _ _ => alloc_store prog i
  | Jal _ _ | Jalr _ _ | Beq _ _ _ => λ _, Err NoAllocAction
  end.

(** The loop of [optimize] over the instructions of the program. *)
Fixpoint alloc_insts (prog : Program) (l : list inst) (s : RegAllocator)
    : result (list inst * RegAllocator) :=
  match l with
  | [] => Ok ([], s)
  | i :: rest =>
      '(last_insts, s) ← alloc_action prog i s;
      '(new_insts, s) ← alloc_insts prog rest s;
      Ok (last_insts ++ new_insts, s)
  end.

(** [optimize] on a fresh allocator: the program with its instructions
    replaced, and the allocator as the pass leaves it. *)
Definition optimize (prog : Program) : result (Program * RegAllocator) :=
  '(new_insts, s) ← alloc_insts prog (get_insts prog) init;
  Ok (set_insts prog new_insts, s).

(** [RegAllocator.get_val] *)
Definition get_val (s : RegAllocator) (prog : Program) (var : name)
    : result Z :=
  match reg_map s !! var with
  | Some r => Asm.get_val prog r
  | None =>
      match mem_map s !! var with
      | Some addr => Asm.get_mem prog addr
      | None => Err VariableNotFound
      end
  end.

End Optimizer.

(** ** Expression: the trees the generator walks *)
Module Expression.

(** Modelled from the spec: the module Expression.py is not among the
    sources.  One constructor per node kind that [Visitor.py] visits, with
    the field names [Visitor.py] reads. *)
Inductive expr :=
| Var (identifier : string)
| Bln (bln : bool)
| Num (num : Z)
| Eql (left right : expr)
| Add (left right : expr)
| Sub (left right : expr)
| Mul (left right : expr)
| Div (left right : expr)
| Leq (left right : expr)
| Lth (left right : expr)
| Neg (exp : expr)
| Not (exp : expr)
| Let (identifier : string) (exp_def exp_body : expr).

End Expression.

(** ** Visitor: the code generator *)
Module Visitor.
Import Expression.

(** The fields of a [GenVisitor] object. *)
Record GenVisitor := mkGenVisitor {
  next_var_counter : nat;
  var_scope : gmap string (list string)
}.

(** [GenVisitor.__init__] *)
Definition init : GenVisitor :=
  {| next_var_counter := 0; var_scope := ∅ |}.

(** [next_var_name]: the counter is incremented first. *)
Definition next_var_name (g : GenVisitor) : string * GenVisitor :=
  let c := S (next_var_counter g) in
  ("v" +:+ pretty c, {| next_var_counter := c; var_scope := var_scope g |}).

(** The list bound to [var_name] in [var_scope]; a missing key and an empty
    list are told apart by no caller after [_generate_unique_name]. *)
Definition scope_of (g : GenVisitor) (var_name : string) : list string :=
  default [] (var_scope g !! var_name).

Definition _generate_unique_name (var_name : string) (g : GenVisitor)
    : string * GenVisitor :=
  let stack := scope_of g var_name in
  let unique_name := var_name +:+ "_" +:+ pretty (length stack) in
  (unique_name,
   {| next_var_counter := next_var_counter g;
      var_scope := <[var_name := stack ++ [unique_name]]> (var_scope g) |}).

Definition _pop_variable (var_name : string) (g : GenVisitor) : GenVisitor :=
  match var_scope g !! var_name with
  | Some ((_ :: _) as stack) =>
      {| next_var_counter := next_var_counter g;
         var_scope := <[var_name := removelast stack]> (var_scope g) |}
  | _ => g
  end.

Definition _get_current_var_name (var_name : string) (g : GenVisitor)
    (prog : Asm.Program) : result string :=
  match var_scope g !! var_name with
  | Some ((_ :: _) as stack) => Ok (List.last stack var_name)
  | _ =>
      match Asm.get_val prog (Some var_name) with
      | Ok _ => Ok var_name
      | Err _ => Err UnboundVariable
      end
  end.

(** The code shared by the visit methods of the four arithmetic nodes, of
    [visit_lth]: one binary instruction into a fresh name. *)
Definition emit (mk : name → Asm.inst) (g : GenVisitor) (prog : Asm.Program)
    : name * GenVisitor * Asm.Program :=
  let '(v_reg, g) := next_var_name g in
  (Some v_reg, g, Asm.add_inst prog (mk (Some v_reg))).

(** [exp.accept(self, prog)] for every node kind: the register that holds the
    value, the visitor and the program after the visit. *)
Fixpoint visit (e : expr) (g : GenVisitor) (prog : Asm.Program)
    : result (name * GenVisitor * Asm.Program) :=
  match e with
  | Var identifier =>
      r ← _get_current_var_name identifier g prog;
      Ok (Some r, g, prog)
  | Bln bln =>
      if bln then Ok (emit (λ v, Asm.Addi v (Some "x0") 1) g prog)
      else Ok (Some "x0", g, prog)
  | Num num =>
      Ok (emit (λ v, Asm.Addi v (Some "x0") num) g prog)
  | Eql e_left e_right =>
      '(left_reg, g, prog) ← visit e_left g prog;
      '(right_reg, g, prog) ← visit e_right g prog;
      let '(v1_reg, g, prog) := emit (λ v, Asm.Slt v left_reg right_reg) g prog in
      let '(v2_reg, g, prog) := emit (λ v, Asm.Slt v right_reg left_reg) g prog in
      let '(v3_reg, g, prog) := emit (λ v, Asm.Xor v v1_reg v2_reg) g prog in
      Ok (emit (λ v, Asm.Xori v v3_reg 1) g prog)
  | Add e_left e_right =>
      '(left_reg, g, prog) ← visit e_left g prog;
      '(right_reg, g, prog) ← visit e_right g prog;
      Ok (emit (λ v, Asm.Add v left_reg right_reg) g prog)
  | Sub e_left e_right =>
      '(left_reg, g, prog) ← visit e_left g prog;
      '(right_reg, g, prog) ← visit e_right g prog;
      Ok (emit (λ v, Asm.Sub v left_reg right_reg) g prog)
  | Mul e_left e_right =>
      '(left_reg, g, prog) ← visit e_left g prog;
      '(right_reg, g, prog) ← visit e_right g prog;
      Ok (emit (λ v, Asm.Mul v left_reg right_reg) g prog)
  | Div e_left e_right =>
      '(left_reg, g, prog) ← visit e_left g prog;
      '(right_reg, g, prog) ← visit e_right g prog;
      Ok (emit (λ v, Asm.Div v left_reg right_reg) g prog)
  | Leq e_left e_right =>
      '(left_reg, g, prog) ← visit e_left g prog;
      '(right_reg, g, prog) ← visit e_right g prog;
      let '(v_reg, g, prog) := emit (λ v, Asm.Slt v right_reg left_reg) g prog in
      Ok (emit (λ v, Asm.Xori v v_reg 1) g prog)
  | Lth e_left e_right =>
      '(left_reg, g, prog) ← visit e_left g prog;
      '(right_reg, g, prog) ← visit e_right g prog;
      Ok (emit (λ v, Asm.Slt v left_reg right_reg) g prog)
  | Neg exp =>
      '(left_reg, g, prog) ← visit exp g prog;
      let '(v_reg, g, prog) := emit (λ v, Asm.Addi v (Some "x0") (-1)) g prog in
      Ok (emit (λ v, Asm.Mul v left_reg v_reg) g prog)
  | Not exp =>
      '(left_reg, g, prog) ← visit exp g prog;
      let '(v_reg, g, prog) := emit (λ v, Asm.Slt v (Some "x0") left_reg) g prog in
      let '(v1_reg, g, prog) := emit (λ v, Asm.Slt v left_reg (Some "x0")) g prog in
      let '(v2_reg, g, prog) := emit (λ v, Asm.Add v v_reg v1_reg) g prog in
      Ok (emit (λ v, Asm.Xori v v2_reg 1) g prog)
  | Let identifier exp_def exp_body =>
      '(v_reg, g, prog) ← visit exp_def g prog;
      let '(new_name, g) := _generate_unique_name identifier g in
      let prog := Asm.add_inst prog (Asm.Addi (Some new_name) v_reg 0) in
      '(result_reg, g, prog) ← visit exp_body g prog;
      Ok (result_reg, _pop_variable identifier g, prog)
  end.

End Visitor.

(** ** Visitor: the renaming pass *)
Module Rename.
Import Expression.

(** The field of a [RenameVisitor] object. *)
Record RenameVisitor := mkRenameVisitor {
  var_scope : gmap string (list string)
}.

(** [RenameVisitor.__init__] *)
Definition init : RenameVisitor := {| var_scope := ∅ |}.

Definition scope_of (v : RenameVisitor) (var_name : string) : list string :=
  default [] (var_scope v !! var_name).

Definition _generate_unique_name (var_name : string) (v : RenameVisitor)
    : string * RenameVisitor :=
  let stack := scope_of v var_name in
  let unique_name := var_name +:+ "_" +:+ pretty (length stack) in
  (unique_name,
   {| var_scope := <[var_name := stack ++ [unique_name]]> (var_scope v) |}).

Definition _pop_variable (var_name : string) (v : RenameVisitor)
    : RenameVisitor :=
  match var_scope v !! var_name with
  | Some ((_ :: _) as stack) =>
      {| var_scope := <[var_name := removelast stack]> (var_scope v) |}
  | _ => v
  end.

(** Unlike the generator's, this one answers the name itself when it has no
    binding. *)
Definition _get_current_var_name (var_name : string) (v : RenameVisitor)
    : string :=
  match var_scope v !! var_name with
  | Some ((_ :: _) as stack) => List.last stack var_name
  | _ => var_name
  end.

(** [exp.accept(self, arg)] for every node kind.  The Python methods
    overwrite the [identifier] fields of the nodes in place and return
    nothing; the model returns the tree as it is after the visit, for a tree
    in which no node object occurs twice. *)
Fixpoint visit (e : expr) (v : RenameVisitor) : expr * RenameVisitor :=
  match e with
  | Var identifier => (Var (_get_current_var_name identifier v), v)
  | Bln bln => (Bln bln, v)
  | Num num => (Num num, v)
  | Eql e_left e_right =>
      let '(l, v) := visit e_left v in
      let '(r, v) := visit e_right v in (Eql l r, v)
  | Add e_left e_right =>
      let '(l, v) := visit e_left v in
      let '(r, v) := visit e_right v in (Add l r, v)
  | Sub e_left e_right =>
      let '(l, v) := visit e_left v in
      let '(r, v) := visit e_right v in (Sub l r, v)
  | Mul e_left e_right =>
      let '(l, v) := visit e_left v in
      let '(r, v) := visit e_right v in (Mul l r, v)
  | Div e_left e_right =>
      let '(l, v) := visit e_left v in
      let '(r, v) := visit e_right v in (Div l r, v)
  | Leq e_left e_right =>
      let '(l, v) := visit e_left v in
      let '(r, v) := visit e_right v in (Leq l r, v)
  | Lth e_left e_right =>
      let '(l, v) := visit e_left v in
      let '(r, v) := visit e_right v in (Lth l r, v)
  | Neg exp => let '(e, v) := visit exp v in (Neg e, v)
  | Not exp => let '(e, v) := visit exp v in (Not e, v)
  | Let identifier exp_def exp_body =>
      let '(d, v) := visit exp_def v in
      let '(_, v) := _generate_unique_name identifier v in
      let '(b, v) := visit exp_body v in
      let save := identifier in
      (Let (_get_current_var_name save v) d b, _pop_variable save v)
  end.

End Rename.

(** ** Lexer: the scanner *)
Module Lexer.

(** [TokenType] *)
Inductive TokenType :=
| EOF | NLN | WSP | COM | NUM | STR | TRU | FLS | VAR | LET | INX | END
| EQL | ADD | SUB | MUL | DIV | LEQ | LTH | NEG | NOT | LPR | RPR | ASN
| ORX | AND | IFX | THN | ELS | FNX | ARW.

Global Instance TokenType_eq_dec : EqDecision TokenType.
Proof. solve_decision. Defined.

(** A character of a Python [str] is a Unicode code point, a [str] a list of
    them.  [ord] is the code of a one-character literal and [codes] the
    list of the codes of a literal; the literals of [Lexer.py] are ASCII. *)
Definition ord (s : string) : N :=
  match s with
  | String a _ => Strings.Ascii.N_of_ascii a
  | EmptyString => 0%N
  end.

Fixpoint codes (s : string) : list N :=
  match s with
  | String a s => Strings.Ascii.N_of_ascii a :: codes s
  | EmptyString => []
  end.

(** The line feed, ['\n']. *)
Definition newline : N := 10%N.

(** [str.isdigit] and [str.isalpha] on one character.  On ASCII they are
    the ten digits and the fifty-two letters; beyond ASCII they are the
    Unicode tables of the Python runtime, which the development leaves
    open. *)
Class Unicode := {
  wide_isdigit : N → bool;
  wide_isalpha : N → bool
}.

Definition isdigit `{Unicode} (c : N) : bool :=
  if (c <? 128)%N then (48 <=? c)%N && (c <=? 57)%N else wide_isdigit c.

Definition isalpha `{Unicode} (c : N) : bool :=
  if (c <? 128)%N then
    (65 <=? c)%N && (c <=? 90)%N || (97 <=? c)%N && (c <=? 122)%N
  else wide_isalpha c.

(** [Token] *)
Record Token := mkToken {
  text : list N;
  kind : TokenType
}.

(** What a call of [getToken] gives: a token and the new [self.position], or
    the [ValueError] with the character it names. *)
Inductive Scanned :=
| Got (token : Token) (position : nat)
| Invalid (c : N).

(** The characters a loop [while self.position < self.length and
    p(self.source[self.position]): self.position += 1] passes over, [rest]
    being the source from [self.position] on. *)
Fixpoint scan (p : N → bool) (rest : list N) : list N :=
  match rest with
  | c :: rest' => if p c then c :: scan p rest' else []
  | [] => []
  end.

(** The number of steps of the loop of [l_left_par]: it stops at the first
    position that holds ['*'] followed by [')'], or one character before the
    end. *)
Fixpoint skip_block (rest : list N) : nat :=
  match rest with
  | a :: rest' =>
      match rest' with
      | b :: _ =>
          if bool_decide (a = ord "*" ∧ b = ord ")") then O
          else S (skip_block rest')
      | [] => O
      end
  | [] => O
  end.

Section Methods.
Context `{Unicode}.

Definition l_digit (source : list N) (position : nat) (char : N)
    : Token * nat :=
  let more := scan isdigit (drop position source) in
  (mkToken (char :: more) NUM, (position + length more)%nat).

Definition l_lt (source : list N) (position : nat) : Token * nat :=
  match source !! position with
  | Some c =>
      if decide (c = ord "=") then (mkToken (codes "<=") LEQ, S position)
      else if decide (c = ord "-") then (mkToken (codes "<-") ASN, S position)
      else (mkToken (codes "<") LTH, position)
  | None => (mkToken (codes "<") LTH, position)
  end.

Definition l_minus (source : list N) (position : nat) : Token * nat :=
  if decide (source !! position = Some (ord "-")) then
    let line := scan (λ c, bool_decide (c ≠ newline)) (drop position source) in
    (mkToken (codes "--") COM, (position + length line + 1)%nat)
  else (mkToken (codes "-") SUB, position).

Definition l_left_par (source : list N) (position : nat) : Token * nat :=
  if decide (source !! position = Some (ord "*")) then
    (mkToken [ord "("; ord "*"] COM,
     (position + skip_block (drop position source) + 2)%nat)
  else (mkToken (codes "(") LPR, position).

(** The dictionary [keys] of [l_string]. *)
Definition keys : gmap (list N) TokenType :=
  list_to_map
    [(codes "true", TRU); (codes "false", FLS); (codes "not", NOT);
     (codes "let", LET); (codes "in", INX); (codes "end", END);
     (codes "if", IFX); (codes "then", THN); (codes "else", ELS);
     (codes "or", ORX); (codes "and", AND); (codes "fn", FNX)].

Definition l_string (source : list N) (position : nat) (char : N)
    : Token * nat :=
  let more := scan (λ c, isalpha c || isdigit c) (drop position source) in
  let string := char :: more in
  (mkToken string (default VAR (keys !! string)),
   (position + length more)%nat).

Definition l_equal (source : list N) (position : nat) : Token * nat :=
  if decide (source !! position = Some (ord ">")) then
    (mkToken (codes "=>") ARW, S position)
  else (mkToken (codes "=") EQL, position).

(** [self.diff_signals] and [self.base_signals] *)
Definition diff_signals : gmap N (list N → nat → Token * nat) :=
  list_to_map
    [(ord "<", l_lt); (ord "(", l_left_par); (ord "-", l_minus);
     (ord "=", l_equal)].

Definition base_signals : gmap N Token :=
  list_to_map
    [(ord "*", mkToken (codes "*") MUL); (ord "/", mkToken (codes "/") DIV);
     (ord "~", mkToken (codes "~") NEG); (ord ")", mkToken (codes ")") RPR);
     (ord " ", mkToken (codes " ") WSP); (newline, mkToken [newline] NLN);
     (ord "=", mkToken (codes "=") EQL); (ord "+", mkToken (codes "+") ADD)].

Definition getToken (source : list N) (position : nat) : Scanned :=
  match source !! position with
  | None => Got (mkToken [] EOF) position
  | Some char =>
      let position := S position in
      if isdigit char then
        let '(token, position) := l_digit source position char in
        Got token position
      else if isalpha char then
        let '(token, position) := l_string source position char in
        Got token position
      else match diff_signals !! char with
      | Some action =>
          let '(token, position) := action source position in
          Got token position
      | None =>
          match base_signals !! char with
          | Some token => Got token position
          | None => Invalid char
          end
      end
  end.

(** What the generator [tokens] gives to a consumer that exhausts it: the
    tokens it yields, and the [ValueError] if it ends by one. *)
Inductive Lexed :=
| Tokens (yielded : list Token)
| ValueError (yielded : list Token) (c : N).

Definition yield (token : Token) (rest : Lexed) : Lexed :=
  match rest with
  | Tokens l => Tokens (token :: l)
  | ValueError l c => ValueError (token :: l) c
  end.

(** The loop of [tokens], from [self.position]; [None] when the bound on the
    number of turns is reached. *)
Fixpoint tokens_from (fuel : nat) (source : list N) (position : nat)
    : option Lexed :=
  match fuel with
  | O => None
  | S fuel =>
      match getToken source position with
      | Invalid c => Some (ValueError [] c)
      | Got token position =>
          if decide (kind token = EOF) then Some (Tokens [])
          else
            rest ← tokens_from fuel source position;
            Some (if decide (kind token ≠ WSP ∧ kind token ≠ COM ∧
                             kind token ≠ NLN)
                  then yield token rest else rest)
      end
  end.

(** [tokens] on a fresh [Lexer(source)]: a turn of the loop per character
    and one for the end is enough (lemma [tokens_from_enough]). *)
Definition tokens (source : list N) : option Lexed :=
  tokens_from (S (length source)) source 0.

End Methods.

End Lexer.

(** ** Parser: from tokens to a tree *)
Module Parser.
Import Lexer.

(** Modelled from the spec: the module Expression.py is not among the
    sources.  One constructor per class that [Parser.py] instantiates (the
    node kinds of the input contract of the generator), with the arguments
    in the order of the call; an identifier is the text of a token. *)
Inductive tree :=
| Var (identifier : list N)
| Num (num : Z)
| Bln (bln : bool)
| Eql (left right : tree)
| Add (left right : tree)
| Sub (left right : tree)
| Mul (left right : tree)
| Div (left right : tree)
| Leq (left right : tree)
| Lth (left right : tree)
| And (left right : tree)
| Or (left right : tree)
| Neg (exp : tree)
| Not (exp : tree)
| Let (identifier : list N) (exp_def exp_body : tree)
| IfThenElse (cond e0 e1 : tree)
| Fn (formal : list N) (body : tree)
| App (function actual : tree).

(** The built-in [int] on a [str]: the integer, or [None] where Python
    raises [ValueError].  The development leaves it open. *)
Class Builtins := {
  int : list N → option Z
}.

(** The exceptions that leave [parse]: the two [SyntaxError] of the parser
    with their message, the [AttributeError] of an attribute read on [None],
    the [ValueError] of [int] and the [KeyError] of a dictionary. *)
Inductive exn :=
| SyntaxError (msg : string)
| AttributeError
| ValueError
| KeyError.

(** How a method call ends: it returns, or it raises; in both cases
    [self.cur_token_idx] is left at some value.  [Diverge] is the model's
    bound on the recursion depth and on the number of turns of a loop;
    the recursion limit of the Python interpreter is not modelled. *)
Inductive outcome (A : Type) :=
| Return (a : A) (cur_token_idx : nat)
| Raise (e : exn) (cur_token_idx : nat)
| Diverge.
Arguments Return {A} a cur_token_idx.
Arguments Raise {A} e cur_token_idx.
Arguments Diverge {A}.

(** A method: from the value of [self.cur_token_idx] to an outcome. *)
Definition M (A : Type) : Type := nat → outcome A.

#[export] Instance M_ret : MRet M := λ A a i, Return a i.

#[export] Instance M_bind : MBind M := λ A B k c i,
  match c i with
  | Return a j => k a j
  | Raise e j => Raise e j
  | Diverge => Diverge
  end.

Definition raise {A} (e : exn) : M A := λ i, Raise e i.

Definition diverge {A} : M A := λ _, Diverge.

Section Methods.
Context `{Builtins}.

(** [self.tokens] *)
Variable tokens : list Token.

Definition current_token : M (option Token) := λ i, Return (tokens !! i) i.

Definition advance : M unit := λ i, Return tt (S i).

(** [token.kind] and [token.text] where [token] may be [None]. *)
Definition kind_of (token : option Token) : M TokenType :=
  match token with
  | Some token => mret (kind token)
  | None => raise AttributeError
  end.

Definition text_of (token : option Token) : M (list N) :=
  match token with
  | Some token => mret (text token)
  | None => raise AttributeError
  end.

Definition expect (token_type : TokenType) : M unit :=
  token ← current_token;
  match token with
  | Some token =>
      if decide (kind token ≠ token_type) then raise (SyntaxError "Type error")
      else advance
  | None => raise (SyntaxError "Type error")
  end.

(** The condition [self.current_token() and self.current_token().kind in
    ops] of the loops. *)
Definition continues (ops : list TokenType) : M bool :=
  token ← current_token;
  match token with
  | Some token => mret (bool_decide (kind token ∈ ops))
  | None => mret false
  end.

(** The methods below [parse_exp] call it back; [parse_exp] is their
    parameter, and the knot is tied in [parse_exp] itself. *)
Section Below.
Variable parse_exp : M tree.

Definition parse_value_token : M tree :=
  token ← current_token;
  kind ← kind_of token;
  if decide (kind = VAR) then
    advance;;
    text ← text_of token;
    mret (Var text)
  else if decide (kind = LPR) then
    advance;;
    exp ← parse_exp;
    expect RPR;;
    mret exp
  else if decide (kind = NUM) then
    advance;;
    text ← text_of token;
    match int text with
    | Some num => mret (Num num)
    | None => raise ValueError
    end
  else if decide (kind ∈ [FLS; TRU]) then
    advance;;
    mret (Bln (bool_decide (kind = TRU)))
  else raise (SyntaxError "Parse error").

(** The loop of [parse_value]; [turns] bounds the number of its turns. *)
Fixpoint parse_value_while (turns : nat) (ops : list TokenType) (exp : tree)
    : M tree :=
  go ← continues ops;
  if go : bool then
    match turns with
    | O => diverge
    | S turns =>
        actual ← parse_value_token;
        parse_value_while turns ops (App exp actual)
    end
  else mret exp.

Definition parse_value (turns : nat) : M tree :=
  let ops := [VAR; LPR; NUM; TRU; FLS] in
  exp ← parse_value_token;
  parse_value_while turns ops exp.

Definition parse_let (turns : nat) : M tree :=
  token ← current_token;
  kind ← kind_of token;
  if decide (kind = LET) then
    expect LET;;
    token ← current_token;
    var ← text_of token;
    expect VAR;;
    expect ASN;;
    expr1 ← parse_exp;
    expect INX;;
    expr2 ← parse_exp;
    expect END;;
    mret (Let var expr1 expr2)
  else parse_value turns.

(** [parse_not] and [parse_neg], which call [parse_unary] back. *)
Definition parse_not (parse_unary : M tree) (operator : tree → tree)
    : M tree :=
  advance;;
  exp ← parse_unary;
  mret (operator exp).

Definition parse_neg (parse_unary : M tree) (operator : tree → tree)
    : M tree :=
  advance;;
  exp ← parse_unary;
  mret (operator exp).

(** [depth] bounds the number of nested calls of [parse_unary]. *)
Fixpoint parse_unary (turns depth : nat) : M tree :=
  token ← current_token;
  kind ← kind_of token;
  if decide (kind = NOT) then
    match depth with
    | O => diverge
    | S depth => parse_not (parse_unary turns depth) Not
    end
  else if decide (kind = NEG) then
    match depth with
    | O => diverge
    | S depth => parse_neg (parse_unary turns depth) Neg
    end
  else parse_let turns.

(** [op_cls[kind]] *)
Definition getitem (op_cls : list (TokenType * (tree → tree → tree)))
    (kind : TokenType) : M (tree → tree → tree) :=
  match list_find (λ entry, entry.1 = kind) op_cls with
  | Some (_, (_, cls)) => mret cls
  | None => raise KeyError
  end.

(** The loop of [parse_binary]. *)
Fixpoint parse_binary_while (turns : nat) (parser : M tree)
    (ops : list TokenType) (op_cls : list (TokenType * (tree → tree → tree)))
    (left_expr : tree) : M tree :=
  go ← continues ops;
  if go : bool then
    match turns with
    | O => diverge
    | S turns =>
        op ← current_token;
        advance;;
        token ← current_token;
        match token with
        | None => raise (SyntaxError "Parse error")
        | Some _ =>
            right_expr ← parser;
            kind ← kind_of op;
            cls ← getitem op_cls kind;
            parse_binary_while turns parser ops op_cls
              (cls left_expr right_expr)
        end
    end
  else mret left_expr.

Definition parse_binary (turns : nat) (parser : M tree)
    (ops : list TokenType) (op_cls : list (TokenType * (tree → tree → tree)))
    : M tree :=
  left_expr ← parser;
  parse_binary_while turns parser ops op_cls left_expr.

Definition parse_mul_div (turns : nat) : M tree :=
  parse_binary turns (parse_unary turns turns) [MUL; DIV]
    [(MUL, Mul); (DIV, Div)].

Definition parse_add_sub (turns : nat) : M tree :=
  parse_binary turns (parse_mul_div turns) [ADD; SUB]
    [(ADD, Add); (SUB, Sub)].

(** The loop of [parse_less_equal_grater_exp]. *)
Fixpoint parse_less_equal_grater_while (count turns : nat) (left_expr : tree)
    : M tree :=
  go ← continues [EQL; LEQ; LTH];
  if go : bool then
    match count with
    | O => diverge
    | S count =>
        op ← current_token;
        advance;;
        right_expr ← parse_add_sub turns;
        kind ← kind_of op;
        parse_less_equal_grater_while count turns
          (if decide (kind = EQL) then Eql left_expr right_expr
           else if decide (kind = LEQ) then Leq left_expr right_expr
           else if decide (kind = LTH) then Lth left_expr right_expr
           else left_expr)
    end
  else mret left_expr.

Definition parse_less_equal_grater_exp (turns : nat) : M tree :=
  left_expr ← parse_add_sub turns;
  parse_less_equal_grater_while turns turns left_expr.

(** The loop of [parse_and]. *)
Fixpoint parse_and_while (count turns : nat) (left_expr : tree) : M tree :=
  go ← continues [AND];
  if go : bool then
    match count with
    | O => diverge
    | S count =>
        advance;;
        right_expr ← parse_less_equal_grater_exp turns;
        parse_and_while count turns (And left_expr right_expr)
    end
  else mret left_expr.

Definition parse_and (turns : nat) : M tree :=
  left_expr ← parse_less_equal_grater_exp turns;
  parse_and_while turns turns left_expr.

(** The loop of [parse_or]. *)
Fixpoint parse_or_while (count turns : nat) (left_expr : tree) : M tree :=
  go ← continues [ORX];
  if go : bool then
    match count with
    | O => diverge
    | S count =>
        advance;;
        right_expr ← parse_and turns;
        parse_or_while count turns (Or left_expr right_expr)
    end
  else mret left_expr.

Definition parse_or (turns : nat) : M tree :=
  left_expr ← parse_and turns;
  parse_or_while turns turns left_expr.

Definition parse_if_then_else (turns : nat) : M tree :=
  token ← current_token;
  kind ← kind_of token;
  if decide (kind = IFX) then
    expect IFX;;
    cond ← parse_exp;
    expect THN;;
    then_expr ← parse_exp;
    expect ELS;;
    else_expr ← parse_exp;
    mret (IfThenElse cond then_expr else_expr)
  else parse_or turns.

Definition parse_fn : M tree :=
  expect FNX;;
  token ← current_token;
  var ← text_of token;
  expect VAR;;
  expect ARW;;
  expr ← parse_exp;
  mret (Fn var expr).

(** The body of [parse_exp]. *)
Definition parse_exp_body (turns : nat) : M tree :=
  token ← current_token;
  kind ← kind_of token;
  if decide (kind = FNX) then parse_fn
  else parse_if_then_else turns.

End Below.

(** [parse_exp]; [depth] bounds the number of its nested calls and [turns]
    the number of turns of each loop. *)
Fixpoint parse_exp (turns depth : nat) : M tree :=
  match depth with
  | O => diverge
  | S depth => parse_exp_body (parse_exp turns depth) turns
  end.

End Methods.

(** [Parser(tokens).parse()]; a turn of a loop per token, and a nested call
    per token and one more, are enough (lemma [parse_total]). *)
Definition parse `{Builtins} (tokens : list Token) : outcome tree :=
  parse_exp tokens (length tokens) (S (length tokens)) 0%nat.

End Parser.

(** ** The driver and the reference interpretation *)
Module Driver.
Import Expression.

(** Modelled from the spec: the reference interpretation of a tree (section
    8), over the integers with booleans as 0 and 1; [None] when the tree has
    no value (unbound identifier, division by zero).  It is the yardstick of
    the round-trip property and comes from no source file. *)
Fixpoint interp (e : expr) (rho : gmap string Z) : option Z :=
  match e with
  | Var identifier => rho !! identifier
  | Bln bln => Some (Asm.bool_to_Z bln)
  | Num num => Some num
  | Eql l r =>
      a ← interp l rho; b ← interp r rho;
      Some (Asm.bool_to_Z (bool_decide (a = b)))
  | Add l r => a ← interp l rho; b ← interp r rho; Some (a + b)
  | Sub l r => a ← interp l rho; b ← interp r rho; Some (a - b)
  | Mul l r => a ← interp l rho; b ← interp r rho; Some (a * b)
  | Div l r =>
      a ← interp l rho; b ← interp r rho;
      if decide (b = 0) then None else Some (Z.quot a b)
  | Leq l r =>
      a ← interp l rho; b ← interp r rho;
      Some (Asm.bool_to_Z (bool_decide (a ≤ b)))
  | Lth l r =>
      a ← interp l rho; b ← interp r rho;
      Some (Asm.bool_to_Z (bool_decide (a < b)))
  | Neg e => a ← interp e rho; Some (- a)
  | Not e => a ← interp e rho; Some (Asm.bool_to_Z (bool_decide (a = 0)))
  | Let identifier exp_def exp_body =>
      a ← interp exp_def rho; interp exp_body (<[identifier := a]> rho)
  end.

(** Modelled from the spec: the driver is not among the sources.  Generation
    on a fresh visitor and an empty program, then evaluation, then the value
    of the result name (the doctests of [Visitor.py]). *)
Definition generate_eval (memory_size fuel : nat) (e : expr) : result Z :=
  '(r, _, prog) ← Visitor.visit e Visitor.init
                    (Asm.new_Program memory_size ∅ []);
  prog ← Asm.eval fuel prog;
  Asm.get_val prog r.

(** Modelled from the spec: [eval(allocate(generate(tree)))], the result read
    where the allocator's final maps place the result name. *)
Definition generate_allocate_eval (memory_size fuel : nat) (e : expr)
    : result Z :=
  '(r, _, prog) ← Visitor.visit e Visitor.init
                    (Asm.new_Program memory_size ∅ []);
  '(prog, s) ← Optimizer.optimize prog;
  prog ← Asm.eval fuel prog;
  Optimizer.get_val s prog r.

End Driver.

(** ** Auxiliary notions used by the statements *)
Module Aux.
Import Asm Optimizer.

(** Instructions that fall through to the next one. *)
Definition straight (i : inst) : bool :=
  match i with
  | Jal _ _ | Jalr _ _ | Beq _ _ _ => false
  | _ => true
  end.

(** The opcodes handled by [alloc_binary_op]. *)
Definition is_binary (i : inst) : bool :=
  match i with
  | Bin _ _ _ _ | BinI _ _ _ _ => true
  | _ => false
  end.

(** The opcodes with an entry in [alloc_action]. *)
Definition allocatable (i : inst) : bool :=
  match i with
  | Jal _ _ | Jalr _ _ | Beq _ _ _ => false
  | _ => true
  end.

(** The seven physical register names. *)
Definition physical_regs : list name := other_regs ++ usable_regs.

(** The instructions of a list executed in order: what [eval] does on code
    without jumps and branches (lemma [eval_run]). *)
Fixpoint run (l : list inst) (p : Program) : result Program :=
  match l with
  | [] => Ok p
  | i :: rest => q ← exec i p; run rest q
  end.

(** The calls of [get_var_name] made while [i] is allocated from state [s],
    in order: the operand asked for and the allocator state of the call. *)
Definition requests (i : inst) (s : RegAllocator)
    : list (name * RegAllocator) :=
  match i with
  | Bin _ rd rs1 rs2 =>
      let '(new_rs1, _, s1) := get_var_name rs1 s in
      let '(new_rs2, _, s2) := get_var_name rs2 s1 in
      [(rs1, s); (rs2, s1)] ++
      (if decide (new_rs1 ∈ other_regs ∨ new_rs2 ∈ other_regs)
       then [(rd, s2)] else [])
  | BinI _ rd rs1 _ =>
      let '(new_rs1, _, s1) := get_var_name rs1 s in
      (rs1, s) :: (if decide (new_rs1 ∈ other_regs) then [(rd, s1)] else [])
  | Lw rs1 _ reg | Sw rs1 _ reg =>
      let '(_, _, s1) := get_var_name reg s in
      [(reg, s); (rs1, s1)]
  | _ => []
  end.

(** A call [get_var_name var] in state [s] reaches [next_var_name]: the
    operand is neither reserved nor resident. *)
Definition needs_register (var : name) (s : RegAllocator) : Prop :=
  (var ∉ other_regs) ∧ (reg_map s !! var = None).

(** Straight-line code the allocator handles soundly: binary and
    binary-immediate instructions only, no reserved destination, and every
    source either reserved or written by an earlier instruction.  [defined]
    holds the names written so far. *)
Fixpoint written_before_read (defined : gset name) (l : list inst) : bool :=
  match l with
  | [] => true
  | Bin _ rd rs1 rs2 :: rest =>
      bool_decide (rd ∉ other_regs) &&
      bool_decide (rs1 ∈ other_regs ∨ rs1 ∈ defined) &&
      bool_decide (rs2 ∈ other_regs ∨ rs2 ∈ defined) &&
      written_before_read ({[rd]} ∪ defined) rest
  | BinI _ rd rs1 _ :: rest =>
      bool_decide (rd ∉ other_regs) &&
      bool_decide (rs1 ∈ other_regs ∨ rs1 ∈ defined) &&
      written_before_read ({[rd]} ∪ defined) rest
  | _ => false
  end.

(** The names written by the instructions of a list. *)
Definition written_names (l : list inst) : list name :=
  omap written l.

(** *** Predicates on allocator states and on emitted code *)

(** Every register held by [reg_map] is a general-purpose one. *)
Definition all_usable (s : RegAllocator) : Prop :=
  ∀ k r, reg_map s !! k = Some r → r ∈ usable_regs.

(** Every register held by [reg_map] is a general-purpose one or [None]. *)
Definition regs_ok (s : RegAllocator) : Prop :=
  ∀ k r, reg_map s !! k = Some r → r ∈ usable_regs ∨ r = None.

Definition physical (r : name) : Prop := r ∈ physical_regs.
Definition physical_or_none (r : name) : Prop := physical r ∨ r = None.

(** Every register operand of every instruction of [l] satisfies [P]. *)
Definition operands_in (P : name → Prop) (l : list inst) : Prop :=
  Forall (λ i, Forall P (reg_operands i)) l.

(** A reload emitted by [get_var_name]. *)
Definition is_x0_load (j : inst) : Prop :=
  ∃ addr r, j = Lw (Some "x0") addr r.

(** The register [get_var_name] answers for an operand: the operand itself
    when reserved, its register when resident, the next free one otherwise. *)
Definition operand_register (var : name) (s : RegAllocator) : name :=
  if decide (var ∈ other_regs) then var
  else match reg_map s !! var with
       | Some r => r
       | None => next_var_name s
       end.

(** The destination of a binary instruction is either resolved like an
    operand or is the register of the first source. *)
Definition dest_choice (s : RegAllocator) (rd : name)
    (c : name * option inst * RegAllocator) : Prop :=
  get_var_name rd s = c ∨
  ∃ r, r ∈ values (reg_map s) ∧ c = (r, None, s).

(** What [written_before_read] asks of one instruction, in terms of the
    allocator state: the destination is not reserved and every source is
    reserved or has a spill address. *)
Definition sound_input (s : RegAllocator) (i : inst) : Prop :=
  match i with
  | Bin _ rd rs1 rs2 =>
      (rd ∉ other_regs) ∧
      (rs1 ∈ other_regs ∨ is_Some (mem_map s !! rs1)) ∧
      (rs2 ∈ other_regs ∨ is_Some (mem_map s !! rs2))
  | BinI _ rd rs1 _ =>
      (rd ∉ other_regs) ∧ (rs1 ∈ other_regs ∨ is_Some (mem_map s !! rs1))
  | _ => False
  end.

(** *** The simulation between a program and its allocated version

    [p] is a state of the unallocated program, [p'] the state of the
    allocated one at the same instruction boundary, [s] the allocator state
    there.  Reserved registers agree, and every name with a spill address
    has its value at that address. *)
Record sim (s : RegAllocator) (p p' : Program) : Prop := {
  sim_reserved : ∀ r, r ∈ other_regs → env p' !! r = env p !! r;
  sim_zero : env p !! Some "x0" = Some 0;
  sim_spilled : ∀ n a, mem_map s !! n = Some a →
    0 ≤ a ≤ mem_counter s ∧
    ∃ v, env p !! n = Some v ∧ mem p' !! Z.to_nat a = Some v;
  sim_counter : -1 ≤ mem_counter s
}.

(** Inside one instruction: a name resident in [reg_map] has its value in
    its register. *)
Definition resident (s : RegAllocator) (p p' : Program) : Prop :=
  ∀ n r, reg_map s !! n = Some r →
    r ∈ usable_regs ∧ ∃ v, env p !! n = Some v ∧ env p' !! r = Some v.

(** Two visitor/program pairs in which every identifier resolves alike. *)
Definition same_scope (g g' : Visitor.GenVisitor) (prog prog' : Program)
    : Prop :=
  (∀ w, Visitor.scope_of g' w = Visitor.scope_of g w) ∧
  env prog' = env prog.

(** *** Concrete inputs used by the examples below *)

(** Two sibling [let]s of the same identifier, each returning its variable. *)
Definition sibling_lets : Expression.expr :=
  Expression.Add
    (Expression.Let "x" (Expression.Num 1) (Expression.Var "x"))
    (Expression.Let "x" (Expression.Num 2) (Expression.Var "x")).

(** The nested [let]s of the hygiene example. *)
Definition nested_lets : Expression.expr :=
  Expression.Let "v" (Expression.Num 2)
    (Expression.Let "v" (Expression.Num 3) (Expression.Var "v")).

(** A [let] of [v] whose body reads [v] after an inner [let] of [v] has
    closed. *)
Definition shadowed_sum (a b : Z) : Expression.expr :=
  Expression.Let "v" (Expression.Num a)
    (Expression.Add
       (Expression.Let "v" (Expression.Num b) (Expression.Var "v"))
       (Expression.Var "v")).

(** Five loads into five names that no later instruction reads. *)
Definition five_loads : list inst :=
  [Lw (Some "x0") 0 (Some "a"); Lw (Some "x0") 0 (Some "b");
   Lw (Some "x0") 0 (Some "c"); Lw (Some "x0") 0 (Some "d");
   Lw (Some "x0") 0 (Some "e")].

(** A program that stores to address 1 itself: the allocator's second spill
    lands on the same cell. *)
Definition spill_clash : list inst :=
  [Addi (Some "a") (Some "x0") 7; Sw (Some "x0") 1 (Some "a");
   Addi (Some "b") (Some "x0") 9; Lw (Some "x0") 1 (Some "c");
   Addi (Some "d") (Some "c") 0].

(** The third doctest of [RegAllocator.optimize] with an addition. *)
Definition three_adds : list inst :=
  [Addi (Some "a") (Some "x0") 3; Addi (Some "b") (Some "x0") 4;
   Add (Some "c") (Some "a") (Some "b")].

(** The result of running a program, or the program itself on a fault. *)
Definition final_state (fuel : nat) (p : Program) : Program :=
  match eval fuel p with
  | Ok q => q
  | Err _ => p
  end.

End Aux.

(** ** Further notions used by the statements *)
Module Shape.
Import Expression.

(** *** The allocator *)

(** The store instructions. *)
Definition is_store (i : Asm.inst) : bool :=
  match i with
  | Asm.Sw _ _ _ => true
  | _ => false
  end.

(** No general-purpose register holds two names. *)
Definition reg_injective (s : Optimizer.RegAllocator) : Prop :=
  ∀ k1 k2 (r : string),
    Optimizer.reg_map s !! k1 = Some (Some r) →
    Optimizer.reg_map s !! k2 = Some (Some r) → k1 = k2.

(** The spill addresses handed out by [mem_counter]: every address of
    [mem_map] lies between 0 and [mem_counter], and no two names share one. *)
Definition spills_distinct (s : Optimizer.RegAllocator) : Prop :=
  -1 ≤ Optimizer.mem_counter s ∧
  (∀ n a, Optimizer.mem_map s !! n = Some a →
     0 ≤ a ≤ Optimizer.mem_counter s) ∧
  (∀ n1 n2 a, Optimizer.mem_map s !! n1 = Some a →
     Optimizer.mem_map s !! n2 = Some a → n1 = n2).

(** The output of the pass over [three_adds] and the allocator after it. *)
Definition three_adds_allocated : list Asm.inst :=
  [Asm.Addi (Some "a1") (Some "x0") 3; Asm.Sw (Some "x0") 0 (Some "a1");
   Asm.Addi (Some "a1") (Some "x0") 4; Asm.Sw (Some "x0") 1 (Some "a1");
   Asm.Lw (Some "x0") 0 (Some "a1"); Asm.Lw (Some "x0") 1 (Some "a2");
   Asm.Add (Some "a1") (Some "a1") (Some "a2");
   Asm.Sw (Some "x0") 2 (Some "a1")].

Definition three_adds_state : Optimizer.RegAllocator :=
  {| Optimizer.reg_map := ∅;
     Optimizer.mem_map := {[Some "a" := 0; Some "b" := 1; Some "c" := 2]};
     Optimizer.mem_counter := 2 |}.

(** *** The generator *)

(** The name [GenVisitor.next_var_name] mints when the counter reaches [k]. *)
Definition counter_name (k : nat) : name := Some ("v" +:+ pretty k).

(** Trees without [let]. *)
Fixpoint let_free (e : expr) : bool :=
  match e with
  | Var _ | Bln _ | Num _ => true
  | Eql l r | Add l r | Sub l r | Mul l r | Div l r | Leq l r | Lth l r =>
      let_free l && let_free r
  | Neg e | Not e => let_free e
  | Let _ _ _ => false
  end.

(** Trees without [let] and without identifiers. *)
Fixpoint ground (e : expr) : bool :=
  match e with
  | Var _ => false
  | Bln _ | Num _ => true
  | Eql l r | Add l r | Sub l r | Mul l r | Div l r | Leq l r | Lth l r =>
      ground l && ground r
  | Neg e | Not e => ground e
  | Let _ _ _ => false
  end.

(** Every identifier of the tree is bound by an enclosing [let] or is one of
    [bound]. *)
Fixpoint bound_in (bound : list string) (e : expr) : bool :=
  match e with
  | Var identifier => bool_decide (identifier ∈ bound)
  | Bln _ | Num _ => true
  | Eql l r | Add l r | Sub l r | Mul l r | Div l r | Leq l r | Lth l r =>
      bound_in bound l && bound_in bound r
  | Neg e | Not e => bound_in bound e
  | Let identifier exp_def exp_body =>
      bound_in bound exp_def && bound_in (identifier :: bound) exp_body
  end.

(** The program with [code] appended: [add_inst] for each instruction. *)
Definition append_code (prog : Asm.Program) (code : list Asm.inst)
    : Asm.Program :=
  {| Asm.insts := Asm.insts prog ++ code; Asm.env := Asm.env prog;
     Asm.mem := Asm.mem prog; Asm.pc := Asm.pc prog |}.

(** Code that writes the counter names after [c], one per instruction and in
    order, with binary instructions only, and that reads only the zero
    register and names it has written before. *)
Definition closed_block (c : nat) (code : list Asm.inst) : Prop :=
  Aux.written_names code = counter_name <$> seq (S c) (length code) ∧
  Forall (λ i, Aux.is_binary i = true) code ∧
  ∀ D, Aux.written_before_read D code = true.

(** The names written by [code] are the counter names after [c], one per
    instruction and in order. *)
Definition minted (c : nat) (code : list Asm.inst) : Prop :=
  Aux.written_names code = counter_name <$> seq (S c) (length code).

(** A register the code that follows [code] may read. *)
Definition available (code : list Asm.inst) (r : name) : Prop :=
  r = Some "x0" ∨ r ∈ Aux.written_names code.

(** Run from [p], [code] leaves the value [v] in [r] when [o] is [Some v],
    and faults when [o] is [None]. *)
Definition computes (code : list Asm.inst) (r : name) (o : option Z)
    (p : Asm.Program) : Prop :=
  match o with
  | Some v => ∃ q, Aux.run code p = Ok q ∧ Asm.env q !! r = Some v
  | None => Aux.run code p = Err MachineFault
  end.

(** *** The renaming pass *)

(** Identifiers without an underscore: the ones the lexer produces. *)
Fixpoint plain (s : string) : bool :=
  match s with
  | EmptyString => true
  | String a s => negb (String.eqb (String a "") "_") && plain s
  end.

(** Every identifier of the tree is plain. *)
Fixpoint plain_tree (e : expr) : bool :=
  match e with
  | Var identifier => plain identifier
  | Bln _ | Num _ => true
  | Eql l r | Add l r | Sub l r | Mul l r | Div l r | Leq l r | Lth l r =>
      plain_tree l && plain_tree r
  | Neg e | Not e => plain_tree e
  | Let identifier exp_def exp_body =>
      plain identifier && plain_tree exp_def && plain_tree exp_body
  end.

(** The name on top of the renaming stack of [w], or [w] itself. *)
Definition current (v : Rename.RenameVisitor) (w : string) : string :=
  match Rename.scope_of v w with
  | [] => w
  | _ :: _ => List.last (Rename.scope_of v w) w
  end.

(** The name [_generate_unique_name] mints for [x] when its stack holds [k]
    names. *)
Definition depth_name (x : string) (k : nat) : string :=
  x +:+ "_" +:+ pretty k.

(** *** Let scoping of the generator *)

(** Every scope stack of the generator holds the names that
    [_generate_unique_name] minted for its identifier, the one minted at
    depth [j] in place [j]. *)
Definition scopes_minted (g : Visitor.GenVisitor) : Prop :=
  ∀ w j n, Visitor.scope_of g w !! j = Some n → n = depth_name w j.

(** A name the generator may write during a visit that starts in [g]: a
    counter name, or the name of a [let] at a depth that is not in use when
    the visit starts. *)
Definition mintable (g : Visitor.GenVisitor) (n : name) : Prop :=
  (∃ c, n = counter_name c) ∨
  (∃ x k, n = Some (depth_name x k) ∧
          (length (Visitor.scope_of g x) ≤ k)%nat).

(** The identifier [x] occurs in the tree outside the body of every [let] of
    [x]. *)
Fixpoint free_in (x : string) (e : expr) : bool :=
  match e with
  | Var identifier => bool_decide (identifier = x)
  | Bln _ | Num _ => false
  | Eql l r | Add l r | Sub l r | Mul l r | Div l r | Leq l r | Lth l r =>
      free_in x l || free_in x r
  | Neg e | Not e => free_in x e
  | Let identifier exp_def exp_body =>
      free_in x exp_def ||
      (negb (bool_decide (identifier = x)) && free_in x exp_body)
  end.

(** *** The renaming pass, continued *)

(** Every name on the renaming stack of [w] was minted for [w]. *)
Definition stacks_minted (v : Rename.RenameVisitor) : Prop :=
  ∀ w n, n ∈ Rename.scope_of v w → ∃ k : nat, n = depth_name w k.

(** The environment [rho] of a tree and the environment [rho'] of its
    renamed version agree: a plain identifier has in [rho] the value its
    current name has in [rho']. *)
Definition agree (v : Rename.RenameVisitor) (rho rho' : gmap string Z)
    : Prop :=
  ∀ w, plain w = true → rho' !! current v w = rho !! w.

End Shape.

(** ** Further notions: the scanner *)
Module LexerShape.
Import Lexer.

(** The tokens a [Lexed] holds. *)
Definition yielded (r : Lexed) : list Token :=
  match r with
  | Tokens l => l
  | ValueError l _ => l
  end.

(** The characters that are keys of [diff_signals] or of [base_signals]. *)
Definition signal_chars : list N :=
  [ord "<"; ord "("; ord "-"; ord "="; ord "*"; ord "/"; ord "~"; ord ")";
   ord " "; newline; ord "+"].

(** The text of the tokens whose kind fixes it: the keywords of [keys] and
    the operators. *)
Definition spelling (k : TokenType) : list N :=
  codes match k with
        | TRU => "true" | FLS => "false" | NOT => "not" | LET => "let"
        | INX => "in" | END => "end" | IFX => "if" | THN => "then"
        | ELS => "else" | ORX => "or" | AND => "and" | FNX => "fn"
        | EQL => "=" | ADD => "+" | SUB => "-" | MUL => "*" | DIV => "/"
        | LEQ => "<=" | LTH => "<" | NEG => "~" | LPR => "(" | RPR => ")"
        | ASN => "<-" | ARW => "=>"
        | _ => ""
        end.

(** A character that continues an identifier. *)
Definition isalnum `{Unicode} (c : N) : bool := isalpha c || isdigit c.

(** A token as the parser expects it: a number is a non-empty run of
    digits, an identifier a letter followed by letters and digits that is no
    keyword, every other token has the text of its kind, and no token is
    an end of file, a blank, a comment or a string. *)
Definition spelled `{Unicode} (t : Token) : Prop :=
  match kind t with
  | NUM => text t ≠ [] ∧ Forall (λ c, isdigit c = true) (text t)
  | VAR =>
      (∃ c more, text t = c :: more ∧ isalpha c = true ∧
         Forall (λ c, isalnum c = true) more) ∧
      keys !! text t = None
  | EOF | NLN | WSP | COM | STR => False
  | k => text t = spelling k
  end.

(** Whether a list holds a star followed by a closing parenthesis. *)
Fixpoint closes (l : list N) : bool :=
  match l with
  | a :: rest =>
      match rest with
      | b :: _ => bool_decide (a = ord "*" ∧ b = ord ")") || closes rest
      | [] => false
      end
  | [] => false
  end.

(** Whether [p] fails on the first character, if there is one. *)
Definition stops (p : N → bool) (s : list N) : Prop :=
  ∀ c, head s = Some c → p c = false.

(** Tables that class no character beyond ASCII. *)
Definition ascii_only : Unicode :=
  {| wide_isdigit _ := false; wide_isalpha _ := false |}.

End LexerShape.

(** ** Further notions: the parser *)
Module ParserShape.
Import Lexer Parser.

(** Where an exception leaves the parser: an [AttributeError] at the end
    of the tokens, the [ValueError] of [int] just behind a NUM token, the
    "Parse error" at the end of the tokens or at a token that starts no
    value, and never a [KeyError]. *)
Definition fault `{Builtins} (tokens : list Token) (e : exn) (j : nat)
    : Prop :=
  match e with
  | AttributeError => j = length tokens
  | ValueError =>
      ∃ t, (0 < j)%nat ∧ tokens !! pred j = Some t ∧ kind t = NUM ∧
           int (text t) = None
  | SyntaxError msg =>
      msg = "Type error" ∨
      msg = "Parse error" ∧
      (j = length tokens ∨
       ∃ t, tokens !! j = Some t ∧ kind t ∉ [VAR; LPR; NUM; FLS; TRU])
  | KeyError => False
  end.

(** A method that is run at the index [i] ends; it leaves the index
    between [i] and the number of tokens, it returns only with [P] and
    raises only with [fault]. *)
Definition post `{Builtins} (tokens : list Token) {A} (c : M A) (i : nat)
    (P : A → nat → Prop) : Prop :=
  match c i with
  | Return a j => (i ≤ j ≤ length tokens)%nat ∧ P a j
  | Raise e j => (i ≤ j ≤ length tokens)%nat ∧ fault tokens e j
  | Diverge => False
  end.

(** The index that an outcome leaves. *)
Definition stop {A} (o : outcome A) : nat :=
  match o with
  | Return _ j => j
  | Raise _ j => j
  | Diverge => O
  end.

(** The kinds of the tokens on which a loop of the parser goes on. *)
Definition continuing : list TokenType :=
  [ORX; AND; EQL; LEQ; LTH; ADD; SUB; MUL; DIV; VAR; LPR; NUM; TRU; FLS].

(** Two lists hold the same tokens before the index [j]. *)
Definition same_before (tokens tokens' : list Token) (j : nat) : Prop :=
  ∀ k, (k < j)%nat → tokens' !! k = tokens !! k.

(** At the index [j] the second list holds what the first holds, or the
    first has ended and the second holds a token of no continuing kind. *)
Definition same_look (tokens tokens' : list Token) (j : nat) : Prop :=
  tokens' !! j = tokens !! j ∨
  tokens !! j = None ∧ ∃ u, tokens' !! j = Some u ∧ kind u ∉ continuing.

(** The method [c'], on [tokens'], ends as [c], on [tokens], does from the
    index [i], when the two lists are the same up to where [c] stops: the
    same before and at this index when [c] raises, the same before it and
    alike at it when [c] returns. *)
Definition follows (tokens tokens' : list Token) {A} (c c' : M A) (i : nat)
    : Prop :=
  match c i with
  | Return a j =>
      (i ≤ j)%nat ∧
      (same_before tokens tokens' j → same_look tokens tokens' j →
       c' i = Return a j)
  | Raise e j =>
      (i ≤ j)%nat ∧
      (same_before tokens tokens' j → tokens' !! j = tokens !! j →
       c' i = Raise e j)
  | Diverge => True
  end.

(** The level of a binary operator, the tightest first, and the class that
    [parse] instantiates for it. *)
Definition level (k : TokenType) : option nat :=
  match k with
  | MUL | DIV => Some 1%nat
  | ADD | SUB => Some 2%nat
  | EQL | LEQ | LTH => Some 3%nat
  | AND => Some 4%nat
  | ORX => Some 5%nat
  | _ => None
  end.

Definition node (k : TokenType) : tree → tree → tree :=
  match k with
  | MUL => Mul
  | DIV => Div
  | ADD => Add
  | SUB => Sub
  | EQL => Eql
  | LEQ => Leq
  | LTH => Lth
  | AND => And
  | ORX => Or
  | _ => λ left _, left
  end.

(** An [int] that reads the decimal numbers written with ASCII digits, and
    nothing else. *)
Definition decimal : Builtins :=
  {| int text :=
       if bool_decide (text ≠ [] ∧ Forall (λ c, (48 ≤ c ≤ 57)%N) text)
       then Some (foldl (λ n c, 10 * n + Z.of_N (c - 48)) 0 text)
       else None |}.

End ParserShape.

(** * Facts about the machine *)
Section MachineFacts.
Import Asm Aux.

Lemma bind_Ok {A B} (r : result A) (f : A → result B) b :
  (r ≫= f) = Ok b ↔ ∃ a, r = Ok a ∧ f a = Ok b.
Proof.
  destruct r as [a | e]; simpl.
  - split; [intros H; by exists a | by intros (a' & [= <-] & H)].
  - split; [done | by intros (a' & [=] & _)].
Qed.

Lemma Ok_bind {A B} (a : A) (f : A → result B) : (Ok a ≫= f) = f a.
Proof. reflexivity. Qed.

Lemma get_val_Ok p var v : Asm.get_val p var = Ok v ↔ env p !! var = Some v.
Proof. unfold Asm.get_val. destruct (env p !! var); split; congruence. Qed.

Lemma env_set_val p var v :
  var ≠ Some "x0" → env (set_val p var v) = <[var := v]> (env p).
Proof. intros H. unfold set_val. by rewrite decide_False. Qed.

Lemma mem_set_val p var v : mem (set_val p var v) = mem p.
Proof. unfold set_val. by case_decide. Qed.

Lemma exec_straight i p q :
  straight i = true → exec i p = Ok q →
  insts q = insts p ∧ pc q = pc p + 1.
Proof.
  intros Hs Hex. destruct i; try done; simpl in Hex;
    repeat (apply bind_Ok in Hex as (? & ? & Hex)); injection Hex as <-;
    unfold set_val, set_mem in *; repeat case_decide; simplify_eq; done.
Qed.

Lemma fetch_at p pre i rest :
  insts p = pre ++ i :: rest → pc p = Z.of_nat (length pre) → fetch p = Some i.
Proof.
  intros Hi Hpc. unfold fetch. rewrite decide_True by lia.
  rewrite Hi, Hpc, Nat2Z.id. by rewrite list_lookup_middle.
Qed.

Lemma fetch_end p :
  pc p = Z.of_nat (length (insts p)) → fetch p = None.
Proof.
  intros Hpc. unfold fetch. rewrite decide_True by lia.
  rewrite Hpc, Nat2Z.id. apply lookup_ge_None. lia.
Qed.

(** On code without jumps and branches, [eval] with enough fuel executes the
    instructions in order. *)
Lemma eval_run l : ∀ p pre fuel,
  insts p = pre ++ l → pc p = Z.of_nat (length pre) →
  Forall (λ i, straight i = true) l → (length l ≤ fuel)%nat →
  eval fuel p = run l p.
Proof.
  induction l as [| i rest IH]; intros p pre fuel Hi Hpc Hst Hfuel.
  - simpl. rewrite app_nil_r in Hi.
    assert (fetch p = None) as Hf by (apply fetch_end; by rewrite Hi).
    destruct fuel; simpl; by rewrite Hf.
  - apply Forall_cons in Hst as [Hsi Hst].
    destruct fuel as [| fuel]; [simpl in Hfuel; lia |].
    simpl. rewrite (fetch_at p pre i rest Hi Hpc).
    destruct (exec i p) as [q |] eqn:Hex; [| done]. simpl.
    destruct (exec_straight i p q Hsi Hex) as [Hiq Hpcq].
    apply (IH q (pre ++ [i])).
    + rewrite Hiq, Hi. by rewrite <- app_assoc.
    + rewrite Hpcq, Hpc, length_app. simpl. lia.
    + done.
    + simpl in Hfuel. lia.
Qed.

Lemma run_app l1 l2 p :
  run (l1 ++ l2) p = (run l1 p ≫= run l2).
Proof.
  revert p. induction l1 as [| i rest IH]; intros p; simpl; [done |].
  destruct (exec i p) as [q |]; simpl; [apply IH | done].
Qed.

Lemma run_single i p q : exec i p = Ok q → run [i] p = Ok q.
Proof. intros H. cbn [run]. by rewrite H. Qed.

Lemma run_two i j p a b :
  exec i p = Ok a → exec j a = Ok b → run [i; j] p = Ok b.
Proof. intros H1 H2. cbn [run]. rewrite H1. simpl. by rewrite H2. Qed.

Lemma exec_Lw_x0 p addr r v :
  env p !! Some "x0" = Some 0 → 0 ≤ addr →
  mem p !! Z.to_nat addr = Some v → r ≠ Some "x0" →
  ∃ q, exec (Lw (Some "x0") addr r) p = Ok q ∧
    env q = <[r := v]> (env p) ∧ mem q = mem p.
Proof.
  intros Hz Haddr Hmem Hr. simpl. unfold Asm.get_val. rewrite Hz. simpl.
  unfold get_mem. rewrite decide_True by lia. rewrite Z.add_0_l, Hmem. simpl.
  eexists. split; [done |]. simpl. by rewrite env_set_val, mem_set_val.
Qed.

Lemma exec_Sw_x0 p addr r v :
  env p !! Some "x0" = Some 0 → env p !! r = Some v →
  0 ≤ addr < Z.of_nat (length (mem p)) →
  ∃ q, exec (Sw (Some "x0") addr r) p = Ok q ∧
    env q = env p ∧ mem q = <[Z.to_nat addr := v]> (mem p).
Proof.
  intros Hz Hr Haddr. simpl. unfold Asm.get_val. rewrite Hz, Hr. simpl.
  unfold set_mem. rewrite Z.add_0_l. rewrite decide_True by lia. simpl.
  eexists. split; [done |]. done.
Qed.

End MachineFacts.

(** * Facts about the register allocator *)
Section RegisterFacts.
Import Asm Optimizer Aux.

Lemma x0_other : Some "x0" ∈ other_regs.
Proof. constructor. Qed.

Lemma usable_not_other r : r ∈ usable_regs → r ∉ other_regs.
Proof.
  unfold usable_regs, other_regs. rewrite !elem_of_cons, !elem_of_nil.
  intros H1 H2. destruct_or!; simplify_eq.
Qed.

Lemma usable_not_x0 r : r ∈ usable_regs → r ≠ Some "x0".
Proof. intros H ->. apply usable_not_other in H. apply H, x0_other. Qed.

Lemma not_other_not_x0 r : r ∉ other_regs → r ≠ Some "x0".
Proof. intros H ->. apply H, x0_other. Qed.

Lemma usable_physical r : r ∈ usable_regs → physical r.
Proof. unfold physical, physical_regs. rewrite elem_of_app. tauto. Qed.

Lemma other_physical r : r ∈ other_regs → physical r.
Proof. unfold physical, physical_regs. rewrite elem_of_app. tauto. Qed.

Lemma x0_physical : physical (Some "x0").
Proof. apply other_physical. unfold other_regs. constructor. Qed.

Lemma usable_regs_NoDup : NoDup usable_regs.
Proof. by apply (bool_decide_unpack _). Qed.

Lemma values_elem (m : gmap name name) r : r ∈ values m ↔ ∃ k, m !! k = Some r.
Proof. apply elem_of_map_img. Qed.

(** The loop of [next_var_name] answers the first candidate that is no value
    of the map, or [None] when every candidate is one. *)
Lemma first_free_spec regs m :
  (∃ pre post, regs = pre ++ first_free regs m :: post ∧
     (first_free regs m ∉ values m) ∧ Forall (λ q, q ∈ values m) pre) ∨
  (first_free regs m = None ∧ Forall (λ q, q ∈ values m) regs).
Proof.
  induction regs as [|reg rest IH]; simpl.
  - right. split; [done | constructor].
  - destruct (decide (reg ∉ values m)) as [Hfree | Hocc].
    + left. exists [], rest. split; [done | split; [done | constructor]].
    + assert (reg ∈ values m) as Hin by (destruct (decide (reg ∈ values m)); tauto).
      destruct IH as [(pre & post & Heq & Hnot & Hall) | [Hnone Hall]].
      * left. exists (reg :: pre), post. split; [| split; [done | by constructor]].
        simpl. by rewrite <- Heq.
      * right. split; [done | by constructor].
Qed.

(** Pairwise distinct registers that are all values of a map need as many
    keys. *)
Lemma occupied_size (regs : list name) (m : gmap name name) :
  NoDup regs → Forall (λ q, q ∈ values m) regs → (length regs ≤ size m)%nat.
Proof.
  intros Hnd. revert m. induction Hnd as [|reg rest Hnotin Hnd IH]; intros m Hall.
  - simpl. lia.
  - apply Forall_cons in Hall as [Hreg Hall].
    apply values_elem in Hreg as [k Hk].
    assert (length rest ≤ size (delete k m))%nat as Hle.
    { apply IH. rewrite Forall_forall in Hall |- *. intros r Hr.
      destruct (proj1 (values_elem m r) (Hall r Hr)) as [k' Hk'].
      apply values_elem. exists k'. rewrite lookup_delete_ne; [done |].
      intros ->. rewrite Hk in Hk'. injection Hk' as ->. done. }
    rewrite map_size_delete, Hk in Hle. simpl in *.
    assert (size m ≠ 0)%nat; [| lia].
    apply map_size_non_empty_iff. intros ->. by rewrite lookup_empty in Hk.
Qed.

Lemma next_var_name_free s :
  (size (reg_map s) < 4)%nat →
  next_var_name s ∈ usable_regs ∧ (next_var_name s ∉ values (reg_map s)).
Proof.
  intros Hsize. unfold next_var_name.
  destruct (first_free_spec usable_regs (reg_map s))
    as [(pre & post & Heq & Hfree & _) | [_ Hall]].
  - split; [| done]. rewrite Heq at 2. rewrite elem_of_app, elem_of_cons. tauto.
  - apply (occupied_size _ _ usable_regs_NoDup) in Hall. simpl in Hall. lia.
Qed.

Lemma next_var_name_cases s :
  next_var_name s ∈ usable_regs ∨ next_var_name s = None.
Proof.
  unfold next_var_name.
  destruct (first_free_spec usable_regs (reg_map s))
    as [(pre & post & Heq & _) | [Hnone _]]; [left | by right].
  rewrite Heq at 2. rewrite elem_of_app, elem_of_cons. tauto.
Qed.

(** The three ways [get_var_name] answers. *)
Lemma get_var_name_spec var s :
  ∃ r oi s', get_var_name var s = (r, oi, s') ∧
  mem_map s' = mem_map s ∧ mem_counter s' = mem_counter s ∧
  ((var ∈ other_regs ∧ r = var ∧ oi = None ∧ s' = s) ∨
   ((var ∉ other_regs) ∧ reg_map s !! var = Some r ∧ oi = None ∧ s' = s) ∨
   ((var ∉ other_regs) ∧ reg_map s !! var = None ∧ r = next_var_name s ∧
      reg_map s' = <[var := r]> (reg_map s) ∧
      (oi = None ∧ mem_map s !! var = None ∨
       ∃ addr, mem_map s !! var = Some addr ∧
               oi = Some (Lw (Some "x0") addr r)))).
Proof.
  unfold get_var_name. destruct (decide (var ∈ other_regs)) as [Hin | Hout].
  - eexists _, _, _. split; [done |]. split; [done |]. split; [done |]. by left.
  - destruct (reg_map s !! var) as [r |] eqn:Hreg.
    + eexists _, _, _. split; [done |]. split; [done |]. split; [done |].
      right; left. done.
    + destruct (mem_map s !! var) as [addr |] eqn:Hmem;
        (eexists _, _, _; split; [done |]; split; [done |]; split; [done |]);
        right; right; (split; [done |]; split; [done |]; split; [done |]);
        (split; [done |]); [right; by exists addr | by left].
Qed.

Lemma get_var_name_register var s :
  (get_var_name var s).1.1 = operand_register var s.
Proof.
  unfold get_var_name, operand_register.
  destruct (decide (var ∈ other_regs)); [done |].
  destruct (reg_map s !! var); [done |]. by destruct (mem_map s !! var).
Qed.

Lemma get_var_name_load var s r oi s' :
  get_var_name var s = (r, oi, s') →
  Forall is_x0_load (option_list oi) ∧
  mem_map s' = mem_map s ∧ mem_counter s' = mem_counter s.
Proof.
  intros Heq.
  destruct (get_var_name_spec var s) as (r0 & oi0 & s0 & Heq0 & Hmm & Hmc & Hcases).
  rewrite Heq in Heq0. injection Heq0 as <- <- <-. split; [| done].
  destruct Hcases as [(_ & _ & -> & _) | [(_ & _ & -> & _) | (_ & _ & _ & _ & Hoi)]];
    try constructor.
  destruct Hoi as [[-> _] | (addr & _ & ->)]; [constructor |].
  constructor; [by eexists _, _ | constructor].
Qed.

Lemma get_var_name_straight var s r oi s' :
  get_var_name var s = (r, oi, s') →
  Forall (λ j, straight j = true) (option_list oi).
Proof.
  intros Heq.
  destruct (get_var_name_spec var s) as (r0 & oi0 & s0 & Heq0 & _ & _ & Hcases).
  rewrite Heq in Heq0. injection Heq0 as <- <- <-.
  destruct Hcases as [(_ & _ & -> & _) | [(_ & _ & -> & _) | (_ & _ & _ & _ & Hoi)]];
    try constructor.
  destruct Hoi as [[-> _] | (addr & _ & ->)]; repeat constructor.
Qed.

Lemma store_result_spec rd new_rd insts s :
  ((new_rd ∉ other_regs) ∧
   store_result rd new_rd insts s =
     (insts ++ [Sw (Some "x0") (mem_counter s + 1) new_rd],
      {| reg_map := delete rd (reg_map s);
         mem_map := <[rd := mem_counter s + 1]> (mem_map s);
         mem_counter := mem_counter s + 1 |})) ∨
  (new_rd ∈ other_regs ∧ store_result rd new_rd insts s = (insts, s)).
Proof.
  unfold store_result. destruct (decide (new_rd ∉ other_regs)) as [H | H].
  - left. split; [done |]. reflexivity.
  - right. split; [| done]. destruct (decide (new_rd ∈ other_regs)); tauto.
Qed.

Lemma operands_in_app P l1 l2 :
  operands_in P l1 → operands_in P l2 → operands_in P (l1 ++ l2).
Proof. apply Forall_app_2. Qed.

Lemma operands_in_one P i :
  Forall P (reg_operands i) → operands_in P [i].
Proof. intros H. by constructor. Qed.

Lemma notin_2 (k a b : name) : k ∉ [a; b] → k ≠ a ∧ k ≠ b.
Proof. rewrite !not_elem_of_cons. tauto. Qed.

Lemma notin_1 (k a : name) : k ∉ [a] → k ≠ a.
Proof. rewrite !not_elem_of_cons. tauto. Qed.

Lemma all_usable_empty s : reg_map s = ∅ → all_usable s.
Proof. intros H k r. rewrite H. by rewrite lookup_empty. Qed.

Lemma get_var_name_step var s r oi s' :
  get_var_name var s = (r, oi, s') →
  (size (reg_map s) < 4)%nat → all_usable s →
  physical r ∧ all_usable s' ∧
  (size (reg_map s') ≤ S (size (reg_map s)))%nat ∧
  (∀ key, key ≠ var → reg_map s' !! key = reg_map s !! key) ∧
  (r ∈ other_regs → s' = s ∧ var ∈ other_regs) ∧
  (r ∉ other_regs → r ∈ usable_regs ∧ reg_map s' !! var = Some r) ∧
  operands_in physical (option_list oi) ∧
  mem_map s' = mem_map s ∧ mem_counter s' = mem_counter s.
Proof.
  intros Heq Hsize Hus.
  destruct (get_var_name_spec var s) as (r0 & oi0 & s0 & Heq0 & Hmm & Hmc & Hcases).
  rewrite Heq in Heq0. injection Heq0 as <- <- <-.
  destruct (next_var_name_free s Hsize) as [Hnext _].
  destruct Hcases as [(Hin & -> & -> & ->) | [(Hout & Hreg & -> & ->) | (Hout & Hreg & -> & Hmap & Hoi)]].
  - split_and!; try done; try lia.
    + by apply other_physical.
    + constructor.
  - pose proof (Hus _ _ Hreg) as Hr. split_and!; try done; try lia.
    + by apply usable_physical.
    + intros Hn. by apply usable_not_other in Hr.
    + constructor.
  - split_and!; try done.
    + by apply usable_physical.
    + intros k r. rewrite Hmap. intros [[_ <-] | [_ H]]%lookup_insert_Some; [done | by eapply Hus].
    + rewrite Hmap, map_size_insert, Hreg. simpl. lia.
    + intros key Hne. rewrite Hmap. by rewrite lookup_insert_ne.
    + intros Hn. by apply usable_not_other in Hnext.
    + rewrite Hmap. by rewrite lookup_insert_eq.
    + destruct Hoi as [[-> _] | (addr & _ & ->)]; [constructor |].
      constructor; [| constructor]. simpl.
      constructor; [apply x0_physical |].
      constructor; [by apply usable_physical | constructor].
Qed.

(** The store of the result keeps the operands physical and releases the
    destination, unless the destination register is reserved. *)
Lemma store_result_empty rd new_rd insts s (sources : list name) :
  (∀ key, key ∉ sources → key ≠ rd → reg_map s !! key = None) →
  (new_rd ∈ other_regs → rd ∈ sources ∨ reg_map s !! rd = None) →
  operands_in physical insts → physical new_rd →
  ∃ out s', store_result rd new_rd insts s = (out, s') ∧
    (∀ key, key ∉ sources → reg_map s' !! key = None) ∧
    operands_in physical out.
Proof.
  intros Hother Hrd Hin Hphys.
  destruct (store_result_spec rd new_rd insts s) as [[Hn ->] | [Hr ->]].
  - eexists _, _. split; [done |]. split.
    + intros key Hkey. simpl. destruct (decide (key = rd)) as [-> | Hne].
      * apply lookup_delete_eq.
      * rewrite lookup_delete_ne by done. by apply Hother.
    + apply operands_in_app; [done |]. apply operands_in_one. simpl.
      constructor; [apply x0_physical |]. constructor; [done | constructor].
  - eexists _, _. split; [done |]. split; [| done].
    intros key Hkey. destruct (decide (key = rd)) as [-> | Hne].
    + destruct (Hrd Hr); [done | done].
    + by apply Hother.
Qed.

(** A binary instruction allocated from an empty [reg_map] leaves it empty,
    emits physical operands only and never asks for a register while more
    than two are taken. *)
Lemma alloc_binary_op_empty i s :
  is_binary i = true → reg_map s = ∅ →
  ∃ out s', alloc_binary_op i s = Ok (out, s') ∧ reg_map s' = ∅ ∧
    operands_in physical out ∧
    (∀ var st, (var, st) ∈ requests i s → (size (reg_map st) ≤ 2)%nat).
Proof.
  intros Hbin Hempty. pose proof (all_usable_empty s Hempty) as Hus.
  assert (size (reg_map s) = 0)%nat as Hsz by (by rewrite Hempty, map_size_empty).
  assert (∀ key, reg_map s !! key = None) as Hnone
    by (intros key; by rewrite Hempty, lookup_empty).
  destruct i as [op rd rs1 rs2 | op rd rs1 imm | | | | |]; try done; simpl.
  - destruct (get_var_name rs1 s) as [[r1 oi1] s1] eqn:E1.
    apply get_var_name_step in E1 as (P1 & U1 & Z1 & K1 & O1 & N1 & L1 & _); [| lia | done].
    destruct (get_var_name rs2 s1) as [[r2 oi2] s2] eqn:E2.
    apply get_var_name_step in E2 as (P2 & U2 & Z2 & K2 & O2 & N2 & L2 & _); [| lia | done].
    assert (∃ r3 oi3 s3,
      (if decide (r1 ∈ other_regs ∨ r2 ∈ other_regs) then get_var_name rd s2
       else (if decide (r1 ∉ other_regs) then r1 else r2, None, s2)) = (r3, oi3, s3) ∧
      physical r3 ∧ operands_in physical (option_list oi3) ∧
      (∀ key, key ∉ [rs1; rs2] → key ≠ rd → reg_map s3 !! key = None) ∧
      (r3 ∈ other_regs → rd ∈ [rs1; rs2] ∨ reg_map s3 !! rd = None))
      as (r3 & oi3 & s3 & -> & P3 & L3 & K3 & O3).
    { destruct (decide (r1 ∈ other_regs ∨ r2 ∈ other_regs)) as [Hres | Hres].
      - destruct (get_var_name rd s2) as [[r3 oi3] s3] eqn:E3.
        apply get_var_name_step in E3 as (P3 & U3 & Z3 & K3 & O3 & N3 & L3 & _); [| lia | done].
        eexists _, _, _. split; [done |]. split_and!; [done | done | |].
        + intros key [??]%notin_2 Hne. rewrite K3, K2, K1 by done. apply Hnone.
        + intros Hr3. destruct (O3 Hr3) as [-> _].
          destruct (decide (rd ∈ [rs1; rs2])) as [Hin | Hnin]; [by left | right].
          apply notin_2 in Hnin as [??]. rewrite K2, K1 by done. apply Hnone.
      - assert (r1 ∉ other_regs) as Hr1 by tauto.
        destruct (decide (r1 ∉ other_regs)); [| done].
        eexists _, _, _. split; [done |]. split_and!; [done | constructor | | done].
        intros key [??]%notin_2 Hne. rewrite K2, K1 by done. apply Hnone. }
    destruct (store_result_empty rd r3
                (option_list oi1 ++ option_list oi2 ++ option_list oi3 ++
                 [Bin op r3 r1 r2]) s3 [rs1; rs2])
      as (out & s4 & -> & K4 & L4); [done | done | | done |].
    { repeat (apply operands_in_app; [done |]). apply operands_in_one. simpl.
      repeat (constructor; [done |]). constructor. }
    eexists _, _. split; [done |]. split_and!; [| done |].
    + apply map_eq. intros key. rewrite lookup_empty. simpl.
      destruct (decide (key = rs2)) as [-> | Hne2]; [apply lookup_delete_eq |].
      rewrite lookup_delete_ne by done.
      destruct (decide (key = rs1)) as [-> | Hne1]; [apply lookup_delete_eq |].
      rewrite lookup_delete_ne by done. apply K4.
      rewrite !not_elem_of_cons. split_and!; [done | done | apply not_elem_of_nil].
    + intros var st Hreq. destruct (decide (r1 ∈ other_regs ∨ r2 ∈ other_regs));
        simpl in Hreq; rewrite ?elem_of_cons, ?elem_of_nil in Hreq;
        destruct_or!; simplify_eq; lia.
  - destruct (get_var_name rs1 s) as [[r1 oi1] s1] eqn:E1.
    apply get_var_name_step in E1 as (P1 & U1 & Z1 & K1 & O1 & N1 & L1 & _); [| lia | done].
    assert (∃ r3 oi3 s3,
      (if decide (r1 ∈ other_regs) then get_var_name rd s1
       else (r1, None, s1)) = (r3, oi3, s3) ∧
      physical r3 ∧ operands_in physical (option_list oi3) ∧
      (∀ key, key ∉ [rs1] → key ≠ rd → reg_map s3 !! key = None) ∧
      (r3 ∈ other_regs → rd ∈ [rs1] ∨ reg_map s3 !! rd = None))
      as (r3 & oi3 & s3 & -> & P3 & L3 & K3 & O3).
    { destruct (decide (r1 ∈ other_regs)) as [Hres | Hres].
      - destruct (get_var_name rd s1) as [[r3 oi3] s3] eqn:E3.
        apply get_var_name_step in E3 as (P3 & U3 & Z3 & K3 & O3 & N3 & L3 & _); [| lia | done].
        eexists _, _, _. split; [done |]. split_and!; [done | done | |].
        + intros key ?%notin_1 Hne. rewrite K3, K1 by done. apply Hnone.
        + intros Hr3. destruct (O3 Hr3) as [-> _].
          destruct (decide (rd ∈ [rs1])) as [Hin | Hnin]; [by left | right].
          apply notin_1 in Hnin. rewrite K1 by done. apply Hnone.
      - eexists _, _, _. split; [done |]. split_and!; [done | constructor | | done].
        intros key ?%notin_1 Hne. rewrite K1 by done. apply Hnone. }
    destruct (store_result_empty rd r3
                (option_list oi1 ++ option_list oi3 ++ [BinI op r3 r1 imm]) s3 [rs1])
      as (out & s4 & -> & K4 & L4); [done | done | | done |].
    { repeat (apply operands_in_app; [done |]). apply operands_in_one. simpl.
      repeat (constructor; [done |]). constructor. }
    eexists _, _. split; [done |]. split_and!; [| done |].
    + apply map_eq. intros key. rewrite lookup_empty. simpl.
      destruct (decide (key = rs1)) as [-> | Hne1]; [apply lookup_delete_eq |].
      rewrite lookup_delete_ne by done. apply K4.
      rewrite !not_elem_of_cons. split_and!; [done | apply not_elem_of_nil].
    + intros var st Hreq. destruct (decide (r1 ∈ other_regs));
        simpl in Hreq; rewrite ?elem_of_cons, ?elem_of_nil in Hreq;
        destruct_or!; simplify_eq; lia.
Qed.

Lemma regs_ok_delete var s : regs_ok s → regs_ok (cleanup_maps var s).
Proof.
  intros H k r. simpl. intros [_ Hk]%lookup_delete_Some. by eapply H.
Qed.

Lemma get_var_name_ok var s r oi s' :
  get_var_name var s = (r, oi, s') → regs_ok s →
  physical_or_none r ∧ regs_ok s' ∧
  operands_in physical_or_none (option_list oi).
Proof.
  intros Heq Hok.
  destruct (get_var_name_spec var s) as (r0 & oi0 & s0 & Heq0 & _ & _ & Hcases).
  rewrite Heq in Heq0. injection Heq0 as <- <- <-.
  assert (physical_or_none (next_var_name s)) as Hnext.
  { destruct (next_var_name_cases s) as [H | H]; [left | by right].
    by apply usable_physical. }
  destruct Hcases as [(Hin & -> & -> & ->) | [(Hout & Hreg & -> & ->) | (Hout & Hreg & -> & Hmap & Hoi)]].
  - split_and!; [left; by apply other_physical | done | constructor].
  - split_and!; [| done | constructor].
    destruct (Hok _ _ Hreg) as [H | H]; [left; by apply usable_physical | by right].
  - split_and!; [done | |].
    + intros k r. rewrite Hmap. intros [[_ <-] | [_ H]]%lookup_insert_Some; [| by eapply Hok].
      apply next_var_name_cases.
    + destruct Hoi as [[-> _] | (addr & _ & ->)]; [constructor |].
      apply operands_in_one. simpl.
      constructor; [left; apply x0_physical |]. constructor; [done | constructor].
Qed.

Lemma store_result_ok rd new_rd insts s out s' :
  store_result rd new_rd insts s = (out, s') →
  regs_ok s → operands_in physical_or_none insts → physical_or_none new_rd →
  regs_ok s' ∧ operands_in physical_or_none out.
Proof.
  intros Heq Hok Hin Hrd.
  destruct (store_result_spec rd new_rd insts s) as [[_ H] | [_ H]];
    rewrite Heq in H; injection H as -> ->; [| done].
  split.
  - intros k r. simpl. intros [_ Hk]%lookup_delete_Some. by eapply Hok.
  - apply operands_in_app; [done |]. apply operands_in_one. simpl.
    constructor; [left; apply x0_physical |]. constructor; [done | constructor].
Qed.

Lemma alloc_action_ok prog i s out s' :
  alloc_action prog i s = Ok (out, s') → regs_ok s →
  regs_ok s' ∧ operands_in physical_or_none out.
Proof.
  intros Heq Hok. destruct i as [op rd rs1 rs2 | op rd rs1 imm | rs1 off reg | rs1 off reg | | |];
    simpl in Heq; try done.
  - destruct (get_var_name rs1 s) as [[r1 oi1] s1] eqn:E1.
    apply get_var_name_ok in E1 as (P1 & U1 & L1); [| done].
    destruct (get_var_name rs2 s1) as [[r2 oi2] s2] eqn:E2.
    apply get_var_name_ok in E2 as (P2 & U2 & L2); [| done].
    assert (∃ r3 oi3 s3,
      (if decide (r1 ∈ other_regs ∨ r2 ∈ other_regs) then get_var_name rd s2
       else (if decide (r1 ∉ other_regs) then r1 else r2, None, s2)) = (r3, oi3, s3) ∧
      physical_or_none r3 ∧ regs_ok s3 ∧ operands_in physical_or_none (option_list oi3))
      as (r3 & oi3 & s3 & E3 & P3 & U3 & L3).
    { destruct (decide (r1 ∈ other_regs ∨ r2 ∈ other_regs)).
      - destruct (get_var_name rd s2) as [[r3 oi3] s3] eqn:E3.
        apply get_var_name_ok in E3 as (P3 & U3 & L3); [| done].
        by eexists _, _, _.
      - eexists _, _, _. split; [done |]. split_and!; [| done | constructor].
        by destruct (decide (r1 ∉ other_regs)). }
    rewrite E3 in Heq.
    destruct (store_result rd r3 _ s3) as [out4 s4] eqn:E4.
    apply store_result_ok in E4 as [U4 L4]; [| done | | done].
    + injection Heq as <- <-. split; [| done]. by do 2 apply regs_ok_delete.
    + repeat (apply operands_in_app; [done |]). apply operands_in_one. simpl.
      repeat (constructor; [done |]). constructor.
  - destruct (get_var_name rs1 s) as [[r1 oi1] s1] eqn:E1.
    apply get_var_name_ok in E1 as (P1 & U1 & L1); [| done].
    assert (∃ r3 oi3 s3,
      (if decide (r1 ∈ other_regs) then get_var_name rd s1
       else (r1, None, s1)) = (r3, oi3, s3) ∧
      physical_or_none r3 ∧ regs_ok s3 ∧ operands_in physical_or_none (option_list oi3))
      as (r3 & oi3 & s3 & E3 & P3 & U3 & L3).
    { destruct (decide (r1 ∈ other_regs)).
      - destruct (get_var_name rd s1) as [[r3 oi3] s3] eqn:E3.
        apply get_var_name_ok in E3 as (P3 & U3 & L3); [| done].
        by eexists _, _, _.
      - eexists _, _, _. split; [done |]. split_and!; [done | done | constructor]. }
    rewrite E3 in Heq.
    destruct (store_result rd r3 _ s3) as [out4 s4] eqn:E4.
    apply store_result_ok in E4 as [U4 L4]; [| done | | done].
    + injection Heq as <- <-. split; [| done]. by apply regs_ok_delete.
    + repeat (apply operands_in_app; [done |]). apply operands_in_one. simpl.
      repeat (constructor; [done |]). constructor.
  - destruct (get_var_name reg s) as [[r1 oi1] s1] eqn:E1.
    apply get_var_name_ok in E1 as (P1 & U1 & L1); [| done].
    destruct (get_var_name rs1 s1) as [[r2 oi2] s2] eqn:E2.
    apply get_var_name_ok in E2 as (P2 & U2 & L2); [| done].
    injection Heq as <- <-. split; [by apply regs_ok_delete |].
    repeat (apply operands_in_app; [done |]). apply operands_in_one. simpl.
    repeat (constructor; [done |]). constructor.
  - destruct (get_var_name reg s) as [[r1 oi1] s1] eqn:E1.
    apply get_var_name_ok in E1 as (P1 & U1 & L1); [| done].
    destruct (get_var_name rs1 s1) as [[r2 oi2] s2] eqn:E2.
    apply get_var_name_ok in E2 as (P2 & U2 & L2); [| done].
    destruct (Asm.get_val prog r2) as [base |]; [| done]. simpl in Heq.
    injection Heq as <- <-. split.
    + intros k r. simpl. intros [_ Hk]%lookup_delete_Some. by eapply U2.
    + repeat (apply operands_in_app; [done |]). apply operands_in_one. simpl.
      repeat (constructor; [done |]). constructor.
Qed.

Lemma alloc_action_straight prog i s out s' :
  alloc_action prog i s = Ok (out, s') →
  Forall (λ j, straight j = true) out.
Proof.
  intros Heq. destruct i as [op rd rs1 rs2 | op rd rs1 imm | rs1 off reg | rs1 off reg | | |];
    simpl in Heq; try done.
  - destruct (get_var_name rs1 s) as [[r1 oi1] s1] eqn:E1.
    apply get_var_name_straight in E1.
    destruct (get_var_name rs2 s1) as [[r2 oi2] s2] eqn:E2.
    apply get_var_name_straight in E2.
    destruct (if decide (r1 ∈ other_regs ∨ r2 ∈ other_regs) then _ else _)
      as [[r3 oi3] s3] eqn:E3.
    assert (Forall (λ j, straight j = true) (option_list oi3)) as L3.
    { destruct (decide (r1 ∈ other_regs ∨ r2 ∈ other_regs)).
      - by apply get_var_name_straight in E3.
      - injection E3 as <- <- <-. constructor. }
    destruct (store_result_spec rd r3
                (option_list oi1 ++ option_list oi2 ++ option_list oi3 ++
                 [Bin op r3 r1 r2]) s3) as [[_ Hst] | [_ Hst]];
      rewrite Hst in Heq; injection Heq as <- <-;
      rewrite ?Forall_app; split_and!; try done; by repeat constructor.
  - destruct (get_var_name rs1 s) as [[r1 oi1] s1] eqn:E1.
    apply get_var_name_straight in E1.
    destruct (if decide (r1 ∈ other_regs) then _ else _)
      as [[r3 oi3] s3] eqn:E3.
    assert (Forall (λ j, straight j = true) (option_list oi3)) as L3.
    { destruct (decide (r1 ∈ other_regs)).
      - by apply get_var_name_straight in E3.
      - injection E3 as <- <- <-. constructor. }
    destruct (store_result_spec rd r3
                (option_list oi1 ++ option_list oi3 ++ [BinI op r3 r1 imm]) s3)
      as [[_ Hst] | [_ Hst]];
      rewrite Hst in Heq; injection Heq as <- <-;
      rewrite ?Forall_app; split_and!; try done; by repeat constructor.
  - destruct (get_var_name reg s) as [[r1 oi1] s1] eqn:E1.
    apply get_var_name_straight in E1.
    destruct (get_var_name rs1 s1) as [[r2 oi2] s2] eqn:E2.
    apply get_var_name_straight in E2.
    injection Heq as <- <-.
    rewrite ?Forall_app; split_and!; try done; by repeat constructor.
  - destruct (get_var_name reg s) as [[r1 oi1] s1] eqn:E1.
    apply get_var_name_straight in E1.
    destruct (get_var_name rs1 s1) as [[r2 oi2] s2] eqn:E2.
    apply get_var_name_straight in E2.
    destruct (Asm.get_val prog r2); [| done]. simpl in Heq.
    injection Heq as <- <-.
    rewrite ?Forall_app; split_and!; try done; by repeat constructor.
Qed.

End RegisterFacts.

(** * Facts about one allocation pass *)
Section PassFacts.
Import Asm Optimizer Aux.
Variable prog : Program.

Lemma alloc_insts_ok l s out s' :
  alloc_insts prog l s = Ok (out, s') → regs_ok s →
  regs_ok s' ∧ operands_in physical_or_none out.
Proof.
  revert s out. induction l as [| i rest IH]; intros s out Heq Hok; simpl in Heq.
  - injection Heq as <- <-. split; [done | constructor].
  - destruct (alloc_action prog i s) as [[out1 s1] |] eqn:E1; [| done]. simpl in Heq.
    apply alloc_action_ok in E1 as [U1 L1]; [| done].
    destruct (alloc_insts prog rest s1) as [[out2 s2] |] eqn:E2; [| done]. simpl in Heq.
    injection Heq as <- <-.
    apply IH in E2 as [U2 L2]; [| done].
    split; [done |]. by apply operands_in_app.
Qed.

Lemma alloc_insts_binary l s :
  Forall (λ i, is_binary i = true) l → reg_map s = ∅ →
  ∃ out s', alloc_insts prog l s = Ok (out, s') ∧ reg_map s' = ∅ ∧
    operands_in physical out.
Proof.
  intros Hall. revert s. induction Hall as [| i rest Hi Hrest IH]; intros s Hempty; simpl.
  - eexists _, _. split; [done |]. split; [done | constructor].
  - destruct (alloc_binary_op_empty i s Hi Hempty) as (out1 & s1 & E1 & Hs1 & L1 & _).
    assert (alloc_action prog i s = Ok (out1, s1)) as ->.
    { destruct i; try done. }
    simpl. destruct (IH s1 Hs1) as (out2 & s2 & -> & Hs2 & L2). simpl.
    eexists _, _. split; [done |]. split; [done |]. by apply operands_in_app.
Qed.

Lemma alloc_insts_app l1 l2 s out s' :
  alloc_insts prog (l1 ++ l2) s = Ok (out, s') →
  ∃ out1 s1 out2, alloc_insts prog l1 s = Ok (out1, s1) ∧
    alloc_insts prog l2 s1 = Ok (out2, s') ∧ out = out1 ++ out2.
Proof.
  revert s out. induction l1 as [| i rest IH]; intros s out Heq; simpl in *.
  - eexists _, _, _. split; [done |]. split; [done |]. done.
  - destruct (alloc_action prog i s) as [[o1 s1] |]; [| done]. simpl in *.
    destruct (alloc_insts prog (rest ++ l2) s1) as [[o2 s2] |] eqn:E; [| done].
    simpl in Heq. injection Heq as <- <-.
    apply IH in E as (out1 & s1' & out2 & -> & E2 & ->). simpl.
    eexists _, _, _. split; [done |]. split; [done |]. by rewrite app_assoc.
Qed.

Lemma alloc_insts_straight l s out s' :
  alloc_insts prog l s = Ok (out, s') →
  Forall (λ j, straight j = true) out.
Proof.
  revert s out. induction l as [| i rest IH]; intros s out Heq; simpl in Heq.
  - injection Heq as <- <-. constructor.
  - destruct (alloc_action prog i s) as [[out1 s1] |] eqn:E1; [| done]. simpl in Heq.
    apply alloc_action_straight in E1.
    destruct (alloc_insts prog rest s1) as [[out2 s2] |] eqn:E2; [| done]. simpl in Heq.
    injection Heq as <- <-. apply IH in E2. by apply Forall_app.
Qed.

End PassFacts.

(** * Allocation preserves straight-line binary code *)
Section Simulation.
Import Asm Optimizer Aux.

Lemma sim_x0 s p p' : sim s p p' → env p' !! Some "x0" = Some 0.
Proof. intros H. rewrite (sim_reserved _ _ _ H) by apply x0_other. apply H. Qed.

Lemma sim_init P out : env P !! Some "x0" = Some 0 → sim init P (set_insts P out).
Proof.
  intros Hz. constructor; simpl; done.
Qed.

Lemma resident_all_usable s p p' : resident s p p' → all_usable s.
Proof. intros H k r Hk. by apply H in Hk as [? _]. Qed.

Lemma resident_empty s p p' : reg_map s = ∅ → resident s p p'.
Proof. intros H n r. by rewrite H, lookup_empty. Qed.

(** Resolving a source operand that is reserved or has been spilled: the load
    the allocator emits, if any, brings the source's value into the register
    it answers. *)
Lemma resolve_source var s r oi s' p p' v :
  get_var_name var s = (r, oi, s') →
  (size (reg_map s) < 4)%nat → sim s p p' → resident s p p' →
  var ∈ other_regs ∨ is_Some (mem_map s !! var) →
  env p !! var = Some v →
  ∃ q', run (option_list oi) p' = Ok q' ∧ mem q' = mem p' ∧
    sim s' p q' ∧ resident s' p q' ∧ env q' !! r = Some v ∧
    (size (reg_map s') ≤ S (size (reg_map s)))%nat ∧
    mem_map s' = mem_map s ∧ mem_counter s' = mem_counter s ∧
    (r ∈ other_regs ∨ r ∈ values (reg_map s')) ∧
    (∀ x, x ∈ values (reg_map s) → x ∈ values (reg_map s')) ∧
    (∀ x, x ∈ other_regs ∨ x ∈ values (reg_map s) →
          env q' !! x = env p' !! x).
Proof.
  intros Heq Hsize Hsim Hres Hsrc Hv.
  destruct (get_var_name_spec var s) as (r0 & oi0 & s0 & Heq0 & Hmm & Hmc & Hcases).
  rewrite Heq in Heq0. injection Heq0 as <- <- <-.
  destruct (next_var_name_free s Hsize) as [Hnext Hfree].
  destruct Hcases as [(Hin & -> & -> & ->) | [(Hout & Hreg & -> & ->) | (Hout & Hreg & -> & Hmap & Hoi)]].
  - exists p'. simpl. split_and!; try done; try lia.
    + by rewrite (sim_reserved _ _ _ Hsim).
    + by left.
  - exists p'. simpl. split_and!; try done; try lia.
    + destruct (Hres _ _ Hreg) as (_ & v' & Hv' & Hr). congruence.
    + right. apply values_elem. by exists var.
  - destruct Hsrc as [Hin | [addr Haddr]]; [done |].
    destruct Hoi as [[_ Hnone] | (addr' & Haddr' & ->)]; [congruence |].
    assert (addr' = addr) as -> by congruence.
    destruct (sim_spilled _ _ _ Hsim _ _ Haddr) as (Hrange & v' & Hv' & Hmem).
    assert (v' = v) as -> by congruence.
    destruct (exec_Lw_x0 p' addr (next_var_name s) v) as (q' & Hex & Henv & Hmemq);
      [by eapply sim_x0 | lia | done | by apply usable_not_x0 |].
    exists q'. split_and!; try done.
    + by apply run_single.
    + constructor.
      * intros r Hr. rewrite Henv, lookup_insert_ne; [by apply Hsim |].
        intros <-. by apply usable_not_other in Hnext.
      * apply Hsim.
      * intros n a. rewrite Hmm, Hmc, Hmemq. apply Hsim.
      * rewrite Hmc. apply Hsim.
    + intros n r. rewrite Hmap.
      intros [[<- <-] | [Hne Hn]]%lookup_insert_Some.
      * split; [done |]. exists v. split; [done |]. by rewrite Henv, lookup_insert_eq.
      * destruct (Hres _ _ Hn) as (Hu & w & Hw & Hr). split; [done |].
        exists w. split; [done |]. rewrite Henv, lookup_insert_ne; [done |].
        intros <-. apply Hfree. apply values_elem. by exists n.
    + by rewrite Henv, lookup_insert_eq.
    + rewrite Hmap, map_size_insert, Hreg. simpl. lia.
    + right. apply values_elem. exists var. by rewrite Hmap, lookup_insert_eq.
    + intros x [k Hk]%values_elem. apply values_elem. exists k.
      rewrite Hmap, lookup_insert_ne; [done |]. intros <-. congruence.
    + intros x Hx. rewrite Henv, lookup_insert_ne; [done |].
      intros <-. destruct Hx as [Hx | Hx]; [| done].
      by apply usable_not_other in Hnext.
Qed.

(** Resolving a destination that is not reserved: the register answered is a
    general-purpose one, and the load emitted (when the destination was
    spilled before) leaves every other register as it was. *)
Lemma resolve_destination var s r oi s' p p' :
  get_var_name var s = (r, oi, s') →
  (size (reg_map s) < 4)%nat → sim s p p' → resident s p p' →
  var ∉ other_regs →
  ∃ q', run (option_list oi) p' = Ok q' ∧ mem q' = mem p' ∧
    r ∈ usable_regs ∧
    mem_map s' = mem_map s ∧ mem_counter s' = mem_counter s ∧
    (q' = p' ∨ ((r ∉ values (reg_map s)) ∧
                ∀ x, x ≠ r → env q' !! x = env p' !! x)).
Proof.
  intros Heq Hsize Hsim Hres Hout.
  destruct (get_var_name_spec var s) as (r0 & oi0 & s0 & Heq0 & Hmm & Hmc & Hcases).
  rewrite Heq in Heq0. injection Heq0 as <- <- <-.
  destruct (next_var_name_free s Hsize) as [Hnext Hfree].
  destruct Hcases as [(Hin & _) | [(_ & Hreg & -> & ->) | (_ & Hreg & -> & Hmap & Hoi)]];
    [done | |].
  - exists p'. simpl. split_and!; try done; [by apply (Hres _ _ Hreg) | by left].
  - destruct Hoi as [[-> _] | (addr & Haddr & ->)].
    + exists p'. simpl. split_and!; try done. by left.
    + destruct (sim_spilled _ _ _ Hsim _ _ Haddr) as (Hrange & v & Hv & Hmem).
      destruct (exec_Lw_x0 p' addr (next_var_name s) v) as (q' & Hex & Henv & Hmemq);
        [by eapply sim_x0 | lia | done | by apply usable_not_x0 |].
      exists q'. split_and!; try done; [by apply run_single |].
      right. split; [done |]. intros x Hx. by rewrite Henv, lookup_insert_ne.
Qed.

Lemma dest_sim s rd r oi s' p p' :
  dest_choice s rd (r, oi, s') → rd ∉ other_regs →
  (size (reg_map s) < 4)%nat → sim s p p' → resident s p p' →
  ∃ q', run (option_list oi) p' = Ok q' ∧ mem q' = mem p' ∧
    r ∈ usable_regs ∧
    mem_map s' = mem_map s ∧ mem_counter s' = mem_counter s ∧
    (∀ x, x ∈ other_regs ∨ x ∈ values (reg_map s) →
          env q' !! x = env p' !! x).
Proof.
  intros [Hget | (r0 & Hr0 & [= -> -> ->])] Hrd Hsize Hsim Hres.
  - destruct (resolve_destination _ _ _ _ _ _ _ Hget Hsize Hsim Hres Hrd)
      as (q' & Hrun & Hmem & Hr & Hmm & Hmc & Hframe).
    exists q'. split_and!; try done.
    intros x Hx. destruct Hframe as [-> | [Hfree Hframe]]; [done |].
    apply Hframe. intros ->.
    destruct Hx as [Hx | Hx]; [by apply usable_not_other in Hr | done].
  - exists p'. simpl. split_and!; try done.
    apply values_elem in Hr0 as [k Hk]. by apply (Hres _ _ Hk).
Qed.

Lemma sim_after_spill s s' p q p' q' rd v :
  sim s p p' → rd ∉ other_regs →
  env q = <[rd := v]> (env p) →
  (∀ y, y ∈ other_regs → env q' !! y = env p !! y) →
  mem_counter s + 1 < Z.of_nat (length (mem p')) →
  mem q' = <[Z.to_nat (mem_counter s + 1) := v]> (mem p') →
  mem_map s' = <[rd := mem_counter s + 1]> (mem_map s) →
  mem_counter s' = mem_counter s + 1 →
  sim s' q q'.
Proof.
  intros Hsim Hrd Hq Hres Hlen Hmem Hmm Hmc.
  pose proof (sim_counter _ _ _ Hsim) as Hc.
  constructor.
  - intros r Hr. rewrite Hres by done. rewrite Hq, lookup_insert_ne; [done |].
    by intros <-.
  - rewrite Hq, lookup_insert_ne; [apply Hsim |]. intros ->. apply Hrd, x0_other.
  - intros n a. rewrite Hmm, Hmc, Hq, Hmem.
    intros [[<- <-] | [Hne Hn]]%lookup_insert_Some.
    + split; [lia |]. exists v. split; [by rewrite lookup_insert_eq |].
      apply list_lookup_insert_eq. lia.
    + destruct (sim_spilled _ _ _ Hsim _ _ Hn) as (Hrange & w & Hw & Hm).
      split; [lia |]. exists w. split; [by rewrite lookup_insert_ne |].
      rewrite list_lookup_insert_ne; [done | lia].
  - lia.
Qed.

(** The part of [alloc_binary_op] after the sources have been resolved: the
    choice of the destination, the rewritten instruction [ins] and the store
    of its result. *)
Lemma binary_tail_sim s2 s3 p q q2' rd r3 oi3 (ins : inst) v :
  sim s2 p q2' → resident s2 p q2' → (size (reg_map s2) < 4)%nat →
  rd ∉ other_regs → dest_choice s2 rd (r3, oi3, s3) →
  (r3 ∈ usable_regs →
   ∀ x, (∀ y, y ∈ other_regs ∨ y ∈ values (reg_map s2) →
              env x !! y = env q2' !! y) →
        ∃ x', exec ins x = Ok x' ∧ env x' = <[r3 := v]> (env x) ∧
              mem x' = mem x) →
  env q = <[rd := v]> (env p) →
  mem_counter s2 + 1 < Z.of_nat (length (mem q2')) →
  ∃ q5', (r3 ∉ other_regs) ∧
    run (option_list oi3 ++ [ins; Sw (Some "x0") (mem_counter s3 + 1) r3]) q2'
      = Ok q5' ∧
    length (mem q5') = length (mem q2') ∧
    ∀ s', mem_map s' = <[rd := mem_counter s3 + 1]> (mem_map s3) →
          mem_counter s' = mem_counter s3 + 1 → sim s' q q5'.
Proof.
  intros Hsim Hres Hsize Hrd Hdest Hexec Hq Hlen.
  destruct (dest_sim _ _ _ _ _ _ _ Hdest Hrd Hsize Hsim Hres)
    as (q3' & Hrun3 & Hmem3 & Hr3 & Hmm3 & Hmc3 & Hframe3).
  destruct (Hexec Hr3 q3' Hframe3) as (q4' & Hex4 & Henv4 & Hmem4).
  destruct (exec_Sw_x0 q4' (mem_counter s3 + 1) r3 v) as (q5' & Hex5 & Henv5 & Hmem5).
  { rewrite Henv4, lookup_insert_ne by (by apply usable_not_x0).
    rewrite Hframe3 by (left; apply x0_other). by eapply sim_x0. }
  { by rewrite Henv4, lookup_insert_eq. }
  { pose proof (sim_counter _ _ _ Hsim). rewrite Hmem4, Hmem3, Hmc3. lia. }
  exists q5'. split_and!.
  - by apply usable_not_other.
  - rewrite run_app, Hrun3, Ok_bind. by apply (run_two _ _ _ q4').
  - by rewrite Hmem5, length_insert, Hmem4, Hmem3.
  - intros s' Hmm Hmc. apply (sim_after_spill s2 s' p q q2' q5' rd v); try done.
    + intros y Hy. rewrite Henv5, Henv4.
      rewrite lookup_insert_ne by (intros <-; by apply usable_not_other in Hr3).
      rewrite Hframe3 by (by left). by apply Hsim.
    + by rewrite Hmem5, Hmem4, Hmem3, Hmc3.
    + by rewrite Hmm, Hmm3, Hmc3.
    + by rewrite Hmc, Hmc3.
Qed.

Lemma alloc_binary_op_sim i s p p' q :
  sound_input s i → reg_map s = ∅ → sim s p p' →
  mem_counter s + 1 < Z.of_nat (length (mem p')) →
  exec i p = Ok q →
  ∃ out s' q' rd, alloc_binary_op i s = Ok (out, s') ∧ run out p' = Ok q' ∧
    sim s' q q' ∧ reg_map s' = ∅ ∧
    mem_counter s' = mem_counter s + 1 ∧
    length (mem q') = length (mem p') ∧
    written i = Some rd ∧
    mem_map s' = <[rd := mem_counter s + 1]> (mem_map s).
Proof.
  intros Hwf Hempty Hsim Hlen Hex.
  pose proof (resident_empty s p p' Hempty) as Hres.
  assert (size (reg_map s) = 0)%nat as Hsz by (by rewrite Hempty, map_size_empty).
  destruct i as [op rd rs1 rs2 | op rd rs1 imm | | | | |]; try done.
  - destruct Hwf as (Hrd & Hs1 & Hs2).
    destruct (alloc_binary_op_empty (Bin op rd rs1 rs2) s eq_refl Hempty)
      as (out0 & s0 & E0 & Hs0 & _).
    simpl in Hex. apply bind_Ok in Hex as (a & Ha%get_val_Ok & Hex).
    apply bind_Ok in Hex as (b & Hb%get_val_Ok & Hex).
    apply bind_Ok in Hex as (v & Hv & [= <-]).
    simpl in E0 |- *.
    destruct (get_var_name rs1 s) as [[r1 oi1] s1] eqn:E1.
    destruct (resolve_source _ _ _ _ _ _ _ _ E1 ltac:(lia) Hsim Hres Hs1 Ha)
      as (q1' & Hrun1 & Hmem1 & Hsim1 & Hres1 & Hr1 & Hsz1 & Hmm1 & Hmc1 & Hin1 & Hmono1 & Hfr1).
    destruct (get_var_name rs2 s1) as [[r2 oi2] s2] eqn:E2.
    rewrite <- Hmm1 in Hs2.
    destruct (resolve_source _ _ _ _ _ _ _ _ E2 ltac:(lia) Hsim1 Hres1 Hs2 Hb)
      as (q2' & Hrun2 & Hmem2 & Hsim2 & Hres2 & Hr2 & Hsz2 & Hmm2 & Hmc2 & Hin2 & Hmono2 & Hfr2).
    set (c := if decide (r1 ∈ other_regs ∨ r2 ∈ other_regs) then get_var_name rd s2
              else (if decide (r1 ∉ other_regs) then r1 else r2, None, s2)) in *.
    assert (dest_choice s2 rd c) as Hdest.
    { unfold c. destruct (decide (r1 ∈ other_regs ∨ r2 ∈ other_regs)) as [H | H];
        [by left | right].
      assert (r1 ∉ other_regs) as Hn by tauto.
      rewrite decide_True by done. exists r1. split; [| done].
      destruct Hin1 as [? | ?]; [done | by apply Hmono2]. }
    destruct c as [[r3 oi3] s3].
    destruct (binary_tail_sim s2 s3 p (set_pc (set_val p rd v) (pc p + 1)) q2'
                rd r3 oi3 (Bin op r3 r1 r2) v Hsim2 Hres2 ltac:(lia) Hrd Hdest)
      as (q5' & Hr3 & Hrun5 & Hlen5 & Hsim5).
    { intros Hu3 x Hx. simpl. unfold Asm.get_val.
      assert (env x !! r1 = Some a) as ->.
      { rewrite Hx, Hfr2, Hr1; [done | |];
          (destruct Hin1 as [? | ?]; [by left | right]); [done | by apply Hmono2]. }
      assert (env x !! r2 = Some b) as -> by (by rewrite Hx, Hr2).
      simpl. rewrite Hv. simpl. eexists. split; [done |]. simpl.
      split; [apply env_set_val; by apply usable_not_x0 | apply mem_set_val]. }
    { simpl. apply env_set_val. by apply not_other_not_x0. }
    { rewrite Hmem2, Hmem1, Hmc2, Hmc1. done. }
    destruct (store_result_spec rd r3
                (option_list oi1 ++ option_list oi2 ++ option_list oi3 ++
                 [Bin op r3 r1 r2]) s3) as [[_ Hst] | [Hbad _]]; [| done].
    rewrite Hst in E0 |- *. injection E0 as <- <-.
    assert (mem_counter s3 = mem_counter s ∧ mem_map s3 = mem_map s) as [Hmc3 Hmm3].
    { destruct Hdest as [Hget | (r0 & _ & [= _ _ ->])].
      - destruct (get_var_name_spec rd s2) as (? & ? & ? & Heq0 & Hmm & Hmc & _).
        rewrite Hget in Heq0. injection Heq0 as <- <- <-.
        split; congruence.
      - split; congruence. }
    eexists _, _, q5', rd. split; [done |]. split_and!.
    + rewrite <- !app_assoc. rewrite run_app, Hrun1, Ok_bind.
      rewrite run_app, Hrun2, Ok_bind. simpl app. exact Hrun5.
    + apply Hsim5; done.
    + done.
    + simpl. lia.
    + by rewrite Hlen5, Hmem2, Hmem1.
    + done.
    + simpl. by rewrite Hmc3, Hmm3.
  - destruct Hwf as (Hrd & Hs1).
    destruct (alloc_binary_op_empty (BinI op rd rs1 imm) s eq_refl Hempty)
      as (out0 & s0 & E0 & Hs0 & _).
    simpl in Hex. apply bind_Ok in Hex as (a & Ha%get_val_Ok & [= <-]).
    simpl in E0 |- *.
    destruct (get_var_name rs1 s) as [[r1 oi1] s1] eqn:E1.
    destruct (resolve_source _ _ _ _ _ _ _ _ E1 ltac:(lia) Hsim Hres Hs1 Ha)
      as (q1' & Hrun1 & Hmem1 & Hsim1 & Hres1 & Hr1 & Hsz1 & Hmm1 & Hmc1 & Hin1 & Hmono1 & Hfr1).
    set (c := if decide (r1 ∈ other_regs) then get_var_name rd s1
              else (r1, None, s1)) in *.
    assert (dest_choice s1 rd c) as Hdest.
    { unfold c. destruct (decide (r1 ∈ other_regs)) as [H | H];
        [by left | right].
      exists r1. split; [| done]. by destruct Hin1. }
    destruct c as [[r3 oi3] s3].
    destruct (binary_tail_sim s1 s3 p
                (set_pc (set_val p rd (eval_immop op a imm)) (pc p + 1)) q1'
                rd r3 oi3 (BinI op r3 r1 imm) (eval_immop op a imm)
                Hsim1 Hres1 ltac:(lia) Hrd Hdest)
      as (q5' & Hr3 & Hrun5 & Hlen5 & Hsim5).
    { intros Hu3 x Hx. simpl. unfold Asm.get_val.
      assert (env x !! r1 = Some a) as -> by (by rewrite Hx, Hr1).
      simpl. eexists. split; [done |]. simpl.
      split; [apply env_set_val; by apply usable_not_x0 | apply mem_set_val]. }
    { simpl. apply env_set_val. by apply not_other_not_x0. }
    { rewrite Hmem1, Hmc1. done. }
    destruct (store_result_spec rd r3
                (option_list oi1 ++ option_list oi3 ++ [BinI op r3 r1 imm]) s3)
      as [[_ Hst] | [Hbad _]]; [| done].
    rewrite Hst in E0 |- *. injection E0 as <- <-.
    assert (mem_counter s3 = mem_counter s ∧ mem_map s3 = mem_map s) as [Hmc3 Hmm3].
    { destruct Hdest as [Hget | (r0 & _ & [= _ _ ->])].
      - destruct (get_var_name_spec rd s1) as (? & ? & ? & Heq0 & Hmm & Hmc & _).
        rewrite Hget in Heq0. injection Heq0 as <- <- <-.
        split; congruence.
      - split; congruence. }
    eexists _, _, q5', rd. split; [done |]. split_and!.
    + rewrite <- !app_assoc. rewrite run_app, Hrun1, Ok_bind.
      simpl app. exact Hrun5.
    + apply Hsim5; done.
    + done.
    + simpl. lia.
    + by rewrite Hlen5, Hmem1.
    + done.
    + simpl. by rewrite Hmc3, Hmm3.
Qed.

Lemma written_before_read_cons D i rest s :
  written_before_read D (i :: rest) = true →
  (∀ n, n ∈ D → is_Some (mem_map s !! n)) →
  ∃ rd, written i = Some rd ∧ sound_input s i ∧
    written_before_read ({[rd]} ∪ D) rest = true.
Proof.
  intros Hwf HD. destruct i as [op rd rs1 rs2 | op rd rs1 imm | | | | |];
    simpl in Hwf; try done.
  - apply andb_prop in Hwf as [Hwf Hrest]. apply andb_prop in Hwf as [Hwf H2].
    apply andb_prop in Hwf as [H0 H1].
    apply bool_decide_eq_true in H0, H1, H2.
    exists rd. split; [done |]. split; [| done]. simpl. split_and!; [done | |].
    + destruct H1 as [? | ?]; [by left | right; by apply HD].
    + destruct H2 as [? | ?]; [by left | right; by apply HD].
  - apply andb_prop in Hwf as [Hwf Hrest]. apply andb_prop in Hwf as [H0 H1].
    apply bool_decide_eq_true in H0, H1.
    exists rd. split; [done |]. split; [| done]. simpl. split; [done |].
    destruct H1 as [? | ?]; [by left | right; by apply HD].
Qed.

Lemma written_before_read_straight D l :
  written_before_read D l = true → Forall (λ i, straight i = true) l.
Proof.
  revert D. induction l as [| i rest IH]; intros D H; [constructor |].
  destruct i; simpl in H; try done; repeat (apply andb_prop in H as [H ?]);
    (constructor; [done | by eapply IH]).
Qed.

Lemma written_names_cons i rest rd :
  written i = Some rd → written_names (i :: rest) = rd :: written_names rest.
Proof. intros H. unfold written_names. simpl. by rewrite H. Qed.

Lemma alloc_insts_sim prog l : ∀ D s p p' q,
  written_before_read D l = true →
  (∀ n, n ∈ D → is_Some (mem_map s !! n)) →
  reg_map s = ∅ → sim s p p' →
  mem_counter s + Z.of_nat (length l) < Z.of_nat (length (mem p')) →
  run l p = Ok q →
  ∃ out s' q', alloc_insts prog l s = Ok (out, s') ∧ run out p' = Ok q' ∧
    sim s' q q' ∧ reg_map s' = ∅ ∧
    (∀ n, n ∈ D ∨ n ∈ written_names l → is_Some (mem_map s' !! n)).
Proof.
  induction l as [| i rest IH]; intros D s p p' q Hwf HD Hempty Hsim Hlen Hrun.
  - simpl in Hrun. injection Hrun as <-. exists [], s, p'. simpl.
    split_and!; try done. intros n [Hn | Hn]; [by apply HD | by apply elem_of_nil in Hn].
  - destruct (written_before_read_cons D i rest s Hwf HD) as (rd & Hwr & Hsound & Hrest).
    cbn [run] in Hrun. apply bind_Ok in Hrun as (q1 & Hex & Hrun).
    simpl length in Hlen.
    destruct (alloc_binary_op_sim i s p p' q1 Hsound Hempty Hsim ltac:(lia) Hex)
      as (out1 & s1 & q1' & rd' & E1 & Hrun1 & Hsim1 & Hempty1 & Hmc1 & Hlen1 & Hwr' & Hmm1).
    assert (rd' = rd) as -> by congruence.
    assert (alloc_action prog i s = Ok (out1, s1)) as Hact.
    { destruct i; try done. }
    destruct (IH ({[rd]} ∪ D) s1 q1 q1' q Hrest) as (out2 & s2 & q2' & E2 & Hrun2 & Hsim2 & Hempty2 & Hdom2);
      try done.
    { intros n [->%elem_of_singleton | Hn]%elem_of_union; rewrite Hmm1.
      - rewrite lookup_insert_eq. by eexists.
      - destruct (decide (rd = n)) as [-> | Hne].
        + rewrite lookup_insert_eq. by eexists.
        + rewrite lookup_insert_ne by done. by apply HD. }
    { rewrite Hlen1, Hmc1. lia. }
    exists (out1 ++ out2), s2, q2'. split_and!; try done.
    + cbn [alloc_insts]. rewrite Hact, Ok_bind. rewrite E2. done.
    + by rewrite run_app, Hrun1, Ok_bind.
    + intros n Hn. apply Hdom2. rewrite (written_names_cons _ _ _ Hwr) in Hn.
      destruct Hn as [Hn | [-> | Hn]%elem_of_cons].
      * left. apply elem_of_union. by right.
      * left. apply elem_of_union. left. by apply elem_of_singleton.
      * by right.
Qed.

End Simulation.

(** * Facts about the code generator *)
Section GeneratorFacts.
Import Expression Visitor Aux.

Lemma get_current_scope w g prog :
  _get_current_var_name w g prog =
    match scope_of g w with
    | [] => match Asm.env prog !! Some w with
            | Some _ => Ok w
            | None => Err UnboundVariable
            end
    | _ :: _ => Ok (List.last (scope_of g w) w)
    end.
Proof.
  unfold _get_current_var_name, scope_of, Asm.get_val.
  destruct (var_scope g !! w) as [[| x l] |]; simpl; try done;
    by destruct (Asm.env prog !! Some w).
Qed.

Lemma same_scope_refl g prog : same_scope g g prog prog.
Proof. by split. Qed.

Lemma same_scope_trans g1 g2 g3 p1 p2 p3 :
  same_scope g1 g2 p1 p2 → same_scope g2 g3 p2 p3 → same_scope g1 g3 p1 p3.
Proof.
  intros [H1 E1] [H2 E2]. split; [| congruence].
  intros w. by rewrite H2, H1.
Qed.

Lemma generate_scope identifier g :
  ∀ w, scope_of (_generate_unique_name identifier g).2 w =
       if decide (identifier = w)
       then scope_of g w ++ [(_generate_unique_name identifier g).1]
       else scope_of g w.
Proof.
  intros w. unfold scope_of at 1. simpl. destruct (decide (identifier = w)) as [<- | Hne].
  - by rewrite lookup_insert_eq.
  - by rewrite lookup_insert_ne.
Qed.

Lemma pop_scope identifier g :
  ∀ w, scope_of (_pop_variable identifier g) w =
       if decide (identifier = w) then removelast (scope_of g w)
       else scope_of g w.
Proof.
  intros w. unfold _pop_variable, scope_of.
  destruct (var_scope g !! identifier) as [[| x l] |] eqn:Hid; simpl.
  - destruct (decide (identifier = w)) as [<- | Hne]; [by rewrite Hid | done].
  - destruct (decide (identifier = w)) as [<- | Hne].
    + by rewrite lookup_insert_eq, Hid.
    + by rewrite lookup_insert_ne.
  - destruct (decide (identifier = w)) as [<- | Hne]; [by rewrite Hid | done].
Qed.

Ltac visit_step H :=
  let E := fresh "E" in
  apply bind_Ok in H as ([[? ?] ?] & E & H).

(** A visit leaves every scope stack and the environment as it found them. *)
Lemma visit_scope e : ∀ g prog r g' prog',
  visit e g prog = Ok (r, g', prog') → same_scope g g' prog prog'.
Proof.
  induction e as [identifier | bln | num | l IHl r0 IHr | l IHl r0 IHr
                 | l IHl r0 IHr | l IHl r0 IHr | l IHl r0 IHr | l IHl r0 IHr
                 | l IHl r0 IHr | e IHe | e IHe | identifier d IHd b IHb];
    intros g prog r g' prog' H; simpl in H.
  - apply bind_Ok in H as (x & _ & [= <- <- <-]). apply same_scope_refl.
  - destruct bln; unfold emit in H; simpl in H; injection H as <- <- <-; by split.
  - unfold emit in H; simpl in H; injection H as <- <- <-; by split.
  - visit_step H. visit_step H. unfold emit in H. simpl in H. injection H as <- <- <-.
    eapply same_scope_trans; [by eapply IHl |].
    eapply same_scope_trans; [by eapply IHr |]. by split.
  - visit_step H. visit_step H. unfold emit in H. simpl in H. injection H as <- <- <-.
    eapply same_scope_trans; [by eapply IHl |].
    eapply same_scope_trans; [by eapply IHr |]. by split.
  - visit_step H. visit_step H. unfold emit in H. simpl in H. injection H as <- <- <-.
    eapply same_scope_trans; [by eapply IHl |].
    eapply same_scope_trans; [by eapply IHr |]. by split.
  - visit_step H. visit_step H. unfold emit in H. simpl in H. injection H as <- <- <-.
    eapply same_scope_trans; [by eapply IHl |].
    eapply same_scope_trans; [by eapply IHr |]. by split.
  - visit_step H. visit_step H. unfold emit in H. simpl in H. injection H as <- <- <-.
    eapply same_scope_trans; [by eapply IHl |].
    eapply same_scope_trans; [by eapply IHr |]. by split.
  - visit_step H. visit_step H. unfold emit in H. simpl in H. injection H as <- <- <-.
    eapply same_scope_trans; [by eapply IHl |].
    eapply same_scope_trans; [by eapply IHr |]. by split.
  - visit_step H. visit_step H. unfold emit in H. simpl in H. injection H as <- <- <-.
    eapply same_scope_trans; [by eapply IHl |].
    eapply same_scope_trans; [by eapply IHr |]. by split.
  - visit_step H. unfold emit in H. simpl in H. injection H as <- <- <-.
    eapply same_scope_trans; [by eapply IHe |]. by split.
  - visit_step H. unfold emit in H. simpl in H. injection H as <- <- <-.
    eapply same_scope_trans; [by eapply IHe |]. by split.
  - visit_step H. visit_step H. injection H as <- <- <-.
    apply IHd in E as [Hd Ed]. apply IHb in E0 as [Hb Eb].
    split; [| by rewrite Eb; simpl].
    intros w. rewrite pop_scope, Hb.
    pose proof (generate_scope identifier g0 w) as Hg. simpl in Hg. rewrite Hg.
    destruct (decide (identifier = w)); [| apply Hd].
    rewrite removelast_last. apply Hd.
Qed.

End GeneratorFacts.

(** * The allocator: statements about the specification *)
Section AllocatorClaims.
Import Asm Optimizer Aux.

(** ** Register choice *)

(** C10: when a general-purpose register is needed, [next_var_name] scans
    a1, a2, a3, a0 in this order and answers the first one that is no value of
    [reg_map]; on an empty [reg_map] it answers a1; and [get_var_name] binds
    the operand that is neither reserved nor resident to that register. *)
Theorem next_var_name_priority (s : RegAllocator) :
  usable_regs = [Some "a1"; Some "a2"; Some "a3"; Some "a0"] ∧
  ((∃ r, r ∈ usable_regs ∧ (r ∉ values (reg_map s))) →
     ∃ pre post, usable_regs = pre ++ next_var_name s :: post ∧
       (next_var_name s ∉ values (reg_map s)) ∧
       Forall (λ q, q ∈ values (reg_map s)) pre) ∧
  (reg_map s = ∅ → next_var_name s = Some "a1") ∧
  (∀ var, (var ∉ other_regs) → reg_map s !! var = None →
     (get_var_name var s).1.1 = next_var_name s ∧
     reg_map (get_var_name var s).2 = <[var := next_var_name s]> (reg_map s)).
Proof.
  split; [done |]. split; [| split].
  - intros (r & Hr & Hfree). unfold next_var_name.
    destruct (first_free_spec usable_regs (reg_map s)) as [H | [_ Hall]]; [done |].
    rewrite Forall_forall in Hall. by destruct Hfree; apply Hall.
  - intros Hempty. unfold next_var_name. rewrite Hempty. reflexivity.
  - intros var Hres Hnone. unfold get_var_name.
    destruct (decide (var ∈ other_regs)); [done |]. rewrite Hnone.
    by destruct (mem_map s !! var).
Qed.

Lemma next_var_name_priority_witness :
  next_var_name init = Some "a1".
Proof.
  apply (proj1 (proj2 (proj2 (next_var_name_priority init)))).
  reflexivity.
Defined.

(** ** Result spill *)

(** C3, as stated, fails on a load: the rewritten destination a1 is not
    reserved, yet no store is emitted, [mem_map] gets no entry and the
    destination stays in [reg_map]. *)
Lemma load_not_spilled :
  alloc_load (Lw (Some "sp") 0 (Some "b")) init =
    Ok ([Lw (Some "sp") 0 (Some "a1")],
        {| reg_map := {[Some "b" := Some "a1"]}; mem_map := ∅;
           mem_counter := -1 |}) ∧
  (Some "a1" ∉ other_regs).
Proof. split; [vm_compute; reflexivity | by apply (bool_decide_unpack _)]. Qed.

(** C3 (amended): a binary or binary-immediate instruction whose rewritten
    destination is not reserved is followed at once by a store of the
    destination register at the address [mem_counter + 1], which becomes the
    new [mem_counter] and the [mem_map] entry of the destination name, and
    the destination name leaves [reg_map]; a reserved destination is not
    stored.  A load is not stored: [alloc_load] emits loads only and leaves
    [mem_map] and [mem_counter] as they were. *)
Theorem binary_result_spilled :
  (∀ i s out s', is_binary i = true → alloc_binary_op i s = Ok (out, s') →
     ∃ loads rewritten rd new_rd,
       written i = Some rd ∧ written rewritten = Some new_rd ∧
       is_binary rewritten = true ∧ Forall is_x0_load loads ∧
       if decide (new_rd ∈ other_regs)
       then out = loads ++ [rewritten] ∧
            mem_map s' = mem_map s ∧ mem_counter s' = mem_counter s
       else out = loads ++ [rewritten;
                            Sw (Some "x0") (mem_counter s + 1) new_rd] ∧
            mem_counter s' = mem_counter s + 1 ∧
            mem_map s' = <[rd := mem_counter s + 1]> (mem_map s) ∧
            reg_map s' !! rd = None) ∧
  (∀ i s out s', alloc_load i s = Ok (out, s') →
     Forall (λ j, ∃ rs1 offset reg, j = Lw rs1 offset reg) out ∧
     mem_map s' = mem_map s ∧ mem_counter s' = mem_counter s).
Proof.
  split.
  - intros i s out s' Hbin Heq.
    destruct i as [op rd rs1 rs2 | op rd rs1 imm | | | | |]; try done; simpl in Heq.
    + destruct (get_var_name rs1 s) as [[r1 oi1] s1] eqn:E1.
      apply get_var_name_load in E1 as (L1 & M1 & C1).
      destruct (get_var_name rs2 s1) as [[r2 oi2] s2] eqn:E2.
      apply get_var_name_load in E2 as (L2 & M2 & C2).
      destruct (if decide (r1 ∈ other_regs ∨ r2 ∈ other_regs) then _ else _)
        as [[r3 oi3] s3] eqn:E3.
      assert (Forall is_x0_load (option_list oi3) ∧
              mem_map s3 = mem_map s2 ∧ mem_counter s3 = mem_counter s2)
        as (L3 & M3 & C3).
      { destruct (decide (r1 ∈ other_regs ∨ r2 ∈ other_regs)).
        - by apply get_var_name_load in E3.
        - injection E3 as <- <- <-. split; [constructor | done]. }
      exists (option_list oi1 ++ option_list oi2 ++ option_list oi3),
        (Bin op r3 r1 r2), rd, r3.
      split_and!; [done | done | done | by rewrite !Forall_app |].
      destruct (store_result_spec rd r3
                  (option_list oi1 ++ option_list oi2 ++ option_list oi3 ++
                   [Bin op r3 r1 r2]) s3) as [[Hn Hst] | [Hr Hst]];
        rewrite Hst in Heq; injection Heq as <- <-.
      * rewrite decide_False by done. simpl. split_and!.
        -- rewrite <- ?app_assoc. simpl. by rewrite C3, C2, C1.
        -- congruence.
        -- congruence.
        -- destruct (decide (rs2 = rd)) as [-> | ?]; [apply lookup_delete_eq |].
           rewrite lookup_delete_ne by done.
           destruct (decide (rs1 = rd)) as [-> | ?]; [apply lookup_delete_eq |].
           rewrite lookup_delete_ne by done. apply lookup_delete_eq.
      * rewrite decide_True by done. simpl. split_and!.
        -- by rewrite <- ?app_assoc.
        -- congruence.
        -- congruence.
    + destruct (get_var_name rs1 s) as [[r1 oi1] s1] eqn:E1.
      apply get_var_name_load in E1 as (L1 & M1 & C1).
      destruct (if decide (r1 ∈ other_regs) then _ else _)
        as [[r3 oi3] s3] eqn:E3.
      assert (Forall is_x0_load (option_list oi3) ∧
              mem_map s3 = mem_map s1 ∧ mem_counter s3 = mem_counter s1)
        as (L3 & M3 & C3).
      { destruct (decide (r1 ∈ other_regs)).
        - by apply get_var_name_load in E3.
        - injection E3 as <- <- <-. split; [constructor | done]. }
      exists (option_list oi1 ++ option_list oi3), (BinI op r3 r1 imm), rd, r3.
      split_and!; [done | done | done | by rewrite !Forall_app |].
      destruct (store_result_spec rd r3
                  (option_list oi1 ++ option_list oi3 ++ [BinI op r3 r1 imm]) s3)
        as [[Hn Hst] | [Hr Hst]];
        rewrite Hst in Heq; injection Heq as <- <-.
      * rewrite decide_False by done. simpl. split_and!.
        -- rewrite <- ?app_assoc. simpl. by rewrite C3, C1.
        -- congruence.
        -- congruence.
        -- destruct (decide (rs1 = rd)) as [-> | ?]; [apply lookup_delete_eq |].
           rewrite lookup_delete_ne by done. apply lookup_delete_eq.
      * rewrite decide_True by done. simpl. split_and!.
        -- by rewrite <- ?app_assoc.
        -- congruence.
        -- congruence.
  - intros i s out s' Heq. destruct i as [| | rs1 off reg | | | |]; try done.
    simpl in Heq.
    destruct (get_var_name reg s) as [[r1 oi1] s1] eqn:E1.
    apply get_var_name_load in E1 as (L1 & M1 & C1).
    destruct (get_var_name rs1 s1) as [[r2 oi2] s2] eqn:E2.
    apply get_var_name_load in E2 as (L2 & M2 & C2).
    injection Heq as <- <-. simpl. split_and!; [| congruence | congruence].
    rewrite !Forall_app. split_and!.
    + eapply Forall_impl; [exact L1 |]. intros j (a & r & ->). by eexists _, _, _.
    + eapply Forall_impl; [exact L2 |]. intros j (a & r & ->). by eexists _, _, _.
    + constructor; [by eexists _, _, _ | constructor].
Qed.

Lemma binary_result_spilled_witness :
  Forall (λ j, ∃ rs1 offset reg, j = Lw rs1 offset reg)
    [Lw (Some "sp") 0 (Some "a1")] ∧
  mem_map {| reg_map := {[Some "b" := Some "a1"]}; mem_map := ∅;
             mem_counter := -1 |} = mem_map init ∧
  mem_counter {| reg_map := {[Some "b" := Some "a1"]}; mem_map := ∅;
                 mem_counter := -1 |} = mem_counter init.
Proof.
  apply (proj2 binary_result_spilled (Lw (Some "sp") 0 (Some "b")) init).
  vm_compute. reflexivity.
Defined.

(** ** Destination selection *)

(** C4, as stated, fails when the second source is reserved: the first
    source resolves to a1, which is not reserved, yet the destination is a2. *)
Lemma rd_not_reusing_rs1 :
  alloc_binary_op (Add (Some "c") (Some "a") (Some "x0")) init =
    Ok ([Add (Some "a2") (Some "a1") (Some "x0");
         Sw (Some "x0") 0 (Some "a2")],
        {| reg_map := ∅; mem_map := {[Some "c" := 0]}; mem_counter := 0 |}) ∧
  (get_var_name (Some "a") init).1.1 = Some "a1" ∧
  (Some "a1" ∉ other_regs).
Proof.
  split_and!; [vm_compute; reflexivity | vm_compute; reflexivity |].
  by apply (bool_decide_unpack _).
Qed.

(** C4 (amended): the rewritten destination of a binary instruction is the
    first source's register only when neither resolved source is reserved
    (for an immediate form: when the first source is not reserved);
    otherwise the destination name is resolved like an operand: itself when
    reserved, its register when resident, the next free register otherwise.
    The second source's register is never chosen as such. *)
Theorem destination_selection (i : inst) (s s' : RegAllocator) (out : list inst) :
  alloc_binary_op i s = Ok (out, s') →
  match i with
  | Bin op rd rs1 rs2 =>
      ∃ new_rs1 inst1 s1 new_rs2 inst2 s2 new_rd,
        get_var_name rs1 s = (new_rs1, inst1, s1) ∧
        get_var_name rs2 s1 = (new_rs2, inst2, s2) ∧
        Bin op new_rd new_rs1 new_rs2 ∈ out ∧
        new_rd = if decide (new_rs1 ∈ other_regs ∨ new_rs2 ∈ other_regs)
                 then operand_register rd s2 else new_rs1
  | BinI op rd rs1 imm =>
      ∃ new_rs1 inst1 s1 new_rd,
        get_var_name rs1 s = (new_rs1, inst1, s1) ∧
        BinI op new_rd new_rs1 imm ∈ out ∧
        new_rd = if decide (new_rs1 ∈ other_regs)
                 then operand_register rd s1 else new_rs1
  | _ => False
  end.
Proof.
  intros Heq. destruct i as [op rd rs1 rs2 | op rd rs1 imm | | | | |];
    simpl in Heq; try done.
  - destruct (get_var_name rs1 s) as [[r1 oi1] s1] eqn:E1.
    destruct (get_var_name rs2 s1) as [[r2 oi2] s2] eqn:E2.
    destruct (if decide (r1 ∈ other_regs ∨ r2 ∈ other_regs) then _ else _)
      as [[r3 oi3] s3] eqn:E3.
    exists r1, oi1, s1, r2, oi2, s2, r3. split_and!; [done | done | |].
    + destruct (store_result_spec rd r3
                  (option_list oi1 ++ option_list oi2 ++ option_list oi3 ++
                   [Bin op r3 r1 r2]) s3) as [[_ Hst] | [_ Hst]];
        rewrite Hst in Heq; injection Heq as <- <-;
        rewrite ?elem_of_app, ?list_elem_of_singleton; tauto.
    + destruct (decide (r1 ∈ other_regs ∨ r2 ∈ other_regs)) as [H | H].
      * rewrite <- get_var_name_register. by rewrite E3.
      * assert (r1 ∉ other_regs) as Hn by tauto.
        rewrite decide_True in E3 by done. by injection E3.
  - destruct (get_var_name rs1 s) as [[r1 oi1] s1] eqn:E1.
    destruct (if decide (r1 ∈ other_regs) then _ else _)
      as [[r3 oi3] s3] eqn:E3.
    exists r1, oi1, s1, r3. split_and!; [done | |].
    + destruct (store_result_spec rd r3
                  (option_list oi1 ++ option_list oi3 ++ [BinI op r3 r1 imm]) s3)
        as [[_ Hst] | [_ Hst]];
        rewrite Hst in Heq; injection Heq as <- <-;
        rewrite ?elem_of_app, ?list_elem_of_singleton; tauto.
    + destruct (decide (r1 ∈ other_regs)) as [H | H].
      * rewrite <- get_var_name_register. by rewrite E3.
      * by injection E3.
Qed.

Lemma destination_selection_witness :
  ∃ new_rs1 inst1 s1 new_rd,
    get_var_name (Some "b") init = (new_rs1, inst1, s1) ∧
    Slti new_rd new_rs1 2 ∈
      [Slti (Some "a1") (Some "a1") 2; Sw (Some "x0") 0 (Some "a1")] ∧
    new_rd = if decide (new_rs1 ∈ other_regs)
             then operand_register (Some "c") s1 else new_rs1.
Proof.
  apply (destination_selection (Slti (Some "c") (Some "b") 2) init
           {| reg_map := ∅; mem_map := {[Some "c" := 0]}; mem_counter := 0 |}).
  vm_compute. reflexivity.
Defined.

(** ** Register exhaustion *)

(** C5, as stated, fails on loads: each of the first four loads leaves its
    destination in [reg_map], so the fifth asks for a register when a1, a2,
    a3 and a0 are all taken, and [next_var_name] answers [None]. *)
Lemma five_loads_exhaust :
  Forall (λ i, allocatable i = true) five_loads ∧
  ∃ pre i post out s var st,
    five_loads = pre ++ i :: post ∧
    alloc_insts (new_Program 1000 ∅ five_loads) pre init = Ok (out, s) ∧
    (var, st) ∈ requests i s ∧ needs_register var st ∧
    Forall (λ r, r ∈ values (reg_map st)) usable_regs ∧
    next_var_name st = None.
Proof.
  split; [by repeat constructor |].
  exists (take 4 five_loads), (Lw (Some "x0") 0 (Some "e")), [].
  eexists _, _, (Some "e"), _. split; [reflexivity |].
  split; [vm_compute; reflexivity |].
  split; [vm_compute; left |].
  split; [split; [by apply (bool_decide_unpack _) | vm_compute; reflexivity] |].
  split; [| vm_compute; reflexivity].
  apply (bool_decide_unpack _). vm_compute. exact I.
Qed.

(** C5 (amended): in a pass over binary and binary-immediate instructions
    only (no load, no store), [reg_map] is empty whenever an instruction is
    taken up, the pass completes, and at every call of [get_var_name] the
    register [next_var_name] would answer is a general-purpose register that
    is not occupied. *)
Theorem binary_pass_never_exhausts (prog : Program) (l : list inst) :
  Forall (λ i, is_binary i = true) l →
  (∃ out s, alloc_insts prog l init = Ok (out, s) ∧ reg_map s = ∅) ∧
  ∀ pre i post, l = pre ++ i :: post →
    ∃ out s, alloc_insts prog pre init = Ok (out, s) ∧ reg_map s = ∅ ∧
      ∀ var st, (var, st) ∈ requests i s →
        next_var_name st ∈ usable_regs ∧
        (next_var_name st ∉ values (reg_map st)).
Proof.
  intros Hall. split.
  - destruct (alloc_insts_binary prog l init Hall eq_refl) as (out & s & H & He & _).
    by exists out, s.
  - intros pre i post ->. apply Forall_app in Hall as [Hpre Hrest].
    apply Forall_cons in Hrest as [Hi _].
    destruct (alloc_insts_binary prog pre init Hpre eq_refl) as (out & s & H & He & _).
    exists out, s. split_and!; [done | done |].
    destruct (alloc_binary_op_empty i s Hi He) as (_ & _ & _ & _ & _ & Hreq).
    intros var st Hin. apply next_var_name_free.
    specialize (Hreq var st Hin). lia.
Qed.

Lemma binary_pass_never_exhausts_witness :
  ∃ out s, alloc_insts (new_Program 3 ∅ three_adds) three_adds init
             = Ok (out, s) ∧ reg_map s = ∅.
Proof.
  apply (binary_pass_never_exhausts (new_Program 3 ∅ three_adds) three_adds).
  repeat constructor.
Defined.

(** ** Physical-register closure *)

(** C6 fails on the five loads: the pass completes and its last instruction
    has [None] for destination, which is none of the seven physical names,
    where [optimize] is to use the registers x0, sp, ra and a0 to a3 only. *)
Lemma five_loads_emit_none :
  Forall (λ i, allocatable i = true) five_loads ∧
  ∃ prog' s,
    optimize (new_Program 1000 ∅ five_loads) = Ok (prog', s) ∧
    Lw (Some "x0") 0 None ∈ insts prog' ∧
    ¬ operands_in physical (insts prog').
Proof.
  split; [by repeat constructor |].
  eexists _, _. split; [vm_compute; reflexivity |]. split.
  - do 4 apply list_elem_of_further. apply list_elem_of_here.
  - intros H. do 4 apply Forall_cons in H as [_ H].
    apply Forall_cons in H as [H _]. simpl in H.
    apply Forall_cons in H as [_ H]. apply Forall_cons in H as [H _].
    revert H. unfold physical. apply (bool_decide_unpack _).
    vm_compute. exact I.
Qed.

(** X24: when the pass completes, every register operand of the output is
    one of the seven physical names or the [None] that [next_var_name]
    answers when all four general-purpose registers are taken, so no name of
    the input remains; when the input has binary and binary-immediate
    instructions only, every operand is one of the seven physical names. *)
Theorem allocated_operands_closed (prog prog' : Program) (s : RegAllocator) :
  optimize prog = Ok (prog', s) →
  operands_in physical_or_none (insts prog') ∧
  (Forall (λ i, is_binary i = true) (insts prog) →
   operands_in physical (insts prog')).
Proof.
  unfold optimize, get_insts. intros H.
  apply bind_Ok in H as ([out s0] & Halloc & [= <- <-]). simpl. split.
  - apply (alloc_insts_ok prog _ _ _ _ Halloc).
    intros k r. simpl. by rewrite lookup_empty.
  - intros Hbin.
    destruct (alloc_insts_binary prog _ init Hbin eq_refl) as (out' & s' & H & _ & Hphys).
    rewrite Halloc in H. by injection H as <- <-.
Qed.

Lemma allocated_operands_closed_witness :
  operands_in physical_or_none
    [Lw (Some "x0") 0 (Some "a1"); Lw (Some "x0") 0 (Some "a2");
     Lw (Some "x0") 0 (Some "a3"); Lw (Some "x0") 0 (Some "a0");
     Lw (Some "x0") 0 None].
Proof.
  apply (allocated_operands_closed (new_Program 1000 ∅ five_loads)
           (new_Program 1000 ∅
              [Lw (Some "x0") 0 (Some "a1"); Lw (Some "x0") 0 (Some "a2");
               Lw (Some "x0") 0 (Some "a3"); Lw (Some "x0") 0 (Some "a0");
               Lw (Some "x0") 0 None])
           {| reg_map := {[Some "a" := Some "a1"; Some "b" := Some "a2";
                           Some "c" := Some "a3"; Some "d" := Some "a0";
                           Some "e" := None]};
              mem_map := ∅; mem_counter := -1 |}).
  vm_compute. reflexivity.
Defined.

(** ** Allocation and the meaning of programs *)

(** C2, as stated, fails on a program that stores by itself: run as it is,
    the program leaves 7 in [d]; allocated, it reads 9 where the allocator's
    final maps place [d], because the spill of [b] overwrote the cell the
    program had stored to. *)
Lemma spill_clash_differs :
  ∃ Q P' s Q',
    eval 5 (new_Program 1000 ∅ spill_clash) = Ok Q ∧
    optimize (new_Program 1000 ∅ spill_clash) = Ok (P', s) ∧
    eval 9 P' = Ok Q' ∧
    Asm.get_val Q (Some "d") = Ok 7 ∧
    Optimizer.get_val s Q' (Some "d") = Ok 9.
Proof.
  eexists _, _, _, _.
  split; [vm_compute; reflexivity |]. split; [vm_compute; reflexivity |].
  split; [vm_compute; reflexivity |]. split; vm_compute; reflexivity.
Qed.

(** C2 (amended): let P be made of binary and binary-immediate instructions
    only, none with a reserved destination, each source being a reserved
    register or a name written by an earlier instruction; let P start at
    its first instruction with 0 in x0 and have at least as many memory cells
    as instructions.  If P runs to completion, then the pass completes, the
    allocated program runs to completion, every name n written by P has,
    after the run of P, the value that [RegAllocator.get_val] reads for n
    after the run of the allocated program, and the reserved registers hold
    the same values in both. *)
Theorem allocation_preserves_straight_line (P Q : Program) :
  pc P = 0 →
  env P !! Some "x0" = Some 0 →
  written_before_read ∅ (insts P) = true →
  (length (insts P) ≤ length (mem P))%nat →
  eval (length (insts P)) P = Ok Q →
  ∃ P' s Q',
    optimize P = Ok (P', s) ∧
    eval (length (insts P')) P' = Ok Q' ∧
    (∀ n, n ∈ written_names (insts P) →
       ∃ v, Asm.get_val Q n = Ok v ∧ Optimizer.get_val s Q' n = Ok v) ∧
    (∀ r, r ∈ other_regs → Asm.get_val Q' r = Asm.get_val Q r).
Proof.
  intros Hpc Hz Hwf Hlen Hev.
  rewrite (eval_run (insts P) P [] _ eq_refl Hpc
             (written_before_read_straight _ _ Hwf) (le_n _)) in Hev.
  assert (∀ n : name, n ∈ (∅ : gset name) → is_Some (mem_map init !! n)) as HD
    by (intros n Hn; by apply not_elem_of_empty in Hn).
  assert (mem_counter init + Z.of_nat (length (insts P)) <
          Z.of_nat (length (mem P))) as Hbudget by (simpl; lia).
  destruct (alloc_insts_sim P (insts P) ∅ init P (set_insts P []) Q
              Hwf HD eq_refl (sim_init P [] Hz) Hbudget Hev)
    as (out & s0 & _ & Halloc & _).
  destruct (alloc_insts_sim P (insts P) ∅ init P (set_insts P out) Q
              Hwf HD eq_refl (sim_init P out Hz) Hbudget Hev)
    as (out' & s & Q' & Halloc' & Hrun & Hsim & Hempty & Hdom).
  rewrite Halloc in Halloc'. injection Halloc' as <- <-.
  exists (set_insts P out), s0, Q'. split_and!.
  - unfold optimize, get_insts. by rewrite Halloc.
  - change (insts (set_insts P out)) with out.
    rewrite (eval_run out (set_insts P out) [] _ eq_refl Hpc
               (alloc_insts_straight _ _ _ _ _ Halloc) (le_n _)). done.
  - intros n Hn. destruct (Hdom n (or_intror Hn)) as [a Ha].
    destruct (sim_spilled _ _ _ Hsim _ _ Ha) as (Hrange & v & Hv & Hm).
    exists v. split; [by apply get_val_Ok |].
    unfold Optimizer.get_val. rewrite Hempty, lookup_empty, Ha.
    unfold get_mem. rewrite decide_True by lia. by rewrite Hm.
  - intros r Hr. unfold Asm.get_val. by rewrite (sim_reserved _ _ _ Hsim).
Qed.

Lemma allocation_preserves_straight_line_witness :
  ∃ P' s Q',
    optimize (new_Program 3 ∅ three_adds) = Ok (P', s) ∧
    eval (length (insts P')) P' = Ok Q' ∧
    (∀ n, n ∈ written_names (insts (new_Program 3 ∅ three_adds)) →
       ∃ v, Asm.get_val (final_state 3 (new_Program 3 ∅ three_adds)) n = Ok v ∧
            Optimizer.get_val s Q' n = Ok v) ∧
    (∀ r, r ∈ other_regs →
       Asm.get_val Q' r =
       Asm.get_val (final_state 3 (new_Program 3 ∅ three_adds)) r).
Proof.
  apply (allocation_preserves_straight_line
           (new_Program 3 ∅ three_adds)
           (final_state 3 (new_Program 3 ∅ three_adds))).
  - reflexivity.
  - reflexivity.
  - vm_compute. reflexivity.
  - simpl. lia.
  - vm_compute. reflexivity.
Defined.

End AllocatorClaims.

(** * The generator: statements about the specification *)
Section GeneratorClaims.
Import Expression Visitor Aux.

(** ** Logical not *)


(** ** Fresh names *)

(** C7 fails on two sibling [let]s of one identifier: the name [x_0] minted
    for the first binding is minted again for the second, so two
    instructions of the generated stream write it. *)
Theorem sibling_lets_two_producers :
  ∃ g prog,
    visit sibling_lets init (Asm.new_Program 0 ∅ []) =
      Ok (Some "v3", g, prog) ∧
    Asm.insts prog =
      [Asm.Addi (Some "v1") (Some "x0") 1;
       Asm.Addi (Some "x_0") (Some "v1") 0;
       Asm.Addi (Some "v2") (Some "x0") 2;
       Asm.Addi (Some "x_0") (Some "v2") 0;
       Asm.Add (Some "v3") (Some "x_0") (Some "x_0")] ∧
    ¬ NoDup (written_names (Asm.insts prog)).
Proof.
  eexists _, _. split; [vm_compute; reflexivity |]. split; [reflexivity |].
  simpl. intros H. apply NoDup_cons in H as [_ H].
  apply NoDup_cons in H as [H _]. apply H. do 2 constructor.
Qed.

(** ** Semantic round trip *)

(** The examples listed with C1 do hold. *)
Lemma round_trip_examples :
  Driver.generate_allocate_eval 1000 100 (Add (Num 3) (Num 4)) = Ok 7 ∧
  Driver.generate_allocate_eval 1000 100 (Div (Num 28) (Num 4)) = Ok 7 ∧
  Driver.generate_allocate_eval 1000 100 (Eql (Num 13) (Num 13)) = Ok 1 ∧
  Driver.generate_allocate_eval 1000 100 (Eql (Num 13) (Num 10)) = Ok 0 ∧
  Driver.generate_allocate_eval 1000 100 (Leq (Num (-3)) (Num (-3))) = Ok 1 ∧
  Driver.generate_allocate_eval 1000 100 (Lth (Num (-2)) (Num (-3))) = Ok 0 ∧
  Driver.generate_allocate_eval 1000 100 (Not (Num 0)) = Ok 1 ∧
  Driver.generate_allocate_eval 1000 100 (Not (Num (-2))) = Ok 0.
Proof. repeat split; vm_compute; reflexivity. Qed.

(** C1 fails on the two sibling [let]s: the tree means 1 + 2 = 3, the
    generated code computes 4, before and after register allocation,
    because both operands of the addition are the name [x_0], which the
    second binding has overwritten. *)
Theorem sibling_lets_wrong :
  Driver.interp sibling_lets ∅ = Some 3 ∧
  Driver.generate_eval 1000 5 sibling_lets = Ok 4 ∧
  Driver.generate_allocate_eval 1000 13 sibling_lets = Ok 4.
Proof. split; [| split]; vm_compute; reflexivity. Qed.

End GeneratorClaims.

(** * The allocator: further properties of the code *)
Section AllocatorCoverage.
Import Asm Optimizer Aux Shape.

(** How one instruction changes the spill bookkeeping: not at all, or by
    one fresh address for the destination of a binary instruction, or by
    the address a store computes. *)
Lemma alloc_action_spills prog i s out s' :
  alloc_action prog i s = Ok (out, s') →
  out ≠ [] ∧
  ((mem_map s' = mem_map s ∧ mem_counter s' = mem_counter s) ∨
   (∃ rd, is_binary i = true ∧ written i = Some rd ∧
      mem_map s' = <[rd := mem_counter s + 1]> (mem_map s) ∧
      mem_counter s' = mem_counter s + 1) ∨
   (∃ reg a, is_store i = true ∧
      mem_map s' = <[reg := a]> (mem_map s) ∧
      mem_counter s' = mem_counter s)).
Proof.
  intros Heq. destruct i as [op rd rs1 rs2 | op rd rs1 imm | rs1 off reg | rs1 off reg | | |];
    simpl in Heq; try done.
  - destruct (get_var_name rs1 s) as [[r1 oi1] s1] eqn:E1.
    apply get_var_name_load in E1 as (_ & M1 & C1).
    destruct (get_var_name rs2 s1) as [[r2 oi2] s2] eqn:E2.
    apply get_var_name_load in E2 as (_ & M2 & C2).
    destruct (if decide (r1 ∈ other_regs ∨ r2 ∈ other_regs) then _ else _)
      as [[r3 oi3] s3] eqn:E3.
    assert (mem_map s3 = mem_map s2 ∧ mem_counter s3 = mem_counter s2)
      as (M3 & C3).
    { destruct (decide (r1 ∈ other_regs ∨ r2 ∈ other_regs)).
      - by apply get_var_name_load in E3 as (_ & ? & ?).
      - by injection E3 as <- <- <-. }
    destruct (store_result_spec rd r3
                (option_list oi1 ++ option_list oi2 ++ option_list oi3 ++
                 [Bin op r3 r1 r2]) s3) as [[_ Hst] | [_ Hst]];
      rewrite Hst in Heq; injection Heq as <- <-; simpl.
    + split; [intros H; by repeat apply app_eq_nil in H as [_ H] |].
      right; left. exists rd. split_and!; [done | done | congruence | congruence].
    + split; [intros H; by repeat apply app_eq_nil in H as [_ H] |].
      left. split; congruence.
  - destruct (get_var_name rs1 s) as [[r1 oi1] s1] eqn:E1.
    apply get_var_name_load in E1 as (_ & M1 & C1).
    destruct (if decide (r1 ∈ other_regs) then _ else _)
      as [[r3 oi3] s3] eqn:E3.
    assert (mem_map s3 = mem_map s1 ∧ mem_counter s3 = mem_counter s1)
      as (M3 & C3).
    { destruct (decide (r1 ∈ other_regs)).
      - by apply get_var_name_load in E3 as (_ & ? & ?).
      - by injection E3 as <- <- <-. }
    destruct (store_result_spec rd r3
                (option_list oi1 ++ option_list oi3 ++ [BinI op r3 r1 imm]) s3)
      as [[_ Hst] | [_ Hst]];
      rewrite Hst in Heq; injection Heq as <- <-; simpl.
    + split; [intros H; by repeat apply app_eq_nil in H as [_ H] |].
      right; left. exists rd. split_and!; [done | done | congruence | congruence].
    + split; [intros H; by repeat apply app_eq_nil in H as [_ H] |].
      left. split; congruence.
  - destruct (get_var_name reg s) as [[r1 oi1] s1] eqn:E1.
    apply get_var_name_load in E1 as (_ & M1 & C1).
    destruct (get_var_name rs1 s1) as [[r2 oi2] s2] eqn:E2.
    apply get_var_name_load in E2 as (_ & M2 & C2).
    injection Heq as <- <-. simpl.
    split; [intros H; by repeat apply app_eq_nil in H as [_ H] |].
    left. split; congruence.
  - destruct (get_var_name reg s) as [[r1 oi1] s1] eqn:E1.
    apply get_var_name_load in E1 as (_ & M1 & C1).
    destruct (get_var_name rs1 s1) as [[r2 oi2] s2] eqn:E2.
    apply get_var_name_load in E2 as (_ & M2 & C2).
    destruct (Asm.get_val prog r2) as [base |]; [| done]. simpl in Heq.
    injection Heq as <- <-. simpl.
    split; [intros H; by repeat apply app_eq_nil in H as [_ H] |].
    right; right. exists reg, (base + off). split_and!; [done | congruence | congruence].
Qed.

(** X5: over any part of a pass that completes, the output has at least as
    many instructions as the input, [mem_counter] never decreases and grows
    by at most one per input instruction, and a name that has a spill
    address keeps having one. *)
Theorem pass_keeps_spills (prog : Program) (l out : list inst)
    (s s' : RegAllocator) :
  alloc_insts prog l s = Ok (out, s') →
  (length l ≤ length out)%nat ∧
  mem_counter s ≤ mem_counter s' ≤ mem_counter s + Z.of_nat (length l) ∧
  ∀ n, is_Some (mem_map s !! n) → is_Some (mem_map s' !! n).
Proof.
  revert s out s'.
  induction l as [| i rest IH]; intros s out s' Heq; simpl in Heq.
  - injection Heq as <- <-. simpl. split_and!; [done | lia | lia | done].
  - destruct (alloc_action prog i s) as [[out1 s1] |] eqn:E1; [| done]. simpl in Heq.
    destruct (alloc_insts prog rest s1) as [[out2 s2] |] eqn:E2; [| done]. simpl in Heq.
    injection Heq as <- <-.
    apply alloc_action_spills in E1 as (Hne & Hcases).
    apply IH in E2 as (Hlen & Hmc & Hdom).
    assert (mem_counter s ≤ mem_counter s1 ≤ mem_counter s + 1 ∧
            ∀ n, is_Some (mem_map s !! n) → is_Some (mem_map s1 !! n))
      as (Hmc1 & Hdom1).
    { destruct Hcases as [(-> & ->) | [(rd & _ & _ & -> & ->) | (reg & a & _ & -> & ->)]].
      - split; [lia | done].
      - split; [lia |]. intros n Hn. destruct (decide (rd = n)) as [-> | ?].
        + rewrite lookup_insert_eq. by eexists.
        + by rewrite lookup_insert_ne.
      - split; [lia |]. intros n Hn. destruct (decide (reg = n)) as [-> | ?].
        + rewrite lookup_insert_eq. by eexists.
        + by rewrite lookup_insert_ne. }
    rewrite length_app. simpl length. split_and!.
    + destruct out1; [done | simpl; lia].
    + lia.
    + lia.
    + intros n Hn. by apply Hdom, Hdom1.
Qed.

Lemma pass_keeps_spills_witness :
  (length three_adds ≤ length three_adds_allocated)%nat ∧
  mem_counter init ≤ mem_counter three_adds_state
    ≤ mem_counter init + Z.of_nat (length three_adds) ∧
  ∀ n, is_Some (mem_map init !! n) → is_Some (mem_map three_adds_state !! n).
Proof.
  apply (pass_keeps_spills (new_Program 3 ∅ three_adds) three_adds
           three_adds_allocated init three_adds_state).
  vm_compute. reflexivity.
Defined.

(** X6: a pass over binary and binary-immediate instructions keeps the
    spill addresses apart: if every address of [mem_map] lies between 0 and
    [mem_counter] and no two names share an address before, the same holds
    after.  (With stores in the program it does not: [alloc_store] records
    any address.) *)
Theorem spill_addresses_distinct (prog : Program) (l out : list inst)
    (s s' : RegAllocator) :
  Forall (λ i, is_binary i = true) l →
  alloc_insts prog l s = Ok (out, s') →
  spills_distinct s → spills_distinct s'.
Proof.
  revert s out s'.
  induction l as [| i rest IH]; intros s out s' Hl Heq Hs; simpl in Heq.
  - by injection Heq as <- <-.
  - apply Forall_cons in Hl as [Hi Hl].
    destruct (alloc_action prog i s) as [[out1 s1] |] eqn:E1; [| done]. simpl in Heq.
    destruct (alloc_insts prog rest s1) as [[out2 s2] |] eqn:E2; [| done]. simpl in Heq.
    injection Heq as <- <-.
    apply (IH s1 out2 s2 Hl E2).
    apply alloc_action_spills in E1 as (_ & Hcases).
    destruct Hs as (Hc & Hrange & Hinj).
    destruct Hcases as [(Hm & Hmc) | [(rd & _ & _ & Hm & Hmc) | (reg & a & Hst & _)]].
    + unfold spills_distinct. rewrite Hm, Hmc. done.
    + unfold spills_distinct. rewrite Hm, Hmc. split_and!; [lia | |].
      * intros n a [[_ <-] | [_ Hn]]%lookup_insert_Some; [lia |].
        apply Hrange in Hn. lia.
      * intros n1 n2 a [[<- <-] | [Hne1 Hn1]]%lookup_insert_Some
                      [[<- Ha] | [Hne2 Hn2]]%lookup_insert_Some; try done.
        -- apply Hrange in Hn2. lia.
        -- apply Hrange in Hn1. lia.
        -- by eapply Hinj.
    + destruct i; done.
Qed.

Lemma spill_addresses_distinct_witness : spills_distinct three_adds_state.
Proof.
  apply (spill_addresses_distinct (new_Program 3 ∅ three_adds) three_adds
           three_adds_allocated init).
  - repeat constructor.
  - vm_compute. reflexivity.
  - split_and!; [simpl; lia | intros n a; simpl; by rewrite lookup_empty
                | intros n1 n2 a; simpl; by rewrite lookup_empty].
Defined.

Lemma next_var_name_not_value s (r : string) :
  next_var_name s = Some r → Some r ∉ values (reg_map s).
Proof.
  unfold next_var_name. intros Heq.
  destruct (first_free_spec usable_regs (reg_map s))
    as [(_ & _ & _ & Hfree & _) | [Hnone _]]; congruence.
Qed.

Lemma get_var_name_injective var s r oi s' :
  get_var_name var s = (r, oi, s') → reg_injective s → reg_injective s'.
Proof.
  intros Heq Hinj.
  destruct (get_var_name_spec var s) as (r0 & oi0 & s0 & Heq0 & _ & _ & Hcases).
  rewrite Heq in Heq0. injection Heq0 as <- <- <-.
  destruct Hcases as [(_ & _ & _ & ->) | [(_ & _ & _ & ->) | (_ & _ & -> & Hmap & _)]];
    [done | done |].
  intros k1 k2 r0. rewrite Hmap.
  intros [[<- H1] | [Hne1 H1]]%lookup_insert_Some
         [[<- H2] | [Hne2 H2]]%lookup_insert_Some; try done.
  - apply next_var_name_not_value in H1. destruct H1.
    apply values_elem. by exists k2.
  - apply next_var_name_not_value in H2. destruct H2.
    apply values_elem. by exists k1.
  - by eapply Hinj.
Qed.

Lemma cleanup_maps_injective var s :
  reg_injective s → reg_injective (cleanup_maps var s).
Proof.
  intros Hinj k1 k2 r. simpl.
  intros [_ H1]%lookup_delete_Some [_ H2]%lookup_delete_Some. by eapply Hinj.
Qed.

Lemma store_result_injective rd new_rd insts s out s' :
  store_result rd new_rd insts s = (out, s') →
  reg_injective s → reg_injective s'.
Proof.
  intros Heq Hinj.
  destruct (store_result_spec rd new_rd insts s) as [[_ H] | [_ H]];
    rewrite Heq in H; injection H as -> ->; [| done].
  intros k1 k2 r. simpl.
  intros [_ H1]%lookup_delete_Some [_ H2]%lookup_delete_Some. by eapply Hinj.
Qed.

Lemma alloc_action_injective prog i s out s' :
  alloc_action prog i s = Ok (out, s') → reg_injective s → reg_injective s'.
Proof.
  intros Heq Hinj.
  destruct i as [op rd rs1 rs2 | op rd rs1 imm | rs1 off reg | rs1 off reg | | |];
    simpl in Heq; try done.
  - destruct (get_var_name rs1 s) as [[r1 oi1] s1] eqn:E1.
    apply get_var_name_injective in E1; [| done].
    destruct (get_var_name rs2 s1) as [[r2 oi2] s2] eqn:E2.
    apply get_var_name_injective in E2; [| done].
    destruct (if decide (r1 ∈ other_regs ∨ r2 ∈ other_regs) then _ else _)
      as [[r3 oi3] s3] eqn:E3.
    assert (reg_injective s3) as I3.
    { destruct (decide (r1 ∈ other_regs ∨ r2 ∈ other_regs)).
      - by apply get_var_name_injective in E3.
      - by injection E3 as <- <- <-. }
    destruct (store_result rd r3 _ s3) as [out4 s4] eqn:E4.
    apply store_result_injective in E4; [| done].
    injection Heq as <- <-. by do 2 apply cleanup_maps_injective.
  - destruct (get_var_name rs1 s) as [[r1 oi1] s1] eqn:E1.
    apply get_var_name_injective in E1; [| done].
    destruct (if decide (r1 ∈ other_regs) then _ else _)
      as [[r3 oi3] s3] eqn:E3.
    assert (reg_injective s3) as I3.
    { destruct (decide (r1 ∈ other_regs)).
      - by apply get_var_name_injective in E3.
      - by injection E3 as <- <- <-. }
    destruct (store_result rd r3 _ s3) as [out4 s4] eqn:E4.
    apply store_result_injective in E4; [| done].
    injection Heq as <- <-. by apply cleanup_maps_injective.
  - destruct (get_var_name reg s) as [[r1 oi1] s1] eqn:E1.
    apply get_var_name_injective in E1; [| done].
    destruct (get_var_name rs1 s1) as [[r2 oi2] s2] eqn:E2.
    apply get_var_name_injective in E2; [| done].
    injection Heq as <- <-. by apply cleanup_maps_injective.
  - destruct (get_var_name reg s) as [[r1 oi1] s1] eqn:E1.
    apply get_var_name_injective in E1; [| done].
    destruct (get_var_name rs1 s1) as [[r2 oi2] s2] eqn:E2.
    apply get_var_name_injective in E2; [| done].
    destruct (Asm.get_val prog r2) as [base |]; [| done]. simpl in Heq.
    injection Heq as <- <-.
    intros k1 k2 r. simpl.
    intros [_ H1]%lookup_delete_Some [_ H2]%lookup_delete_Some. by eapply E2.
Qed.

Lemma alloc_action_total prog i s :
  allocatable i = true → is_store i = false →
  ∃ out s', alloc_action prog i s = Ok (out, s').
Proof.
  intros Ha Hs. destruct i as [op rd rs1 rs2 | op rd rs1 imm | rs1 off reg | | | |];
    try done; simpl.
  - destruct (get_var_name rs1 s) as [[r1 oi1] s1].
    destruct (get_var_name rs2 s1) as [[r2 oi2] s2].
    destruct (if decide (r1 ∈ other_regs ∨ r2 ∈ other_regs) then _ else _)
      as [[r3 oi3] s3].
    destruct (store_result rd r3 _ s3) as [out4 s4]. by eexists _, _.
  - destruct (get_var_name rs1 s) as [[r1 oi1] s1].
    destruct (if decide (r1 ∈ other_regs) then _ else _) as [[r3 oi3] s3].
    destruct (store_result rd r3 _ s3) as [out4 s4]. by eexists _, _.
  - destruct (get_var_name reg s) as [[r1 oi1] s1].
    destruct (get_var_name rs1 s1) as [[r2 oi2] s2]. by eexists _, _.
Qed.

Lemma alloc_insts_allocatable prog l : ∀ s out s',
  alloc_insts prog l s = Ok (out, s') →
  Forall (λ i, allocatable i = true) l.
Proof.
  induction l as [| i rest IH]; intros s out s' Heq; [constructor |].
  simpl in Heq.
  destruct (alloc_action prog i s) as [[out1 s1] |] eqn:E1; [| done]. simpl in Heq.
  destruct (alloc_insts prog rest s1) as [[out2 s2] |] eqn:E2; [| done].
  constructor; [| by eapply IH]. destruct i; try done; simpl in E1; done.
Qed.

Lemma alloc_insts_total prog l : ∀ s,
  Forall (λ i, allocatable i = true ∧ is_store i = false) l →
  ∃ out s', alloc_insts prog l s = Ok (out, s').
Proof.
  induction l as [| i rest IH]; intros s Hall; [by eexists _, _ |].
  apply Forall_cons in Hall as [[Ha Hs] Hall]. simpl.
  destruct (alloc_action_total prog i s Ha Hs) as (out1 & s1 & ->). simpl.
  destruct (IH s1 Hall) as (out2 & s2 & ->). simpl. by eexists _, _.
Qed.

(** X4: a pass never lets two names share a general-purpose register: if no
    register is held by two names of [reg_map] before, none is after. *)
Theorem registers_never_shared (prog : Program) (l out : list inst)
    (s s' : RegAllocator) :
  alloc_insts prog l s = Ok (out, s') →
  reg_injective s → reg_injective s'.
Proof.
  revert s out. induction l as [| i rest IH]; intros s out Heq Hinj; simpl in Heq.
  - by injection Heq as <- <-.
  - destruct (alloc_action prog i s) as [[out1 s1] |] eqn:E1; [| done]. simpl in Heq.
    destruct (alloc_insts prog rest s1) as [[out2 s2] |] eqn:E2; [| done]. simpl in Heq.
    injection Heq as <- <-. apply (IH s1 out2 E2).
    by eapply alloc_action_injective.
Qed.

Lemma registers_never_shared_witness :
  reg_injective init ∧
  reg_injective
    {| reg_map := {[Some "a" := Some "a1"; Some "b" := Some "a2"]};
       mem_map := ∅; mem_counter := -1 |}.
Proof.
  assert (reg_injective init) as Hinit.
  { intros k1 k2 r. simpl. by rewrite lookup_empty. }
  split; [done |].
  apply (registers_never_shared (new_Program 4 ∅ [])
           [Lw (Some "sp") 0 (Some "a"); Lw (Some "sp") (-1) (Some "b")]
           [Lw (Some "sp") 0 (Some "a1"); Lw (Some "sp") (-1) (Some "a2")]
           init); [| done].
  vm_compute. reflexivity.
Defined.

(** X3: an operand resolved a second time gets the register of the first
    time, with no load and no change of the allocator: an instruction that
    reads a name twice loads it once. *)
Theorem get_var_name_stable (var r : name) (oi : option inst)
    (s s' : RegAllocator) :
  get_var_name var s = (r, oi, s') →
  get_var_name var s' = (r, None, s').
Proof.
  intros Heq.
  destruct (get_var_name_spec var s) as (r0 & oi0 & s0 & Heq0 & _ & _ & Hcases).
  rewrite Heq in Heq0. injection Heq0 as <- <- <-.
  destruct Hcases as [(Hin & -> & _ & ->) | [(Hout & Hreg & _ & ->) | (Hout & _ & -> & Hmap & _)]];
    unfold get_var_name.
  - by rewrite decide_True.
  - rewrite decide_False by done. by rewrite Hreg.
  - rewrite decide_False by done. by rewrite Hmap, lookup_insert_eq.
Qed.

Lemma get_var_name_stable_witness :
  get_var_name (Some "a")
    {| reg_map := {[Some "a" := Some "a1"]};
       mem_map := {[Some "a" := 0]}; mem_counter := 0 |} =
  (Some "a1", None,
   {| reg_map := {[Some "a" := Some "a1"]};
      mem_map := {[Some "a" := 0]}; mem_counter := 0 |}).
Proof.
  apply (get_var_name_stable (Some "a") (Some "a1")
           (Some (Lw (Some "x0") 0 (Some "a1")))
           {| reg_map := ∅; mem_map := {[Some "a" := 0]}; mem_counter := 0 |}).
  vm_compute. reflexivity.
Defined.

(** X1: [optimize] completes only on programs without jal, jalr and beq
    (these opcodes have no entry in [alloc_action], although the docstring
    shows such programs), and it completes on every program made of binary,
    binary-immediate and load instructions. *)
Theorem optimize_domain (prog : Program) :
  (∀ prog' s, optimize prog = Ok (prog', s) →
     Forall (λ i, allocatable i = true) (insts prog)) ∧
  (Forall (λ i, allocatable i = true ∧ is_store i = false) (insts prog) →
   ∃ prog' s, optimize prog = Ok (prog', s)).
Proof.
  unfold optimize, get_insts. split.
  - intros prog' s H. apply bind_Ok in H as ([out s0] & Halloc & _).
    by eapply alloc_insts_allocatable.
  - intros Hall.
    destruct (alloc_insts_total prog (insts prog) init Hall) as (out & s & ->).
    simpl. by eexists _, _.
Qed.

Lemma optimize_domain_witness :
  ∃ prog' s, optimize (new_Program 3 ∅ three_adds) = Ok (prog', s).
Proof.
  apply (proj2 (optimize_domain (new_Program 3 ∅ three_adds))).
  repeat constructor.
Defined.

(** The allocation of code without stores never reads the program. *)
Lemma alloc_insts_static prog prog' l : ∀ s,
  Forall (λ i, is_store i = false) l →
  alloc_insts prog l s = alloc_insts prog' l s.
Proof.
  induction l as [| i rest IH]; intros s Hl; [done |].
  apply Forall_cons in Hl as [Hi Hl]. cbn [alloc_insts].
  assert (alloc_action prog i s = alloc_action prog' i s) as -> by (by destruct i).
  destruct (alloc_action prog' i s) as [[out1 s1] |]; [| done].
  rewrite !Ok_bind. cbn beta iota. by rewrite (IH s1 Hl).
Qed.

(** X9: on programs without stores the pass reads nothing but the
    instruction list: two programs with the same instructions get the same
    allocated instructions and the same final allocator, or fail alike,
    whatever their environment, memory and program counter. *)
Theorem allocation_ignores_state (prog prog' : Program) :
  insts prog' = insts prog →
  Forall (λ i, is_store i = false) (insts prog) →
  (∀ p s, optimize prog = Ok (p, s) →
     ∃ p', optimize prog' = Ok (p', s) ∧ insts p' = insts p) ∧
  (∀ e, optimize prog = Err e → optimize prog' = Err e).
Proof.
  intros Hi Hl. unfold optimize, get_insts. rewrite Hi.
  rewrite (alloc_insts_static prog prog' _ init Hl).
  destruct (alloc_insts prog' (insts prog) init) as [[out s] |]; simpl.
  - split; [| done]. intros p s0 [= <- <-]. by eexists.
  - split; [done |]. by intros e0 [= <-].
Qed.

Lemma allocation_ignores_state_witness :
  ∃ p', optimize (new_Program 0 {[Some "a" := 1]} three_adds) =
          Ok (p', three_adds_state) ∧
        insts p' = three_adds_allocated.
Proof.
  apply (proj1 (allocation_ignores_state (new_Program 3 ∅ three_adds)
                  (new_Program 0 {[Some "a" := 1]} three_adds)
                  eq_refl ltac:(repeat constructor))
           (set_insts (new_Program 3 ∅ three_adds) three_adds_allocated)
           three_adds_state).
  vm_compute. reflexivity.
Defined.

(** X8: a load leaves its destination in its register: after [alloc_load]
    of a load into a name that is neither reserved nor the base, the name is
    bound in [reg_map] to the destination register of the emitted load,
    which is the last instruction emitted, and resolving the name again
    answers that register without a load. *)
Theorem load_keeps_destination (rs1 reg : name) (offset : Z)
    (s s' : RegAllocator) (out : list inst) :
  alloc_load (Lw rs1 offset reg) s = Ok (out, s') →
  (reg ∉ other_regs) → reg ≠ rs1 →
  ∃ new_rs1 new_reg,
    last out = Some (Lw new_rs1 offset new_reg) ∧
    reg_map s' !! reg = Some new_reg ∧
    get_var_name reg s' = (new_reg, None, s').
Proof.
  intros Heq Hout Hne. unfold alloc_load in Heq.
  destruct (get_var_name_spec reg s) as (r1 & oi1 & s1 & E1 & _ & _ & Hc1).
  rewrite E1 in Heq.
  destruct (get_var_name_spec rs1 s1) as (r2 & oi2 & s2 & E2 & _ & _ & Hc2).
  rewrite E2 in Heq. injection Heq as <- <-.
  assert (reg_map s1 !! reg = Some r1) as H1.
  { destruct Hc1 as [(? & _) | [(_ & ? & _ & ->) | (_ & _ & _ & -> & _)]];
      [done | done | by rewrite lookup_insert_eq]. }
  assert (reg_map s2 !! reg = Some r1) as H2.
  { destruct Hc2 as [(_ & _ & _ & ->) | [(_ & _ & _ & ->) | (_ & _ & _ & -> & _)]];
      [done | done | by rewrite lookup_insert_ne]. }
  assert (reg_map (cleanup_maps rs1 s2) !! reg = Some r1) as H3.
  { simpl. by rewrite lookup_delete_ne. }
  exists r2, r1. split_and!.
  - by rewrite !app_assoc, last_snoc.
  - done.
  - unfold get_var_name. rewrite decide_False by done. by rewrite H3.
Qed.

Lemma load_keeps_destination_witness :
  ∃ new_rs1 new_reg,
    last [Lw (Some "sp") 0 (Some "a1")] = Some (Lw new_rs1 0 new_reg) ∧
    reg_map {| reg_map := {[Some "b" := Some "a1"]}; mem_map := ∅;
               mem_counter := -1 |} !! Some "b" = Some new_reg ∧
    get_var_name (Some "b")
      {| reg_map := {[Some "b" := Some "a1"]}; mem_map := ∅;
         mem_counter := -1 |} =
      (new_reg, None,
       {| reg_map := {[Some "b" := Some "a1"]}; mem_map := ∅;
          mem_counter := -1 |}).
Proof.
  apply (load_keeps_destination (Some "sp") (Some "b") 0 init).
  - vm_compute. reflexivity.
  - by apply (bool_decide_unpack _).
  - done.
Defined.

(** X7: [alloc_store] with a reserved base that the program's environment
    binds completes, records as the address of the stored name the base
    value read in that environment while the allocator runs plus the offset,
    and takes the stored name out of [reg_map]; with a base that is not
    reserved it fails whenever that environment binds no general-purpose
    register and not [None], as in every program that has not run. *)
Theorem alloc_store_base (prog : Program) (rs1 reg : name) (offset : Z)
    (s : RegAllocator) :
  (rs1 ∈ other_regs → ∀ base, env prog !! rs1 = Some base →
     ∃ out s', alloc_store prog (Sw rs1 offset reg) s = Ok (out, s') ∧
       mem_map s' !! reg = Some (base + offset) ∧
       reg_map s' !! reg = None ∧
       mem_counter s' = mem_counter s) ∧
  ((rs1 ∉ other_regs) → regs_ok s →
   (∀ r, r ∈ usable_regs → env prog !! r = None) →
   env prog !! None = None →
   alloc_store prog (Sw rs1 offset reg) s = Err MachineFault).
Proof.
  split.
  - intros Hin base Hbase. unfold alloc_store.
    destruct (get_var_name reg s) as [[r1 oi1] s1] eqn:E1.
    apply get_var_name_load in E1 as (_ & M1 & C1).
    unfold get_var_name at 1. rewrite decide_True by done.
    unfold Asm.get_val. rewrite Hbase. simpl.
    eexists _, _. split; [done |]. simpl.
    by rewrite lookup_insert_eq, lookup_delete_eq.
  - intros Hout Hok Hfree Hnone. unfold alloc_store.
    destruct (get_var_name reg s) as [[r1 oi1] s1] eqn:E1.
    apply get_var_name_ok in E1 as (_ & Hok1 & _); [| done].
    destruct (get_var_name_spec rs1 s1) as (r2 & oi2 & s2 & E2 & _ & _ & Hcases).
    rewrite E2.
    assert (r2 ∈ usable_regs ∨ r2 = None) as Hr2.
    { destruct Hcases as [(? & _) | [(_ & Hreg & _) | (_ & _ & -> & _)]];
        [done | by eapply Hok1 | apply next_var_name_cases]. }
    unfold Asm.get_val.
    destruct Hr2 as [Hr2 | ->]; [by rewrite (Hfree _ Hr2) | by rewrite Hnone].
Qed.

Lemma alloc_store_base_witness :
  alloc_store (new_Program 10 ∅ []) (Sw (Some "p") 0 (Some "a")) init =
    Err MachineFault.
Proof.
  apply (proj2 (alloc_store_base (new_Program 10 ∅ []) (Some "p") (Some "a")
                  0 init)).
  - by apply (bool_decide_unpack _).
  - intros k r. simpl. by rewrite lookup_empty.
  - intros r Hr. unfold usable_regs in Hr.
    rewrite !elem_of_cons, elem_of_nil in Hr. by destruct_or!; subst.
  - reflexivity.
Defined.

(** X2: [next_var_name] answers [None] exactly when a1, a2, a3 and a0 are
    all values of [reg_map]. *)
Theorem next_var_name_exhausted (s : RegAllocator) :
  next_var_name s = None ↔
  Forall (λ r, r ∈ values (reg_map s)) usable_regs.
Proof.
  unfold next_var_name. split.
  - intros Hnone.
    destruct (first_free_spec usable_regs (reg_map s))
      as [(pre & post & Heq & _) | [_ Hall]]; [| done].
    rewrite Hnone in Heq. exfalso.
    assert (None ∈ usable_regs) as Hin.
    { rewrite Heq, elem_of_app, elem_of_cons. tauto. }
    unfold usable_regs in Hin. rewrite !elem_of_cons, elem_of_nil in Hin.
    by destruct_or!.
  - intros Hall.
    destruct (first_free_spec usable_regs (reg_map s))
      as [(pre & post & Heq & Hfree & _) | [Hnone _]]; [| done].
    destruct Hfree. rewrite Forall_forall in Hall. apply Hall.
    rewrite Heq at 2. rewrite elem_of_app, elem_of_cons. tauto.
Qed.

Lemma next_var_name_exhausted_witness :
  next_var_name
    {| reg_map := {[Some "a" := Some "a1"; Some "b" := Some "a2";
                    Some "c" := Some "a3"; Some "d" := Some "a0"]};
       mem_map := ∅; mem_counter := -1 |} = None.
Proof.
  apply (proj2 (next_var_name_exhausted _)).
  apply (bool_decide_unpack _). vm_compute. exact I.
Defined.

End AllocatorCoverage.

(** * The generator: further properties of the code *)
Section GeneratorCoverage.
Import Expression Visitor Aux Shape.

Lemma counter_name_inj k k' : counter_name k = counter_name k' → k = k'.
Proof.
  unfold counter_name. intros [= H]. by apply (inj pretty).
Qed.

Lemma counter_name_not_other k : counter_name k ∉ Optimizer.other_regs.
Proof.
  unfold counter_name, Optimizer.other_regs.
  rewrite !not_elem_of_cons. split_and!; try discriminate. apply not_elem_of_nil.
Qed.

Lemma counter_name_not_x0 k : counter_name k ≠ Some "x0".
Proof. discriminate. Qed.

Lemma written_names_app l1 l2 :
  written_names (l1 ++ l2) = written_names l1 ++ written_names l2.
Proof. apply omap_app. Qed.

(** Binary code changes no memory cell, never the zero register, and only
    the names it writes. *)
Lemma run_binary_frame l : ∀ p q,
  Forall (λ i, is_binary i = true) l → run l p = Ok q →
  Asm.mem q = Asm.mem p ∧
  Asm.env q !! Some "x0" = Asm.env p !! Some "x0" ∧
  ∀ n, n ∉ written_names l → Asm.env q !! n = Asm.env p !! n.
Proof.
  induction l as [| i rest IH]; intros p q Hb Hrun.
  - simpl in Hrun. by injection Hrun as <-.
  - apply Forall_cons in Hb as [Hi Hb]. cbn [run] in Hrun.
    apply bind_Ok in Hrun as (p1 & Hex & Hrun).
    destruct (IH p1 q Hb Hrun) as (Hm & Hz & Hn).
    assert (∃ rd v, Asm.written i = Some rd ∧
              p1 = Asm.set_pc (Asm.set_val p rd v) (Asm.pc p + 1))
      as (rd & v & Hw & ->).
    { destruct i; try done; simpl in Hex.
      - apply bind_Ok in Hex as (a & _ & Hex). apply bind_Ok in Hex as (b & _ & Hex).
        apply bind_Ok in Hex as (v & _ & Hex). injection Hex as <-. by eexists _, _.
      - apply bind_Ok in Hex as (a & _ & Hex). injection Hex as <-. by eexists _, _. }
    rewrite (written_names_cons _ _ _ Hw). simpl in *.
    rewrite Hm, Hz, mem_set_val. split_and!; [done | |].
    + unfold Asm.set_val. case_decide as Hrd; [done |]. simpl.
      by rewrite lookup_insert_ne.
    + intros n [Hne Hin]%not_elem_of_cons. rewrite (Hn n Hin).
      unfold Asm.set_val. case_decide; [done |]. simpl.
      by rewrite lookup_insert_ne.
Qed.

Lemma exec_Bin_env op rd rs1 rs2 p a b v :
  Asm.env p !! rs1 = Some a → Asm.env p !! rs2 = Some b →
  Asm.eval_binop op a b = Ok v → rd ≠ Some "x0" →
  ∃ q, Asm.exec (Asm.Bin op rd rs1 rs2) p = Ok q ∧
       Asm.env q = <[rd := v]> (Asm.env p).
Proof.
  intros H1 H2 Hv Hrd. simpl. unfold Asm.get_val. rewrite H1, H2. simpl.
  rewrite Hv. simpl. eexists. split; [done |]. simpl. by rewrite env_set_val.
Qed.

Lemma exec_BinI_env op rd rs1 imm p a :
  Asm.env p !! rs1 = Some a → rd ≠ Some "x0" →
  ∃ q, Asm.exec (Asm.BinI op rd rs1 imm) p = Ok q ∧
       Asm.env q = <[rd := Asm.eval_immop op a imm]> (Asm.env p).
Proof.
  intros H1 Hrd. simpl. unfold Asm.get_val. rewrite H1. simpl.
  eexists. split; [done |]. simpl. by rewrite env_set_val.
Qed.

Lemma written_before_read_mono l : ∀ D D',
  written_before_read D l = true → (∀ n, n ∈ D → n ∈ D') →
  written_before_read D' l = true.
Proof.
  induction l as [| i rest IH]; intros D D' H Hsub; [done |].
  destruct i as [op rd rs1 rs2 | op rd rs1 imm | | | | |]; simpl in *; try done.
  - apply andb_prop in H as [H Hrest]. apply andb_prop in H as [H H2].
    apply andb_prop in H as [H0 H1].
    apply bool_decide_eq_true in H1, H2.
    rewrite H0. simpl. rewrite !bool_decide_eq_true_2; simpl.
    + apply (IH _ _ Hrest). intros n [Hn | Hn]%elem_of_union;
        apply elem_of_union; [by left | right; by apply Hsub].
    + destruct H2; [by left | right; by apply Hsub].
    + destruct H1; [by left | right; by apply Hsub].
  - apply andb_prop in H as [H Hrest]. apply andb_prop in H as [H0 H1].
    apply bool_decide_eq_true in H1.
    rewrite H0. simpl. rewrite !bool_decide_eq_true_2; simpl.
    + apply (IH _ _ Hrest). intros n [Hn | Hn]%elem_of_union;
        apply elem_of_union; [by left | right; by apply Hsub].
    + destruct H1; [by left | right; by apply Hsub].
Qed.

Lemma written_before_read_app l1 : ∀ D D' l2,
  written_before_read D l1 = true → written_before_read D' l2 = true →
  (∀ n, n ∈ D' → n ∈ D ∨ n ∈ written_names l1) →
  written_before_read D (l1 ++ l2) = true.
Proof.
  induction l1 as [| i rest IH]; intros D D' l2 H1 H2 Hsub.
  - simpl. apply (written_before_read_mono _ _ _ H2).
    intros n Hn. destruct (Hsub n Hn) as [? | Hin]; [done |].
    by apply elem_of_nil in Hin.
  - destruct i as [op rd rs1 rs2 | op rd rs1 imm | | | | |]; simpl in *; try done.
    + apply andb_prop in H1 as [H1 Hrest]. rewrite H1. simpl.
      apply (IH _ D' _ Hrest H2). intros n Hn.
      destruct (Hsub n Hn) as [? | Hin].
      * left. apply elem_of_union. by right.
      * unfold written_names in Hin. simpl in Hin.
        apply elem_of_cons in Hin as [-> | Hin]; [| by right].
        left. apply elem_of_union. left. by apply elem_of_singleton.
    + apply andb_prop in H1 as [H1 Hrest]. rewrite H1. simpl.
      apply (IH _ D' _ Hrest H2). intros n Hn.
      destruct (Hsub n Hn) as [? | Hin].
      * left. apply elem_of_union. by right.
      * unfold written_names in Hin. simpl in Hin.
        apply elem_of_cons in Hin as [-> | Hin]; [| by right].
        left. apply elem_of_union. left. by apply elem_of_singleton.
Qed.

Lemma closed_block_nil c : closed_block c [].
Proof. split_and!; [done | constructor | done]. Qed.

Lemma closed_block_app c code1 code2 :
  closed_block c code1 → closed_block (c + length code1) code2 →
  closed_block c (code1 ++ code2).
Proof.
  intros (W1 & B1 & R1) (W2 & B2 & R2). split_and!.
  - rewrite written_names_app, W1, W2, length_app, seq_app, fmap_app. done.
  - by apply Forall_app.
  - intros D. apply (written_before_read_app _ D D); [done | done | tauto].
Qed.

Lemma available_older c code r :
  closed_block c code → available code r →
  ∀ k, (c + length code < k)%nat → r ≠ counter_name k.
Proof.
  intros (W & _ & _) [-> | Hin] k Hk; [done |].
  rewrite W in Hin. apply list_elem_of_fmap in Hin as (j & -> & Hj).
  apply elem_of_seq in Hj. intros Heq%counter_name_inj. lia.
Qed.

Lemma available_app_l code1 code2 r :
  available code1 r → available (code1 ++ code2) r.
Proof.
  intros [-> | H]; [by left | right].
  rewrite written_names_app, elem_of_app. by left.
Qed.

Lemma available_app_r code1 code2 r :
  available code2 r → available (code1 ++ code2) r.
Proof.
  intros [-> | H]; [by left | right].
  rewrite written_names_app, elem_of_app. by right.
Qed.

Lemma closed_block_Bin c code k op s1 s2 :
  closed_block c code → k = S (c + length code) →
  available code s1 → available code s2 →
  closed_block c (code ++ [Asm.Bin op (counter_name k) s1 s2]).
Proof.
  intros (W & B & R) -> A1 A2. split_and!.
  - rewrite written_names_app, W, length_app, seq_app, fmap_app. done.
  - apply Forall_app. split; [done | by repeat constructor].
  - intros D.
    apply (written_before_read_app _ D (list_to_set (written_names code)));
      [done | | intros n Hn; right; by apply elem_of_list_to_set in Hn].
    simpl. rewrite !bool_decide_eq_true_2; [done | |].
    + destruct A2 as [-> | H]; [left; apply x0_other |].
      right. by apply elem_of_list_to_set.
    + destruct A1 as [-> | H]; [left; apply x0_other |].
      right. by apply elem_of_list_to_set.
Qed.

Lemma closed_block_BinI c code k op s1 imm :
  closed_block c code → k = S (c + length code) → available code s1 →
  closed_block c (code ++ [Asm.BinI op (counter_name k) s1 imm]).
Proof.
  intros (W & B & R) -> A1. split_and!.
  - rewrite written_names_app, W, length_app, seq_app, fmap_app. done.
  - apply Forall_app. split; [done | by repeat constructor].
  - intros D.
    apply (written_before_read_app _ D (list_to_set (written_names code)));
      [done | | intros n Hn; right; by apply elem_of_list_to_set in Hn].
    simpl. rewrite !bool_decide_eq_true_2; [done |].
    destruct A1 as [-> | H]; [left; apply x0_other |].
    right. by apply elem_of_list_to_set.
Qed.

Lemma available_last code i rd :
  Asm.written i = Some rd → available (code ++ [i]) rd.
Proof.
  intros H. right. rewrite written_names_app, elem_of_app. right.
  rewrite (written_names_cons _ _ _ H). constructor.
Qed.

(** The value of an operand survives the code of the operand visited next. *)
Lemma block_keeps c code1 code2 r q1 q2 :
  closed_block c code1 → available code1 r →
  closed_block (c + length code1) code2 →
  run code2 q1 = Ok q2 → Asm.env q2 !! r = Asm.env q1 !! r.
Proof.
  intros B1 A1 B2 Hrun.
  destruct (run_binary_frame code2 q1 q2 (proj1 (proj2 B2)) Hrun) as (_ & Hz & Hn).
  destruct (decide (r = Some "x0")) as [-> | Hne]; [done |].
  apply Hn. rewrite (proj1 B2). intros (j & -> & Hj)%list_elem_of_fmap.
  apply elem_of_seq in Hj.
  apply (available_older c code1 _ B1 A1 j); [lia | done].
Qed.

Lemma run_Bin_cons op rd s1 s2 rest p a b v (P : Asm.Program → Prop) :
  Asm.env p !! s1 = Some a → Asm.env p !! s2 = Some b →
  Asm.eval_binop op a b = Ok v → rd ≠ Some "x0" →
  (∀ q, Asm.env q = <[rd := v]> (Asm.env p) →
        ∃ q', run rest q = Ok q' ∧ P q') →
  ∃ q', run (Asm.Bin op rd s1 s2 :: rest) p = Ok q' ∧ P q'.
Proof.
  intros H1 H2 Hv Hrd Hk.
  destruct (exec_Bin_env op rd s1 s2 p a b v H1 H2 Hv Hrd) as (q & Hex & Hq).
  destruct (Hk q Hq) as (q' & Hrun & HP). exists q'. split; [| done].
  cbn [run]. by rewrite Hex.
Qed.

Lemma run_BinI_cons op rd s1 imm rest p a (P : Asm.Program → Prop) :
  Asm.env p !! s1 = Some a → rd ≠ Some "x0" →
  (∀ q, Asm.env q = <[rd := Asm.eval_immop op a imm]> (Asm.env p) →
        ∃ q', run rest q = Ok q' ∧ P q') →
  ∃ q', run (Asm.BinI op rd s1 imm :: rest) p = Ok q' ∧ P q'.
Proof.
  intros H1 Hrd Hk.
  destruct (exec_BinI_env op rd s1 imm p a H1 Hrd) as (q & Hex & Hq).
  destruct (Hk q Hq) as (q' & Hrun & HP). exists q'. split; [| done].
  cbn [run]. by rewrite Hex.
Qed.

(** The codes of two operands run one after the other: both values are in
    their registers at the end, or the run faults where an operand does. *)
Lemma run_operands c code1 code2 r1 r2 o1 o2 p :
  closed_block c code1 → closed_block (c + length code1) code2 →
  available code1 r1 →
  Asm.env p !! Some "x0" = Some 0 →
  computes code1 r1 o1 p →
  (∀ q, Asm.env q !! Some "x0" = Some 0 → computes code2 r2 o2 q) →
  match o1, o2 with
  | Some a, Some b =>
      ∃ q, run (code1 ++ code2) p = Ok q ∧ Asm.env q !! r1 = Some a ∧
           Asm.env q !! r2 = Some b ∧ Asm.env q !! Some "x0" = Some 0
  | _, _ => ∀ tail, run (code1 ++ code2 ++ tail) p = Err MachineFault
  end.
Proof.
  intros B1 B2 A1 Hz S1 S2. destruct o1 as [a |]; simpl in S1.
  - destruct S1 as (q1 & R1 & E1).
    destruct (run_binary_frame code1 p q1 (proj1 (proj2 B1)) R1) as (_ & Hz1 & _).
    rewrite Hz in Hz1. specialize (S2 q1 Hz1). destruct o2 as [b |]; simpl in S2.
    + destruct S2 as (q2 & R2 & E2). exists q2.
      destruct (run_binary_frame code2 q1 q2 (proj1 (proj2 B2)) R2) as (_ & Hz2 & _).
      split_and!.
      * by rewrite run_app, R1, Ok_bind.
      * by rewrite (block_keeps c code1 code2 r1 q1 q2).
      * done.
      * congruence.
    + intros tail. by rewrite run_app, R1, Ok_bind, run_app, S2.
  - intros tail. destruct o2; by rewrite run_app, S1.
Qed.

Lemma add_inst_append prog code i :
  Asm.add_inst (append_code prog code) i = append_code prog (code ++ [i]).
Proof. unfold Asm.add_inst, append_code. simpl. by rewrite app_assoc. Qed.

Lemma append_append prog code1 code2 :
  append_code (append_code prog code1) code2 = append_code prog (code1 ++ code2).
Proof. unfold append_code. simpl. by rewrite app_assoc. Qed.

Lemma visit_result_eq (r r' : name) c c' scope prog code code' :
  r = r' → c = c' → code = code' →
  @Ok (name * GenVisitor * Asm.Program)
    (r, {| next_var_counter := c; var_scope := scope |}, append_code prog code) =
  Ok (r', {| next_var_counter := c'; var_scope := scope |}, append_code prog code').
Proof. by intros -> -> ->. Qed.

Lemma append_nil prog : append_code prog [] = prog.
Proof. destruct prog. unfold append_code. simpl. by rewrite app_nil_r. Qed.

Lemma eql_value a b :
  Z.lxor (Z.lxor (Asm.bool_to_Z (bool_decide (a < b)))
                 (Asm.bool_to_Z (bool_decide (b < a)))) 1 =
  Asm.bool_to_Z (bool_decide (a = b)).
Proof. repeat case_bool_decide; try lia; reflexivity. Qed.

Lemma leq_value a b :
  Z.lxor (Asm.bool_to_Z (bool_decide (b < a))) 1 =
  Asm.bool_to_Z (bool_decide (a ≤ b)).
Proof. repeat case_bool_decide; try lia; reflexivity. Qed.

Lemma not_value a :
  Z.lxor (Asm.bool_to_Z (bool_decide (0 < a)) +
          Asm.bool_to_Z (bool_decide (a < 0))) 1 =
  Asm.bool_to_Z (bool_decide (a = 0)).
Proof. repeat case_bool_decide; try lia; reflexivity. Qed.

Ltac name_ne :=
  solve [ apply counter_name_not_x0
        | apply not_eq_sym; apply counter_name_not_x0
        | intros ?%counter_name_inj; lia
        | match goal with
          | O : ∀ k, (_ < k)%nat → ?r ≠ counter_name k |- counter_name _ ≠ ?r =>
              apply not_eq_sym, O; lia
          | O : ∀ k, (_ < k)%nat → ?r ≠ counter_name k |- ?r ≠ counter_name _ =>
              apply O; lia
          end ].

Ltac look :=
  match goal with
  | H : Asm.env ?q = _ |- Asm.env ?q !! _ = _ =>
      rewrite H; first [ apply lookup_insert_eq
                       | rewrite lookup_insert_ne by name_ne; look ]
  | |- _ => eassumption
  end.

Ltac operands IHl IHr Hg c :=
  let Hl := fresh "Hl" in
  let Hr := fresh "Hr" in
  simpl in Hg; apply andb_prop in Hg as [Hl Hr];
  destruct (IHl Hl c) as (r1 & code1 & B1 & A1 & V1 & S1);
  destruct (IHr Hr (c + length code1)%nat) as (r2 & code2 & B2 & A2 & V2 & S2);
  assert (available code1 r1) as Av1
    by (destruct A1 as [(_ & -> & _) | A1]; [by left | by right]);
  assert (available code2 r2) as Av2
    by (destruct A2 as [(_ & -> & _) | A2]; [by left | by right]);
  pose proof (closed_block_app c code1 code2 B1 B2) as B12;
  pose proof (available_older c (code1 ++ code2) r1 B12
                (available_app_l _ _ _ Av1)) as O1;
  pose proof (available_older c (code1 ++ code2) r2 B12
                (available_app_r _ _ _ Av2)) as O2;
  rewrite length_app in O1, O2.

Ltac visit_two V1 V2 :=
  intros scope prog; cbn [visit]; rewrite V1, Ok_bind; cbn beta iota;
  rewrite V2, Ok_bind; cbn beta iota; unfold emit, next_var_name;
  cbn beta iota delta [next_var_counter var_scope];
  rewrite ?append_append, ?add_inst_append;
  apply visit_result_eq;
  [ reflexivity
  | rewrite ?length_app; simpl; lia
  | rewrite <- ?app_assoc; reflexivity ].

Ltac avail :=
  unfold available in *;
  rewrite ?written_names_app, ?elem_of_app;
  unfold written_names; cbn [omap list_omap Asm.written];
  rewrite ?elem_of_cons; intuition (auto; done).

(** [closed_block] for the code of a node: the operand code followed by the
    instructions of the node, taken one by one from the end. *)
Ltac block_tail :=
  first
    [ apply closed_block_Bin;
        [ block_tail | rewrite ?length_app; simpl; lia | avail | avail ]
    | apply closed_block_BinI;
        [ block_tail | rewrite ?length_app; simpl; lia | avail ]
    | assumption ].

Ltac block_two :=
  match goal with
  | |- closed_block _ (?c1 ++ ?c2 ++ [?i1]) =>
      replace (c1 ++ c2 ++ [i1]) with ((c1 ++ c2) ++ [i1])
        by (rewrite <- !app_assoc; reflexivity)
  | |- closed_block _ (?c1 ++ ?c2 ++ [?i1; ?i2]) =>
      replace (c1 ++ c2 ++ [i1; i2]) with (((c1 ++ c2) ++ [i1]) ++ [i2])
        by (rewrite <- !app_assoc; reflexivity)
  | |- closed_block _ (?c1 ++ ?c2 ++ [?i1; ?i2; ?i3; ?i4]) =>
      replace (c1 ++ c2 ++ [i1; i2; i3; i4])
        with (((((c1 ++ c2) ++ [i1]) ++ [i2]) ++ [i3]) ++ [i4])
        by (rewrite <- !app_assoc; reflexivity)
  end; block_tail.

Ltac block_one :=
  match goal with
  | |- closed_block _ (?c1 ++ [?i1; ?i2]) =>
      replace (c1 ++ [i1; i2]) with ((c1 ++ [i1]) ++ [i2])
        by (rewrite <- !app_assoc; reflexivity)
  | |- closed_block _ (?c1 ++ [?i1; ?i2; ?i3; ?i4]) =>
      replace (c1 ++ [i1; i2; i3; i4])
        with ((((c1 ++ [i1]) ++ [i2]) ++ [i3]) ++ [i4])
        by (rewrite <- !app_assoc; reflexivity)
  end; block_tail.

Ltac result_written :=
  right; rewrite ?written_names_app, ?elem_of_app;
  unfold written_names; cbn [omap list_omap Asm.written];
  rewrite ?elem_of_cons; intuition (auto; done).

Ltac operand IHe Hg c :=
  simpl in Hg;
  destruct (IHe Hg c) as (r1 & code1 & B1 & A1 & V1 & S1);
  assert (available code1 r1) as Av1
    by (destruct A1 as [(_ & -> & _) | A1]; [by left | by right]);
  pose proof (available_older c code1 r1 B1 Av1) as O1.

Ltac visit_one V1 :=
  intros scope prog; cbn [visit]; rewrite V1, Ok_bind; cbn beta iota;
  unfold emit, next_var_name;
  cbn beta iota delta [next_var_counter var_scope];
  rewrite ?append_append, ?add_inst_append;
  apply visit_result_eq;
  [ reflexivity
  | rewrite ?length_app; simpl; lia
  | rewrite <- ?app_assoc; reflexivity ].

Ltac sem_two Hz S1 S2 B1 B2 Av1 a b q R E1 E2 Hz' :=
  let H := fresh "H" in
  intros p Hz;
  match goal with
  | |- computes (?c1 ++ ?c2 ++ _) _ (Driver.interp (_ ?l ?r) _) _ =>
      pose proof (run_operands _ c1 c2 _ _ _ _ p B1 B2 Av1 Hz (S1 p Hz) S2) as H;
      unfold computes; cbn [Driver.interp];
      destruct (Driver.interp l ∅) as [a |];
        [destruct (Driver.interp r ∅) as [b |] |];
        cbn [mbind option_bind]; try apply H
  end;
  destruct H as (q & R & E1 & E2 & Hz');
  rewrite app_assoc, run_app, R, Ok_bind.

Ltac sem_one Hz S1 B1 a q R E1 Hz' :=
  intros p Hz;
  match goal with
  | |- computes (?c1 ++ _) _ (Driver.interp (_ ?e) _) _ =>
      specialize (S1 p Hz);
      unfold computes; cbn [Driver.interp];
      destruct (Driver.interp e ∅) as [a |]; cbn [mbind option_bind];
        [| by rewrite run_app, S1]
  end;
  destruct S1 as (q & R & E1);
  pose proof (proj1 (proj2 (run_binary_frame _ _ _ (proj1 (proj2 B1)) R))) as Hz';
  rewrite Hz in Hz';
  rewrite run_app, R, Ok_bind.

(** The visit of a tree without [let] and identifiers, started with the
    counter at [c]: the code appended and the register returned depend on
    the tree and on [c] only; the code is a closed block; run from any
    state, it leaves the value of the tree in the register, or faults when
    the tree has none. *)
Lemma visit_ground e : ground e = true → ∀ c, ∃ r code,
  closed_block c code ∧
  ((e = Bln false ∧ r = Some "x0" ∧ code = []) ∨ r ∈ written_names code) ∧
  (∀ scope prog,
     visit e {| next_var_counter := c; var_scope := scope |} prog =
       Ok (r, {| next_var_counter := c + length code; var_scope := scope |},
           append_code prog code)) ∧
  (∀ p, Asm.env p !! Some "x0" = Some 0 →
     computes code r (Driver.interp e ∅) p).
Proof.
  induction e as [identifier | bln | num | l IHl r0 IHr | l IHl r0 IHr
                 | l IHl r0 IHr | l IHl r0 IHr | l IHl r0 IHr | l IHl r0 IHr
                 | l IHl r0 IHr | e IHe | e IHe | identifier d IHd b IHb];
    intros Hg c; try done.
  - (* Bln *)
    destruct bln.
    + exists (counter_name (S c)), [Asm.Addi (counter_name (S c)) (Some "x0") 1].
      split_and!.
      * apply (closed_block_BinI c [] (S c)); [apply closed_block_nil | simpl; lia | by left].
      * right. simpl. constructor.
      * intros scope prog. simpl. unfold emit, next_var_name. simpl.
        rewrite <- (append_nil prog) at 1. rewrite add_inst_append.
        apply visit_result_eq; [done | lia | done].
      * intros p Hz. unfold computes. cbn [Driver.interp].
        apply (run_BinI_cons _ _ _ _ _ _ 0); [done | name_ne |].
        intros q Hq. exists q. split; [done |]. by rewrite Hq, lookup_insert_eq.
    + exists (Some "x0"), []. split_and!.
      * apply closed_block_nil.
      * by left.
      * intros scope prog. simpl. rewrite <- (append_nil prog) at 1.
        apply visit_result_eq; [done | lia | done].
      * intros p Hz. simpl. by exists p.
  - (* Num *)
    exists (counter_name (S c)), [Asm.Addi (counter_name (S c)) (Some "x0") num].
    split_and!.
    + apply (closed_block_BinI c [] (S c)); [apply closed_block_nil | simpl; lia | by left].
    + right. simpl. constructor.
    + intros scope prog. simpl. unfold emit, next_var_name. simpl.
      rewrite <- (append_nil prog) at 1. rewrite add_inst_append.
      apply visit_result_eq; [done | lia | done].
    + intros p Hz. unfold computes. cbn [Driver.interp].
      apply (run_BinI_cons _ _ _ _ _ _ 0); [done | name_ne |].
      intros q Hq. exists q. split; [done |]. by rewrite Hq, lookup_insert_eq.
  - (* Eql *)
    operands IHl IHr Hg c.
    set (n := (c + length code1 + length code2)%nat).
    exists (counter_name (S (S (S (S n))))),
      (code1 ++ code2 ++
       [Asm.Slt (counter_name (S n)) r1 r2;
        Asm.Slt (counter_name (S (S n))) r2 r1;
        Asm.Xor (counter_name (S (S (S n)))) (counter_name (S n))
                (counter_name (S (S n)));
        Asm.Xori (counter_name (S (S (S (S n))))) (counter_name (S (S (S n)))) 1]).
    split_and!.
    + subst n. block_two.
    + result_written.
    + visit_two V1 V2.
    + sem_two Hz S1 S2 B1 B2 Av1 a b q R E1 E2 Hz'.
      eapply (run_Bin_cons _ _ _ _ _ _ a b); [look | look | reflexivity | name_ne |].
      intros q1 Hq1.
      eapply (run_Bin_cons _ _ _ _ _ _ b a); [look | look | reflexivity | name_ne |].
      intros q2 Hq2.
      eapply run_Bin_cons; [look | look | reflexivity | name_ne |].
      intros q3 Hq3.
      eapply run_BinI_cons; [look | name_ne |].
      intros q4 Hq4. exists q4. split; [done |].
      rewrite Hq4, lookup_insert_eq. f_equal. apply eql_value.
  - (* Add *)
    operands IHl IHr Hg c.
    set (n := (c + length code1 + length code2)%nat).
    exists (counter_name (S n)),
      (code1 ++ code2 ++ [Asm.Add (counter_name (S n)) r1 r2]).
    split_and!.
    + subst n. block_two.
    + result_written.
    + visit_two V1 V2.
    + sem_two Hz S1 S2 B1 B2 Av1 a b q R E1 E2 Hz'.
      eapply (run_Bin_cons _ _ _ _ _ _ a b); [look | look | reflexivity | name_ne |].
      intros q1 Hq1. exists q1. split; [done |]. by rewrite Hq1, lookup_insert_eq.
  - (* Sub *)
    operands IHl IHr Hg c.
    set (n := (c + length code1 + length code2)%nat).
    exists (counter_name (S n)),
      (code1 ++ code2 ++ [Asm.Sub (counter_name (S n)) r1 r2]).
    split_and!.
    + subst n. block_two.
    + result_written.
    + visit_two V1 V2.
    + sem_two Hz S1 S2 B1 B2 Av1 a b q R E1 E2 Hz'.
      eapply (run_Bin_cons _ _ _ _ _ _ a b); [look | look | reflexivity | name_ne |].
      intros q1 Hq1. exists q1. split; [done |]. by rewrite Hq1, lookup_insert_eq.
  - (* Mul *)
    operands IHl IHr Hg c.
    set (n := (c + length code1 + length code2)%nat).
    exists (counter_name (S n)),
      (code1 ++ code2 ++ [Asm.Mul (counter_name (S n)) r1 r2]).
    split_and!.
    + subst n. block_two.
    + result_written.
    + visit_two V1 V2.
    + sem_two Hz S1 S2 B1 B2 Av1 a b q R E1 E2 Hz'.
      eapply (run_Bin_cons _ _ _ _ _ _ a b); [look | look | reflexivity | name_ne |].
      intros q1 Hq1. exists q1. split; [done |]. by rewrite Hq1, lookup_insert_eq.
  - (* Div *)
    operands IHl IHr Hg c.
    set (n := (c + length code1 + length code2)%nat).
    exists (counter_name (S n)),
      (code1 ++ code2 ++ [Asm.Div (counter_name (S n)) r1 r2]).
    split_and!.
    + subst n. block_two.
    + result_written.
    + visit_two V1 V2.
    + intros p Hz.
      pose proof (run_operands c code1 code2 r1 r2 _ _ p B1 B2 Av1 Hz
                    (S1 p Hz) S2) as H.
      unfold computes. cbn [Driver.interp].
      destruct (Driver.interp l ∅) as [a |];
        [destruct (Driver.interp r0 ∅) as [b |] |];
        cbn [mbind option_bind]; try apply H.
      destruct H as (q & R & E1 & E2 & Hz').
      rewrite app_assoc, run_app, R, Ok_bind.
      destruct (decide (b = 0)) as [-> | Hb].
      * cbn [run Asm.exec]. unfold Asm.get_val. rewrite E1, E2. done.
      * eapply (run_Bin_cons _ _ _ _ _ _ a b); [look | look | | name_ne |].
        { simpl. by rewrite decide_False. }
        intros q1 Hq1. exists q1. split; [done |]. by rewrite Hq1, lookup_insert_eq.
  - (* Leq *)
    operands IHl IHr Hg c.
    set (n := (c + length code1 + length code2)%nat).
    exists (counter_name (S (S n))),
      (code1 ++ code2 ++
       [Asm.Slt (counter_name (S n)) r2 r1;
        Asm.Xori (counter_name (S (S n))) (counter_name (S n)) 1]).
    split_and!.
    + subst n. block_two.
    + result_written.
    + visit_two V1 V2.
    + sem_two Hz S1 S2 B1 B2 Av1 a b q R E1 E2 Hz'.
      eapply (run_Bin_cons _ _ _ _ _ _ b a); [look | look | reflexivity | name_ne |].
      intros q1 Hq1.
      eapply run_BinI_cons; [look | name_ne |].
      intros q2 Hq2. exists q2. split; [done |].
      rewrite Hq2, lookup_insert_eq. f_equal. apply leq_value.
  - (* Lth *)
    operands IHl IHr Hg c.
    set (n := (c + length code1 + length code2)%nat).
    exists (counter_name (S n)),
      (code1 ++ code2 ++ [Asm.Slt (counter_name (S n)) r1 r2]).
    split_and!.
    + subst n. block_two.
    + result_written.
    + visit_two V1 V2.
    + sem_two Hz S1 S2 B1 B2 Av1 a b q R E1 E2 Hz'.
      eapply (run_Bin_cons _ _ _ _ _ _ a b); [look | look | reflexivity | name_ne |].
      intros q1 Hq1. exists q1. split; [done |]. by rewrite Hq1, lookup_insert_eq.
  - (* Neg *)
    operand IHe Hg c.
    set (n := (c + length code1)%nat).
    exists (counter_name (S (S n))),
      (code1 ++
       [Asm.Addi (counter_name (S n)) (Some "x0") (-1);
        Asm.Mul (counter_name (S (S n))) r1 (counter_name (S n))]).
    split_and!.
    + subst n. block_one.
    + result_written.
    + visit_one V1.
    + sem_one Hz S1 B1 a q R E1 Hz'.
      eapply (run_BinI_cons _ _ _ _ _ _ 0); [look | name_ne |].
      intros q1 Hq1.
      eapply (run_Bin_cons _ _ _ _ _ _ a); [look | look | reflexivity | name_ne |].
      intros q2 Hq2. exists q2. split; [done |].
      rewrite Hq2, lookup_insert_eq. f_equal. simpl. lia.
  - (* Not *)
    operand IHe Hg c.
    set (n := (c + length code1)%nat).
    exists (counter_name (S (S (S (S n))))),
      (code1 ++
       [Asm.Slt (counter_name (S n)) (Some "x0") r1;
        Asm.Slt (counter_name (S (S n))) r1 (Some "x0");
        Asm.Add (counter_name (S (S (S n)))) (counter_name (S n))
                (counter_name (S (S n)));
        Asm.Xori (counter_name (S (S (S (S n))))) (counter_name (S (S (S n)))) 1]).
    split_and!.
    + subst n. block_one.
    + result_written.
    + visit_one V1.
    + sem_one Hz S1 B1 a q R E1 Hz'.
      eapply (run_Bin_cons _ _ _ _ _ _ 0 a); [look | look | reflexivity | name_ne |].
      intros q1 Hq1.
      eapply (run_Bin_cons _ _ _ _ _ _ a 0); [look | look | reflexivity | name_ne |].
      intros q2 Hq2.
      eapply run_Bin_cons; [look | look | reflexivity | name_ne |].
      intros q3 Hq3.
      eapply run_BinI_cons; [look | name_ne |].
      intros q4 Hq4. exists q4. split; [done |].
      rewrite Hq4, lookup_insert_eq. f_equal. apply not_value.
Qed.

Lemma binary_not_store l :
  Forall (λ i, is_binary i = true) l → Forall (λ i, is_store i = false) l.
Proof. intros H. eapply Forall_impl; [exact H | by intros []]. Qed.

Lemma binary_straight l :
  Forall (λ i, is_binary i = true) l → Forall (λ i, straight i = true) l.
Proof. intros H. eapply Forall_impl; [exact H | by intros []]. Qed.

Lemma new_Program_x0 m env0 l code :
  Asm.env (append_code (Asm.new_Program m env0 l) code) !! Some "x0" = Some 0.
Proof. simpl. rewrite lookup_insert_ne by done. by rewrite lookup_insert_eq. Qed.

(** X13: for every tree without [let] and identifiers, the code generated
    on a fresh visitor and an empty program, run with enough fuel, leaves the
    value of the tree in the register the visit returned; when the tree has
    no value (a division by zero) the run faults. *)
Theorem ground_generation_correct (e : expr) :
  ground e = true →
  ∃ steps : nat, ∀ memory_size fuel, (steps ≤ fuel)%nat →
    Driver.generate_eval memory_size fuel e =
      match Driver.interp e ∅ with
      | Some v => Ok v
      | None => Err MachineFault
      end.
Proof.
  intros Hg. destruct (visit_ground e Hg 0%nat) as (r & code & B & A & V & S).
  exists (length code). intros m fuel Hfuel.
  unfold Driver.generate_eval, Visitor.init. rewrite V, Ok_bind. cbn beta iota.
  set (P := append_code (Asm.new_Program m ∅ []) code).
  rewrite (eval_run code P [] fuel eq_refl eq_refl
             (binary_straight _ (proj1 (proj2 B))) Hfuel).
  specialize (S P (new_Program_x0 _ _ _ _)). unfold computes in S.
  destruct (Driver.interp e ∅) as [v |].
  - destruct S as (q & R & E). rewrite R, Ok_bind. by apply get_val_Ok.
  - by rewrite S.
Qed.

Lemma ground_generation_correct_witness :
  ∃ steps : nat, ∀ memory_size fuel, (steps ≤ fuel)%nat →
    Driver.generate_eval memory_size fuel (Div (Num 28) (Num 4)) = Ok 7.
Proof.
  apply (ground_generation_correct (Div (Num 28) (Num 4))). reflexivity.
Defined.

(** X14: for every tree without [let] and identifiers that has a value,
    generation, register allocation and evaluation, with enough memory cells
    for the spills and enough fuel, give that value where the allocator's
    final maps place the result name; except for the literal [Bln false],
    whose result name is x0, which [RegAllocator.get_val] does not find. *)
Theorem ground_round_trip (e : expr) (v : Z) :
  ground e = true → Driver.interp e ∅ = Some v →
  ∃ cells steps : nat, ∀ memory_size fuel,
    (cells ≤ memory_size)%nat → (steps ≤ fuel)%nat →
    Driver.generate_allocate_eval memory_size fuel e =
      match e with
      | Bln false => Err VariableNotFound
      | _ => Ok v
      end.
Proof.
  intros Hg Hv. destruct (visit_ground e Hg 0%nat) as (r & code & B & A & V & S).
  destruct B as (W & Hbin & Hwf).
  destruct (alloc_insts_binary (Asm.new_Program 0 ∅ []) code Optimizer.init
              Hbin eq_refl) as (out & s & Halloc & _).
  exists (length code), (length out). intros m fuel Hm Hfuel.
  unfold Driver.generate_allocate_eval, Visitor.init.
  rewrite V, Ok_bind. cbn beta iota.
  set (P := append_code (Asm.new_Program m ∅ []) code).
  assert (Asm.env P !! Some "x0" = Some 0) as Hz by apply new_Program_x0.
  specialize (S P Hz). rewrite Hv in S. destruct S as (Q & R & E).
  rewrite (alloc_insts_static _ P) in Halloc by by apply binary_not_store.
  assert (∀ n : name, n ∈ (∅ : gset name) →
            is_Some (Optimizer.mem_map Optimizer.init !! n)) as HD
    by (intros n Hn; by apply not_elem_of_empty in Hn).
  assert (Optimizer.mem_counter Optimizer.init + Z.of_nat (length code) <
          Z.of_nat (length (Asm.mem (Asm.set_insts P out)))) as Hbudget.
  { simpl. rewrite length_replicate. lia. }
  destruct (alloc_insts_sim P code ∅ Optimizer.init P (Asm.set_insts P out) Q
              (Hwf ∅) HD eq_refl (sim_init P out Hz) Hbudget R)
    as (out' & s' & Q' & Halloc' & Hrun & Hsim & Hempty & Hdom).
  rewrite Halloc in Halloc'. injection Halloc' as <- <-.
  unfold Optimizer.optimize, Asm.get_insts.
  change (Asm.insts P) with code. rewrite Halloc, !Ok_bind. cbn beta iota.
  rewrite (eval_run out (Asm.set_insts P out) [] fuel eq_refl eq_refl
             (alloc_insts_straight _ _ _ _ _ Halloc) Hfuel).
  rewrite Hrun, Ok_bind.
  destruct A as [(-> & -> & ->) | Hin].
  - unfold Optimizer.get_val. rewrite Hempty, lookup_empty.
    simpl in Halloc. injection Halloc as <- <-. done.
  - destruct (Hdom r (or_intror Hin)) as [a Ha].
    destruct (sim_spilled _ _ _ Hsim _ _ Ha) as (Hrange & v' & Hv' & Hm').
    assert (v' = v) as -> by congruence.
    assert (Optimizer.get_val s Q' r = Ok v) as ->.
    { unfold Optimizer.get_val. rewrite Hempty, lookup_empty, Ha.
      unfold Asm.get_mem. rewrite decide_True by lia. by rewrite Hm'. }
    destruct e as [| [] | | | | | | | | | | |]; try done.
    exfalso.
    assert (r = Some "x0") as ->.
    { specialize (V ∅ (Asm.new_Program 0 ∅ [])). simpl in V. congruence. }
    rewrite W in Hin. apply list_elem_of_fmap in Hin as (j & Hj & _).
    by apply (counter_name_not_x0 j).
Qed.

Lemma ground_round_trip_witness :
  ∃ cells steps : nat, ∀ memory_size fuel,
    (cells ≤ memory_size)%nat → (steps ≤ fuel)%nat →
    Driver.generate_allocate_eval memory_size fuel (Eql (Num 13) (Num 13)) = Ok 1.
Proof.
  apply (ground_round_trip (Eql (Num 13) (Num 13)) 1); reflexivity.
Defined.

Lemma minted_nil c : minted c [].
Proof. done. Qed.

Lemma minted_app c code1 code2 :
  minted c code1 → minted (c + length code1) code2 → minted c (code1 ++ code2).
Proof.
  unfold minted. intros W1 W2.
  by rewrite written_names_app, W1, W2, length_app, seq_app, fmap_app.
Qed.

Lemma minted_snoc c code i k :
  minted c code → Asm.written i = Some (counter_name k) →
  k = S (c + length code) → minted c (code ++ [i]).
Proof.
  unfold minted. intros W Hi ->.
  rewrite written_names_app, W, length_app, seq_app, fmap_app.
  by rewrite (written_names_cons _ _ _ Hi).
Qed.

Lemma minted_NoDup c code : minted c code → NoDup (written_names code).
Proof.
  unfold minted. intros ->. apply NoDup_fmap_2; [| apply NoDup_seq].
  intros k k'. apply counter_name_inj.
Qed.

Ltac visit_step H :=
  let E := fresh "E" in
  apply bind_Ok in H as ([[? ?] ?] & E & H).

Ltac code_node H :=
  unfold emit, next_var_name in H; simpl in H; injection H as <- <- <-;
  eexists; split;
    [ rewrite ?append_append, ?add_inst_append; reflexivity |];
  split; [ rewrite ?Forall_app; split_and!; try done; by repeat constructor |];
  split; [ simpl; lia |].

Ltac minted_node :=
  split_and!;
    [ repeat (eapply minted_snoc;
                [ | reflexivity | rewrite ?length_app; simpl; lia ]);
      first [ apply minted_app; [done | congruence] | done ]
    | simpl; rewrite ?length_app; simpl; lia
    | simpl; congruence ].

(** What any successful visit does to the program and to the visitor; on a
    tree without [let], the names written are the counter names, in order. *)
Lemma visit_code e : ∀ g prog r g' prog',
  visit e g prog = Ok (r, g', prog') →
  ∃ code, prog' = append_code prog code ∧
    Forall (λ i, is_binary i = true) code ∧
    (next_var_counter g ≤ next_var_counter g')%nat ∧
    (let_free e = true →
       minted (next_var_counter g) code ∧
       next_var_counter g' = (next_var_counter g + length code)%nat ∧
       var_scope g' = var_scope g).
Proof.
  induction e as [identifier | bln | num | l IHl r0 IHr | l IHl r0 IHr
                 | l IHl r0 IHr | l IHl r0 IHr | l IHl r0 IHr | l IHl r0 IHr
                 | l IHl r0 IHr | e IHe | e IHe | identifier d IHd b IHb];
    intros g prog r g' prog' H; simpl in H.
  - apply bind_Ok in H as (x & _ & [= <- <- <-]). exists [].
    rewrite append_nil. split_and!; try done; intros _; split_and!; try done; lia.
  - destruct bln.
    + rewrite <- (append_nil prog) in H. code_node H.
      intros _. minted_node.
    + injection H as <- <- <-. exists []. rewrite append_nil.
      split_and!; try done; intros _; split_and!; try done; lia.
  - rewrite <- (append_nil prog) in H. code_node H. intros _. minted_node.
  - visit_step H. visit_step H.
    apply IHl in E as (code1 & -> & Hb1 & Hc1 & L1).
    apply IHr in E0 as (code2 & -> & Hb2 & Hc2 & L2).
    code_node H. intros [Hl1 Hl2]%andb_prop.
    destruct (L1 Hl1) as (M1 & C1 & Sc1). destruct (L2 Hl2) as (M2 & C2 & Sc2).
    minted_node.
  - visit_step H. visit_step H.
    apply IHl in E as (code1 & -> & Hb1 & Hc1 & L1).
    apply IHr in E0 as (code2 & -> & Hb2 & Hc2 & L2).
    code_node H. intros [Hl1 Hl2]%andb_prop.
    destruct (L1 Hl1) as (M1 & C1 & Sc1). destruct (L2 Hl2) as (M2 & C2 & Sc2).
    minted_node.
  - visit_step H. visit_step H.
    apply IHl in E as (code1 & -> & Hb1 & Hc1 & L1).
    apply IHr in E0 as (code2 & -> & Hb2 & Hc2 & L2).
    code_node H. intros [Hl1 Hl2]%andb_prop.
    destruct (L1 Hl1) as (M1 & C1 & Sc1). destruct (L2 Hl2) as (M2 & C2 & Sc2).
    minted_node.
  - visit_step H. visit_step H.
    apply IHl in E as (code1 & -> & Hb1 & Hc1 & L1).
    apply IHr in E0 as (code2 & -> & Hb2 & Hc2 & L2).
    code_node H. intros [Hl1 Hl2]%andb_prop.
    destruct (L1 Hl1) as (M1 & C1 & Sc1). destruct (L2 Hl2) as (M2 & C2 & Sc2).
    minted_node.
  - visit_step H. visit_step H.
    apply IHl in E as (code1 & -> & Hb1 & Hc1 & L1).
    apply IHr in E0 as (code2 & -> & Hb2 & Hc2 & L2).
    code_node H. intros [Hl1 Hl2]%andb_prop.
    destruct (L1 Hl1) as (M1 & C1 & Sc1). destruct (L2 Hl2) as (M2 & C2 & Sc2).
    minted_node.
  - visit_step H. visit_step H.
    apply IHl in E as (code1 & -> & Hb1 & Hc1 & L1).
    apply IHr in E0 as (code2 & -> & Hb2 & Hc2 & L2).
    code_node H. intros [Hl1 Hl2]%andb_prop.
    destruct (L1 Hl1) as (M1 & C1 & Sc1). destruct (L2 Hl2) as (M2 & C2 & Sc2).
    minted_node.
  - visit_step H. visit_step H.
    apply IHl in E as (code1 & -> & Hb1 & Hc1 & L1).
    apply IHr in E0 as (code2 & -> & Hb2 & Hc2 & L2).
    code_node H. intros [Hl1 Hl2]%andb_prop.
    destruct (L1 Hl1) as (M1 & C1 & Sc1). destruct (L2 Hl2) as (M2 & C2 & Sc2).
    minted_node.
  - visit_step H. apply IHe in E as (code1 & -> & Hb1 & Hc1 & L1).
    code_node H. intros Hl1. destruct (L1 Hl1) as (M1 & C1 & Sc1).
    minted_node.
  - visit_step H. apply IHe in E as (code1 & -> & Hb1 & Hc1 & L1).
    code_node H. intros Hl1. destruct (L1 Hl1) as (M1 & C1 & Sc1).
    minted_node.
  - visit_step H. visit_step H. injection H as <- <- <-.
    apply IHd in E as (code1 & -> & Hb1 & Hc1 & _).
    apply IHb in E0 as (code2 & -> & Hb2 & Hc2 & _).
    eexists. split; [rewrite ?add_inst_append, ?append_append; reflexivity |].
    split; [rewrite ?Forall_app; split_and!; try done; by repeat constructor |].
    split; [| done].
    unfold _pop_variable. simpl in Hc2.
    destruct (var_scope g1 !! identifier) as [[| ? ?] |]; simpl; lia.
Qed.

(** X10: a visit that completes only appends to the program: the
    instructions it found stay in place, the ones it adds are binary or
    binary-immediate, the environment, the memory and the program counter
    are untouched, and the fresh-name counter does not decrease. *)
Theorem visit_appends_code (e : expr) (g g' : GenVisitor)
    (prog prog' : Asm.Program) (r : name) :
  visit e g prog = Ok (r, g', prog') →
  ∃ code, Asm.insts prog' = Asm.insts prog ++ code ∧
    Forall (λ i, is_binary i = true) code ∧
    Asm.env prog' = Asm.env prog ∧ Asm.mem prog' = Asm.mem prog ∧
    Asm.pc prog' = Asm.pc prog ∧
    (next_var_counter g ≤ next_var_counter g')%nat.
Proof.
  intros H. apply visit_code in H as (code & -> & Hb & Hc & _).
  by exists code.
Qed.

Lemma visit_appends_code_witness :
  ∃ code,
    Asm.insts (append_code (Asm.new_Program 0 ∅ [])
                 [Asm.Addi (Some "v1") (Some "x0") 3]) =
      Asm.insts (Asm.new_Program 0 ∅ []) ++ code ∧
    Forall (λ i, is_binary i = true) code ∧
    Asm.env (append_code (Asm.new_Program 0 ∅ [])
               [Asm.Addi (Some "v1") (Some "x0") 3]) =
      Asm.env (Asm.new_Program 0 ∅ []) ∧
    Asm.mem (append_code (Asm.new_Program 0 ∅ [])
               [Asm.Addi (Some "v1") (Some "x0") 3]) =
      Asm.mem (Asm.new_Program 0 ∅ []) ∧
    Asm.pc (append_code (Asm.new_Program 0 ∅ [])
              [Asm.Addi (Some "v1") (Some "x0") 3]) =
      Asm.pc (Asm.new_Program 0 ∅ []) ∧
    (next_var_counter init ≤ 1)%nat.
Proof.
  apply (visit_appends_code (Num 3) init
           {| next_var_counter := 1; var_scope := ∅ |}
           (Asm.new_Program 0 ∅ []) _ (Some "v1")).
  vm_compute. reflexivity.
Defined.

(** X12: on a tree without [let], the instructions a visit appends write
    the counter names that follow the counter's value at the start, one per
    instruction and in order; the counter ends advanced by their number and
    no name is written twice. *)
Theorem let_free_names_fresh (e : expr) (g g' : GenVisitor)
    (prog prog' : Asm.Program) (r : name) :
  let_free e = true →
  visit e g prog = Ok (r, g', prog') →
  ∃ code, Asm.insts prog' = Asm.insts prog ++ code ∧
    written_names code =
      counter_name <$> seq (S (next_var_counter g)) (length code) ∧
    next_var_counter g' = (next_var_counter g + length code)%nat ∧
    NoDup (written_names code).
Proof.
  intros Hlf H. apply visit_code in H as (code & -> & _ & _ & L).
  destruct (L Hlf) as (M & C & _). exists code.
  split_and!; [done | done | done | by eapply minted_NoDup].
Qed.

Lemma let_free_names_fresh_witness :
  ∃ code,
    Asm.insts (append_code (Asm.new_Program 0 ∅ [])
                 [Asm.Addi (Some "v1") (Some "x0") 3;
                  Asm.Addi (Some "v2") (Some "x0") 4;
                  Asm.Add (Some "v3") (Some "v1") (Some "v2")]) =
      Asm.insts (Asm.new_Program 0 ∅ []) ++ code ∧
    written_names code =
      counter_name <$> seq (S (next_var_counter init)) (length code) ∧
    3%nat = (next_var_counter init + length code)%nat ∧
    NoDup (written_names code).
Proof.
  apply (let_free_names_fresh (Add (Num 3) (Num 4)) init
           {| next_var_counter := 3; var_scope := ∅ |}
           (Asm.new_Program 0 ∅ []) _ (Some "v3")).
  - reflexivity.
  - vm_compute. reflexivity.
Defined.

Ltac error_two H IHl IHr :=
  match type of H with
  | context [visit ?l ?g ?prog ≫= _] =>
      let E1 := fresh "E" in
      destruct (visit l g prog) as [[[? ?] ?] | ?] eqn:E1; simpl in H;
        [| injection H as <-; by eapply IHl]
  end;
  try match type of H with
  | context [visit ?l ?g ?prog ≫= _] =>
      let E2 := fresh "E" in
      destruct (visit l g prog) as [[[? ?] ?] | ?] eqn:E2; simpl in H;
        [| injection H as <-; by eapply IHr]
  end;
  try done.

Lemma visit_error e : ∀ g prog err,
  visit e g prog = Err err → err = UnboundVariable.
Proof.
  induction e as [identifier | bln | num | l IHl r0 IHr | l IHl r0 IHr
                 | l IHl r0 IHr | l IHl r0 IHr | l IHl r0 IHr | l IHl r0 IHr
                 | l IHl r0 IHr | e IHe | e IHe | identifier d IHd b IHb];
    intros g prog err H; cbn [visit] in H;
    try (error_two H IHl IHr; fail); try (error_two H IHe IHe; fail).
  - rewrite get_current_scope in H.
    destruct (scope_of g identifier); [| done].
    destruct (Asm.env prog !! Some identifier); simpl in H; congruence.
  - by destruct bln.
  - done.
  - destruct (visit d g prog) as [[[v g1] p1] | e1] eqn:E1; simpl in H;
      [| injection H as <-; by eapply IHd].
    destruct (visit b _ _) as [[[r2 g2] p2] | e2] eqn:E2; simpl in H; [done |].
    injection H as <-. by eapply IHb.
Qed.

Lemma visit_closed e : ∀ bound g prog,
  bound_in bound e = true →
  (∀ x, x ∈ bound →
     scope_of g x ≠ [] ∨ is_Some (Asm.env prog !! Some x)) →
  ∃ r g' prog', visit e g prog = Ok (r, g', prog').
Proof.
  induction e as [identifier | bln | num | l IHl r0 IHr | l IHl r0 IHr
                 | l IHl r0 IHr | l IHl r0 IHr | l IHl r0 IHr | l IHl r0 IHr
                 | l IHl r0 IHr | e IHe | e IHe | identifier d IHd b IHb];
    intros bound g prog Hb Hres; simpl in Hb;
    try (apply andb_prop in Hb as [Hb1 Hb2];
         destruct (IHl bound g prog Hb1 Hres) as (r1 & g1 & p1 & E1);
         pose proof (visit_scope _ _ _ _ _ _ E1) as [Hsc Henv];
         destruct (IHr bound g1 p1 Hb2) as (r2 & g2 & p2 & E2);
           [ intros x Hx; rewrite Hsc, Henv; by apply Hres |];
         cbn [visit]; rewrite E1, Ok_bind; cbn beta iota;
         rewrite E2, Ok_bind; cbn beta iota; unfold emit; simpl;
         by eexists _, _, _);
    try (destruct (IHe bound g prog Hb Hres) as (r1 & g1 & p1 & E1);
         cbn [visit]; rewrite E1, Ok_bind; cbn beta iota; unfold emit; simpl;
         by eexists _, _, _).
  - apply bool_decide_eq_true in Hb. cbn [visit]. rewrite get_current_scope.
    destruct (Hres _ Hb) as [Hs | [v Hv]].
    + destruct (scope_of g identifier); [done | by eexists _, _, _].
    + rewrite Hv. destruct (scope_of g identifier); by eexists _, _, _.
  - destruct bln; simpl; by eexists _, _, _.
  - simpl. by eexists _, _, _.
  - apply andb_prop in Hb as [Hb1 Hb2].
    destruct (IHd bound g prog Hb1 Hres) as (v & g1 & p1 & E1).
    pose proof (visit_scope _ _ _ _ _ _ E1) as [Hsc Henv].
    pose proof (generate_scope identifier g1) as Hgen.
    destruct (_generate_unique_name identifier g1) as [new_name g2] eqn:Eg.
    simpl in Hgen.
    destruct (IHb (identifier :: bound) g2
                (Asm.add_inst p1 (Asm.Addi (Some new_name) v 0)) Hb2)
      as (r2 & g3 & p3 & E2).
    { intros x Hx. rewrite Hgen. simpl. rewrite Henv.
      destruct (decide (identifier = x)) as [<- | Hne].
      - left. by destruct (scope_of g1 identifier).
      - rewrite Hsc. apply Hres. apply elem_of_cons in Hx as [-> | Hx]; done. }
    cbn [visit]. rewrite E1, Ok_bind. cbn beta iota. rewrite Eg. cbn beta iota zeta.
    rewrite E2, Ok_bind. by eexists _, _, _.
Qed.

End GeneratorCoverage.

(** * The renaming pass *)
Section RenameCoverage.
Import Expression Rename Shape.

Lemma rename_current w v : _get_current_var_name w v = current v w.
Proof.
  unfold _get_current_var_name, current, scope_of.
  by destruct (var_scope v !! w) as [[| x l] |].
Qed.

Lemma rename_generate_scope identifier v :
  ∀ w, scope_of (_generate_unique_name identifier v).2 w =
       if decide (identifier = w)
       then scope_of v w ++ [(_generate_unique_name identifier v).1]
       else scope_of v w.
Proof.
  intros w. unfold scope_of at 1. simpl.
  destruct (decide (identifier = w)) as [<- | Hne].
  - by rewrite lookup_insert_eq.
  - by rewrite lookup_insert_ne.
Qed.

Lemma rename_pop_scope identifier v :
  ∀ w, scope_of (_pop_variable identifier v) w =
       if decide (identifier = w) then removelast (scope_of v w)
       else scope_of v w.
Proof.
  intros w. unfold _pop_variable, scope_of.
  destruct (var_scope v !! identifier) as [[| x l] |] eqn:Hid; simpl.
  - destruct (decide (identifier = w)) as [<- | Hne]; [by rewrite Hid | done].
  - destruct (decide (identifier = w)) as [<- | Hne].
    + by rewrite lookup_insert_eq, Hid.
    + by rewrite lookup_insert_ne.
  - destruct (decide (identifier = w)) as [<- | Hne]; [by rewrite Hid | done].
Qed.

(** A visit leaves every scope stack as it found it. *)
Lemma rename_scope e : ∀ v e' v',
  visit e v = (e', v') → ∀ w, scope_of v' w = scope_of v w.
Proof.
  induction e as [identifier | bln | num | l IHl r0 IHr | l IHl r0 IHr
                 | l IHl r0 IHr | l IHl r0 IHr | l IHl r0 IHr | l IHl r0 IHr
                 | l IHl r0 IHr | e IHe | e IHe | identifier d IHd b IHb];
    intros v e' v' H w; simpl in H;
    try (injection H as <- <-; done);
    try (destruct (visit l v) as [l' v1] eqn:E1;
         destruct (visit r0 v1) as [r' v2] eqn:E2;
         injection H as <- <-;
         rewrite (IHr _ _ _ E2), (IHl _ _ _ E1); done);
    try (destruct (visit e v) as [l' v1] eqn:E1;
         injection H as <- <-; by rewrite (IHe _ _ _ E1)).
  destruct (visit d v) as [d' v1] eqn:E1.
  destruct (visit b _) as [b' v3] eqn:E2.
  injection H as <- <-.
  rewrite rename_pop_scope, (IHb _ _ _ E2).
  pose proof (rename_generate_scope identifier v1 w) as Hg. simpl in Hg.
  rewrite Hg. destruct (decide (identifier = w)); [| by apply (IHd _ _ _ E1)].
  rewrite removelast_last. by apply (IHd _ _ _ E1).
Qed.

Lemma rename_current_push identifier v :
  current (_generate_unique_name identifier v).2 identifier =
    depth_name identifier (length (scope_of v identifier)).
Proof.
  unfold current. rewrite rename_generate_scope, decide_True by done. simpl.
  destruct (scope_of v identifier) as [| x l] eqn:E; [done |].
  cbn [app]. exact (last_last (x :: l) _ identifier).
Qed.

(** The renamed [let] carries the name minted from the depth of its
    identifier's stack when the [let] is entered. *)
Lemma rename_let identifier d b v :
  (visit (Let identifier d b) v).1 =
    Let (depth_name identifier (length (scope_of v identifier)))
      (visit d v).1
      (visit b (_generate_unique_name identifier (visit d v).2).2).1.
Proof.
  cbn [visit]. destruct (visit d v) as [d' v1] eqn:E1.
  destruct (_generate_unique_name identifier v1) as [n v2] eqn:Eg.
  destruct (visit b v2) as [b' v3] eqn:E2. cbn [fst snd].
  f_equal; [| rewrite Eg; cbn [snd]; by rewrite E2]. rewrite rename_current.
  assert (current v3 identifier = current v2 identifier) as ->.
  { unfold current. by rewrite (rename_scope _ _ _ _ E2). }
  replace v2 with (_generate_unique_name identifier v1).2 by by rewrite Eg.
  rewrite rename_current_push. by rewrite (rename_scope _ _ _ _ E1).
Qed.

Lemma depth_name_inj x k k' : depth_name x k = depth_name x k' → k = k'.
Proof.
  unfold depth_name. induction x as [| a x IH]; simpl.
  - intros [= H]. by apply (inj pretty).
  - intros [= H]. by apply IH.
Qed.

(** X15: once the visit of a tree has returned, every scope stack of the
    [RenameVisitor] is as the visit found it, so every identifier resolves
    as it did before. *)
Theorem rename_restores_scopes (e : expr) (v : RenameVisitor) (w : string) :
  scope_of (visit e v).2 w = scope_of v w ∧
  _get_current_var_name w (visit e v).2 = _get_current_var_name w v.
Proof.
  destruct (visit e v) as [e' v'] eqn:E. cbn [snd].
  pose proof (rename_scope _ _ _ _ E) as Hs. split; [done |].
  rewrite !rename_current. unfold current. by rewrite Hs.
Qed.

(** X16: a renamed [let] of [x] is named after the number of [let]s of [x]
    that are open around it.  So a [let] of [x] placed in the definition of
    another [let] of [x] gets the same name as that one (the class docstring
    expects two different names), while a [let] of [x] placed in the body of
    another gets the next name, which is a different one. *)
Theorem rename_names_by_depth (x : string) (v : RenameVisitor) :
  (∀ d1 b1 b, ∃ d1' b1' b',
     (visit (Let x (Let x d1 b1) b) v).1 =
       Let (depth_name x (length (scope_of v x)))
         (Let (depth_name x (length (scope_of v x))) d1' b1') b') ∧
  (∀ d d2 b2, ∃ d' d2' b2',
     (visit (Let x d (Let x d2 b2)) v).1 =
       Let (depth_name x (length (scope_of v x))) d'
         (Let (depth_name x (S (length (scope_of v x)))) d2' b2')) ∧
  depth_name x (length (scope_of v x)) ≠
    depth_name x (S (length (scope_of v x))).
Proof.
  split_and!.
  - intros d1 b1 b. eexists _, _, _. rewrite rename_let. f_equal.
    apply rename_let.
  - intros d d2 b2. eexists _, _, _. rewrite rename_let. f_equal.
    rewrite rename_let. f_equal. f_equal.
    rewrite rename_generate_scope, decide_True by done.
    rewrite length_app. simpl.
    destruct (visit d v) as [d' v1] eqn:E1. simpl.
    rewrite (rename_scope _ _ _ _ E1). lia.
  - intros H%depth_name_inj. lia.
Qed.

(** *** Renaming and the meaning of trees *)

Lemma plain_depth_name w x k : plain w = true → w ≠ depth_name x k.
Proof.
  unfold depth_name. revert w. induction x as [| a x IH]; intros w Hw Heq.
  - subst w. simpl in Hw. done.
  - subst w. simpl in Hw. apply andb_prop in Hw as [_ Hw]. by eapply IH.
Qed.

Lemma depth_name_plain_inj x y k j :
  plain x = true → plain y = true →
  depth_name x k = depth_name y j → x = y.
Proof.
  unfold depth_name. revert y.
  induction x as [| a x IH]; intros [| c y] Hx Hy Heq; simpl in *.
  - done.
  - injection Heq as <- _. done.
  - injection Heq as -> _. done.
  - injection Heq as <- Heq. apply andb_prop in Hx as [_ Hx].
    apply andb_prop in Hy as [_ Hy]. f_equal. by eapply IH.
Qed.

Lemma current_cases v w :
  stacks_minted v → current v w = w ∨ ∃ k, current v w = depth_name w k.
Proof.
  intros Hm. unfold current.
  destruct (scope_of v w) as [| x l] eqn:E; [by left | right].
  apply (Hm w). rewrite E.
  destruct (exists_last (l := x :: l)) as (l' & n & ->); [done |].
  rewrite last_last. rewrite elem_of_app, list_elem_of_singleton. by right.
Qed.

Lemma stacks_minted_push identifier v :
  stacks_minted v → stacks_minted (_generate_unique_name identifier v).2.
Proof.
  intros Hm w n. rewrite rename_generate_scope.
  destruct (decide (identifier = w)) as [<- | Hne]; [| apply Hm].
  rewrite elem_of_app, list_elem_of_singleton. intros [Hn | ->]; [by apply Hm |].
  by eexists.
Qed.

Lemma stacks_minted_same v v' :
  (∀ w, scope_of v' w = scope_of v w) → stacks_minted v → stacks_minted v'.
Proof. intros Hs Hm w n. rewrite Hs. apply Hm. Qed.

Lemma agree_same v v' rho rho' :
  (∀ w, scope_of v' w = scope_of v w) → agree v rho rho' → agree v' rho rho'.
Proof.
  intros Hs Ha w Hw. unfold current. rewrite Hs. by apply Ha.
Qed.

Lemma agree_push identifier v rho rho' a :
  plain identifier = true → stacks_minted v → agree v rho rho' →
  agree (_generate_unique_name identifier v).2
    (<[identifier := a]> rho)
    (<[depth_name identifier (length (scope_of v identifier)) := a]> rho').
Proof.
  intros Hid Hm Ha w Hw.
  destruct (decide (identifier = w)) as [<- | Hne].
  - by rewrite rename_current_push, !lookup_insert_eq.
  - rewrite (lookup_insert_ne rho) by done.
    assert (current (_generate_unique_name identifier v).2 w = current v w) as ->.
    { unfold current. by rewrite rename_generate_scope, decide_False. }
    rewrite lookup_insert_ne; [by apply Ha |].
    destruct (current_cases v w Hm) as [-> | [k ->]].
    + intros Heq. symmetry in Heq. by apply plain_depth_name in Heq.
    + intros Heq. by apply depth_name_plain_inj in Heq.
Qed.

Lemma rename_meaning e : ∀ v rho rho',
  plain_tree e = true → stacks_minted v → agree v rho rho' →
  Driver.interp (visit e v).1 rho' = Driver.interp e rho.
Proof.
  induction e as [identifier | bln | num | l IHl r0 IHr | l IHl r0 IHr
                 | l IHl r0 IHr | l IHl r0 IHr | l IHl r0 IHr | l IHl r0 IHr
                 | l IHl r0 IHr | e IHe | e IHe | identifier d IHd b IHb];
    intros v rho rho' Hp Hm Ha; simpl in Hp; try done;
    try (apply andb_prop in Hp as [Hp1 Hp2]; cbn [visit];
         destruct (visit l v) as [l' v1] eqn:E1;
         destruct (visit r0 v1) as [r' v2] eqn:E2; cbn [fst Driver.interp];
         pose proof (rename_scope _ _ _ _ E1) as Hs1;
         pose proof (IHl v rho rho' Hp1 Hm Ha) as H1; rewrite E1 in H1;
         pose proof (IHr v1 rho rho' Hp2 (stacks_minted_same _ _ Hs1 Hm)
                       (agree_same _ _ _ _ Hs1 Ha)) as H2; rewrite E2 in H2;
         simpl in H1, H2; by rewrite H1, H2);
    try (cbn [visit]; destruct (visit e v) as [l' v1] eqn:E1;
         cbn [fst Driver.interp];
         pose proof (IHe v rho rho' Hp Hm Ha) as H1; rewrite E1 in H1;
         simpl in H1; by rewrite H1).
  - cbn [visit fst Driver.interp]. rewrite rename_current. by apply Ha.
  - apply andb_prop in Hp as [Hp Hp2]. apply andb_prop in Hp as [Hid Hp1].
    rewrite rename_let. cbn [Driver.interp].
    rewrite (IHd v rho rho' Hp1 Hm Ha).
    destruct (Driver.interp d rho) as [a |]; [| done]. cbn [mbind option_bind].
    destruct (visit d v) as [d' v1] eqn:E1. cbn [snd].
    pose proof (rename_scope _ _ _ _ E1) as Hs1.
    rewrite <- (Hs1 identifier).
    apply IHb; [done | |].
    + apply stacks_minted_push. by eapply stacks_minted_same.
    + apply agree_push; [done | by eapply stacks_minted_same |].
      by eapply agree_same.
Qed.

(** X17: on a tree whose identifiers contain no underscore (the lexer
    produces no other), renaming with a fresh [RenameVisitor] preserves the
    meaning: the renamed tree has, in every environment, the value of the
    original tree. *)
Theorem rename_preserves_meaning (e : expr) (rho : gmap string Z) :
  plain_tree e = true →
  Driver.interp (visit e init).1 rho = Driver.interp e rho.
Proof.
  intros Hp. apply rename_meaning; [done | |].
  - intros w n Hn. by apply elem_of_nil in Hn.
  - by intros w _.
Qed.

Lemma rename_preserves_meaning_witness :
  Driver.interp
    (visit (Let "x" (Num 2) (Let "x" (Add (Var "x") (Num 1)) (Var "x")))
       init).1 ∅ =
  Driver.interp
    (Let "x" (Num 2) (Let "x" (Add (Var "x") (Num 1)) (Var "x"))) ∅.
Proof.
  apply (rename_preserves_meaning
           (Let "x" (Num 2) (Let "x" (Add (Var "x") (Num 1)) (Var "x"))) ∅).
  reflexivity.
Defined.

(** The restriction to plain identifiers is needed: a free identifier that
    has the form of a minted name is captured. *)
Lemma rename_captures :
  Driver.interp (Let "x" (Num 1) (Add (Var "x") (Var "x_0")))
    {["x_0" := 5]} = Some 6 ∧
  Driver.interp
    (visit (Let "x" (Num 1) (Add (Var "x") (Var "x_0"))) init).1
    {["x_0" := 5]} = Some 2.
Proof. split; vm_compute; reflexivity. Qed.

End RenameCoverage.

(** * Let scoping of the generator *)
Section LetHygiene.
Import Expression Visitor Aux Shape.

(** ** The names of the generator are told apart *)

Lemma plain_app s t : plain (s +:+ t) = plain s && plain t.
Proof.
  induction s as [| a s IH]; simpl; [done |]. by rewrite IH, andb_assoc.
Qed.

Lemma plain_pretty_N_go x : ∀ s, plain s = true → plain (pretty_N_go x s) = true.
Proof.
  induction (N.lt_wf_0 x) as [x _ IH]; intros s Hs.
  assert (x = 0 ∨ 0 < x)%N as [-> | Hx] by lia.
  - by rewrite pretty_N_go_0.
  - rewrite pretty_N_go_step by done. apply IH.
    + by apply N.div_lt.
    + simpl. rewrite Hs, andb_true_r. unfold pretty_N_char.
      by repeat case_match.
Qed.

Lemma plain_pretty (k : nat) : plain (pretty k) = true.
Proof.
  unfold pretty, pretty_nat, pretty, pretty_N.
  case_decide; [done |]. by apply plain_pretty_N_go.
Qed.

Lemma underscore_not_plain s t : plain (s +:+ "_" +:+ t) = false.
Proof. rewrite plain_app. simpl. apply andb_false_r. Qed.

(** A name minted for a [let] tells the identifier and the depth. *)
Lemma depth_name_eq x y k j :
  depth_name x k = depth_name y j → x = y ∧ k = j.
Proof.
  intros H. assert (x = y) as ->; [| split; [done | by eapply depth_name_inj]].
  revert y H. unfold depth_name.
  induction x as [| a x IH]; intros [| c y] H.
  - done.
  - injection H as <- H. pose proof (underscore_not_plain y (pretty j)) as U.
    rewrite <- H in U. change (plain (pretty k) = false) in U.
    by rewrite plain_pretty in U.
  - injection H as -> H. pose proof (underscore_not_plain x (pretty k)) as U.
    rewrite H in U. change (plain (pretty j) = false) in U.
    by rewrite plain_pretty in U.
  - injection H as <- H. f_equal. by apply IH.
Qed.

Lemma counter_name_not_depth c x k : counter_name c ≠ Some (depth_name x k).
Proof.
  unfold counter_name. intros [= H].
  assert (plain ("v" +:+ pretty c) = true) as P
    by (rewrite plain_app, plain_pretty; done).
  by apply (plain_depth_name _ x k) in P.
Qed.

(** ** What a visit writes *)

Lemma mintable_deeper g g' n :
  (∀ w, (length (scope_of g w) ≤ length (scope_of g' w))%nat) →
  mintable g' n → mintable g n.
Proof.
  intros L [M | (x & k & -> & M)]; [by left | right].
  exists x, k. split; [done |]. specialize (L x). lia.
Qed.

Lemma mintable_same g g' l :
  (∀ w, scope_of g' w = scope_of g w) →
  Forall (mintable g') l → Forall (mintable g) l.
Proof.
  intros Sc F. eapply Forall_impl; [exact F |]. intros n.
  apply mintable_deeper. intros w. by rewrite Sc.
Qed.

Ltac step H :=
  let E := fresh "E" in
  apply bind_Ok in H as ([[? ?] ?] & E & H).

Ltac writes_node H :=
  unfold emit, next_var_name in H; simpl in H; injection H as <- <- <-;
  eexists; split;
    [ rewrite ?append_append, ?add_inst_append; reflexivity |];
  rewrite ?written_names_app, ?Forall_app; simpl; split_and?;
  try assumption;
  repeat (apply Forall_cons_2; [left; by eexists |]);
  apply Forall_nil_2.

Ltac writes_two H IHl IHr :=
  let Sc := fresh "Sc" in
  step H; step H;
  match goal with
  | E1 : visit _ _ _ = Ok _, E2 : visit _ _ _ = Ok _ |- _ =>
      pose proof (visit_scope _ _ _ _ _ _ E1) as [Sc _];
      apply IHl in E1 as (code1 & -> & W1);
      apply IHr in E2 as (code2 & -> & W2)
  end;
  match goal with
  | W : Forall (mintable _) (written_names _) |- _ =>
      eapply mintable_same in W; [| exact Sc]
  end;
  writes_node H.

Ltac writes_one H IHe :=
  step H;
  match goal with
  | E1 : visit _ _ _ = Ok _ |- _ => apply IHe in E1 as (code1 & -> & W1)
  end;
  writes_node H.

(** The instructions a visit appends write counter names and names of
    [let]s at depths that were not in use when the visit started. *)
Lemma visit_writes e : ∀ g prog r g' prog',
  visit e g prog = Ok (r, g', prog') →
  ∃ code, prog' = append_code prog code ∧
    Forall (mintable g) (written_names code).
Proof.
  induction e as [identifier | bln | num | l IHl r0 IHr | l IHl r0 IHr
                 | l IHl r0 IHr | l IHl r0 IHr | l IHl r0 IHr | l IHl r0 IHr
                 | l IHl r0 IHr | e IHe | e IHe | identifier d IHd b IHb];
    intros g prog r g' prog' H; simpl in H;
    try (writes_two H IHl IHr; fail); try (writes_one H IHe; fail).
  - apply bind_Ok in H as (x & _ & [= <- <- <-]). exists [].
    by rewrite append_nil.
  - destruct bln.
    + rewrite <- (append_nil prog) in H. writes_node H.
    + injection H as <- <- <-. exists []. by rewrite append_nil.
  - rewrite <- (append_nil prog) in H. writes_node H.
  - step H. step H. injection H as <- <- <-.
    pose proof (visit_scope _ _ _ _ _ _ E) as [Sd _].
    apply IHd in E as (code1 & -> & W1).
    pose proof (generate_scope identifier g0) as Sg.
    apply IHb in E0 as (code2 & -> & W2).
    eexists. split; [by rewrite add_inst_append, append_append |].
    rewrite !written_names_app, !Forall_app. split_and!; [done | |].
    + apply Forall_cons_2; [| apply Forall_nil_2]. right.
      exists identifier, (length (scope_of g0 identifier)).
      split; [done |]. by rewrite Sd.
    + eapply Forall_impl; [exact W2 |]. intros n. apply mintable_deeper.
      intros w. rewrite Sg, <- Sd. case_decide; [| done].
      rewrite length_app. lia.
Qed.

(** ** The bindings that are open *)

Lemma scopes_minted_init : scopes_minted init.
Proof. intros w j n. unfold scope_of. simpl. by rewrite lookup_empty. Qed.

Lemma scopes_minted_generate identifier g :
  scopes_minted g → scopes_minted (_generate_unique_name identifier g).2.
Proof.
  intros M w j n. rewrite generate_scope. case_decide as E; [| apply M].
  subst w. intros [L | [L [E <-]%list_lookup_singleton_Some]]%lookup_app_Some.
  - by apply M.
  - simpl. unfold depth_name. do 3 f_equal. lia.
Qed.

Lemma scopes_minted_pop identifier g :
  scopes_minted g → scopes_minted (_pop_variable identifier g).
Proof.
  intros M w j n. rewrite pop_scope. case_decide as E; [| apply M].
  subst w. intros L. apply M. rewrite removelast_firstn_len in L.
  by apply lookup_take_Some in L as [L _].
Qed.

(** A name that is on a scope stack is no name the visit may write. *)
Lemma open_not_mintable g w n :
  scopes_minted g → n ∈ scope_of g w → ¬ mintable g (Some n).
Proof.
  intros M [j L]%list_elem_of_lookup. pose proof (lookup_lt_Some _ _ _ L) as Lj.
  apply M in L as ->. intros [[c C] | (x & k & [= E] & K)].
  - symmetry in C. by apply counter_name_not_depth in C.
  - apply depth_name_eq in E as [<- <-]. lia.
Qed.

(** The code of a visit writes no name of a binding that is open when the
    visit starts, so running it leaves the value of every such binding. *)
Lemma visit_keeps_open e g prog r g' prog' :
  scopes_minted g → visit e g prog = Ok (r, g', prog') →
  ∃ code, Asm.insts prog' = Asm.insts prog ++ code ∧
    ∀ w n, n ∈ scope_of g w →
      (Some n ∉ written_names code) ∧
      ∀ p q, run code p = Ok q → Asm.env q !! Some n = Asm.env p !! Some n.
Proof.
  intros M V. destruct (visit_code _ _ _ _ _ _ V) as (code & -> & B & _).
  destruct (visit_writes _ _ _ _ _ _ V) as (code' & E & W).
  assert (code' = code) as ->.
  { apply (f_equal Asm.insts) in E. simpl in E. by apply app_inv_head in E. }
  exists code. split; [done |]. intros w n I.
  assert (Some n ∉ written_names code) as N.
  { intros J. rewrite Forall_forall in W.
    by apply (open_not_mintable g w n M I), W. }
  split; [done |]. intros p q R.
  by apply (run_binary_frame code p q B R).
Qed.

(** A visit leaves the scope stacks as it found them, so they still hold
    the names minted for them. *)
Lemma scopes_minted_restored e g prog r g' prog' :
  visit e g prog = Ok (r, g', prog') → scopes_minted g → scopes_minted g'.
Proof.
  intros V M w j n. destruct (visit_scope _ _ _ _ _ _ V) as [Sc _].
  rewrite Sc. apply M.
Qed.

(** C8: the nested [let]s of [v] evaluate to 3 (also after register
    allocation), and a [let] of [v] whose body adds an inner [let] of [v] and
    [v] itself evaluates to the sum of the two definitions: the outer binding
    has kept its value.  In general, once the visit of a [let] has returned,
    every identifier resolves as it did before the [let]: the bound
    identifier to the binding that was innermost before, else to its entry of
    the initial environment, else not at all; and no instruction that a visit
    appends writes the name of a binding that is open when the visit starts,
    so running the appended code leaves the value of every such binding.  The
    last part holds when every scope stack holds the names minted for it, as
    on a fresh visitor and all along a visit that starts on one. *)
Theorem let_scoping_hygienic :
  Driver.generate_eval 0 4 nested_lets = Ok 3 ∧
  Driver.generate_allocate_eval 4 10 nested_lets = Ok 3 ∧
  (∀ a b : Z,
     Driver.interp (shadowed_sum a b) ∅ = Some (b + a) ∧
     Driver.generate_eval 0 5 (shadowed_sum a b) = Ok (b + a) ∧
     Driver.generate_allocate_eval 5 20 (shadowed_sum a b) = Ok (b + a)) ∧
  (∀ identifier exp_def exp_body g prog r g' prog',
     visit (Let identifier exp_def exp_body) g prog = Ok (r, g', prog') →
     (∀ w, _get_current_var_name w g' prog' = _get_current_var_name w g prog) ∧
     (∀ stack outer, scope_of g identifier = stack ++ [outer] →
        _get_current_var_name identifier g' prog' = Ok outer) ∧
     (scope_of g identifier = [] →
      Asm.env prog !! Some identifier = None →
      _get_current_var_name identifier g' prog' = Err UnboundVariable)) ∧
  scopes_minted init ∧
  (∀ identifier g,
     scopes_minted g → scopes_minted (_generate_unique_name identifier g).2) ∧
  (∀ e g prog r g' prog',
     visit e g prog = Ok (r, g', prog') → scopes_minted g →
     scopes_minted g' ∧
     ∃ code, Asm.insts prog' = Asm.insts prog ++ code ∧
       ∀ w n, n ∈ scope_of g w →
         (Some n ∉ written_names code) ∧
         ∀ p q, run code p = Ok q →
           Asm.env q !! Some n = Asm.env p !! Some n).
Proof.
  split; [vm_compute; reflexivity |]. split; [vm_compute; reflexivity |].
  split.
  { intros a b. split; [simpl; f_equal; lia |].
    destruct a, b; split; vm_compute; reflexivity. }
  split.
  { intros identifier exp_def exp_body g prog r g' prog' Hvisit.
    apply visit_scope in Hvisit as [Hscope Henv].
    assert (∀ w, _get_current_var_name w g' prog' =
                 _get_current_var_name w g prog) as Hsame.
    { intros w. by rewrite !get_current_scope, Hscope, Henv. }
    split_and!; [done | |].
    - intros stack outer Hstack. rewrite Hsame, get_current_scope, Hstack.
      destruct stack as [| x l]; cbn [app]; [done |].
      f_equal. exact (last_last (x :: l) outer identifier).
    - intros Hstack Hunbound.
      by rewrite Hsame, get_current_scope, Hstack, Hunbound. }
  split; [apply scopes_minted_init |].
  split; [apply scopes_minted_generate |].
  intros e g prog r g' prog' V M.
  split; [by eapply scopes_minted_restored | by eapply visit_keeps_open].
Qed.

Lemma let_scoping_hygienic_witness :
  _get_current_var_name "v"
    {| next_var_counter := 2; var_scope := {["v" := ["v_0"]]} |}
    (append_code (Asm.new_Program 0 ∅ [])
       [Asm.Addi (Some "v1") (Some "x0") 2;
        Asm.Addi (Some "v_0") (Some "v1") 0;
        Asm.Addi (Some "v2") (Some "x0") 3;
        Asm.Addi (Some "v_1") (Some "v2") 0]) = Ok "v_0" ∧
  (Some "v_0" ∉ written_names [Asm.Addi (Some "v2") (Some "x0") 3;
                                Asm.Addi (Some "v_1") (Some "v2") 0]).
Proof.
  destruct let_scoping_hygienic as (_ & _ & _ & Hlet & Hinit & Hgen & Hopen).
  set (outer := append_code (Asm.new_Program 0 ∅ [])
                  [Asm.Addi (Some "v1") (Some "x0") 2;
                   Asm.Addi (Some "v_0") (Some "v1") 0]).
  set (g := {| next_var_counter := 1; var_scope := {["v" := ["v_0"]]} |}).
  assert (visit (Let "v" (Num 3) (Var "v")) g outer =
          Ok (Some "v_1",
              {| next_var_counter := 2; var_scope := {["v" := ["v_0"]]} |},
              append_code (Asm.new_Program 0 ∅ [])
                [Asm.Addi (Some "v1") (Some "x0") 2;
                 Asm.Addi (Some "v_0") (Some "v1") 0;
                 Asm.Addi (Some "v2") (Some "x0") 3;
                 Asm.Addi (Some "v_1") (Some "v2") 0])) as V
    by (vm_compute; reflexivity).
  split.
  - apply (proj1 (proj2 (Hlet _ _ _ _ _ _ _ _ V)) [] "v_0").
    vm_compute. reflexivity.
  - assert (scopes_minted g) as M.
    { replace g with
        (_generate_unique_name "v"
           {| next_var_counter := 1; var_scope := ∅ |}).2
        by (vm_compute; reflexivity).
      apply Hgen.
      apply (proj1 (Hopen (Num 2) init (Asm.new_Program 0 ∅ []) _ _ _
                      eq_refl Hinit)). }
    destruct (Hopen _ _ _ _ _ _ V M) as (_ & code & E & F).
    apply (app_inv_head [_; _]) in E. subst code.
    apply (F "v" "v_0"). vm_compute. left.
Defined.

(** ** The exit of the generator *)

(** X11: when a visit takes the unbound-identifier exit, the tree holds an
    identifier, outside the body of every [let] of it, whose scope stack was
    empty and which had no entry in the environment of the program when the
    visit started. *)
Theorem unbound_exit_free_identifier e : ∀ g prog err,
  visit e g prog = Err err →
  ∃ x, free_in x e = true ∧ scope_of g x = [] ∧
       Asm.env prog !! Some x = None.
Proof.
  induction e as [identifier | bln | num | l IHl r0 IHr | l IHl r0 IHr
                 | l IHl r0 IHr | l IHl r0 IHr | l IHl r0 IHr | l IHl r0 IHr
                 | l IHl r0 IHr | e IHe | e IHe | identifier d IHd b IHb];
    intros g prog err H; cbn [visit] in H;
    try (destruct (visit l g prog) as [[[r1 g1] p1] | e1] eqn:E1; simpl in H;
         [| apply IHl in E1 as (x & F & S & N); exists x; simpl;
            by rewrite F];
         pose proof (visit_scope _ _ _ _ _ _ E1) as [Sc En];
         destruct (visit r0 g1 p1) as [[[r2 g2] p2] | e2] eqn:E2; simpl in H;
         [done |];
         apply IHr in E2 as (x & F & S & N); exists x; simpl;
         rewrite F, orb_true_r, <- Sc, <- En; done);
    try (destruct (visit e g prog) as [[[r1 g1] p1] | e1] eqn:E1; simpl in H;
         [done |]; by apply IHe in E1).
  - rewrite get_current_scope in H. exists identifier. simpl.
    rewrite bool_decide_eq_true_2 by done.
    destruct (scope_of g identifier); [| done].
    by destruct (Asm.env prog !! Some identifier).
  - by destruct bln.
  - done.
  - destruct (visit d g prog) as [[[v g1] p1] | e1] eqn:E1.
    2: { apply IHd in E1 as (x & F & S & N). exists x. simpl. by rewrite F. }
    rewrite Ok_bind in H. cbn beta iota in H.
    pose proof (visit_scope _ _ _ _ _ _ E1) as [Sc En].
    pose proof (generate_scope identifier g1) as Sg.
    destruct (_generate_unique_name identifier g1) as [new_name g2] eqn:Eg.
    simpl in Sg. cbn beta iota zeta in H.
    destruct (visit b _ _) as [[[r2 g3] p3] | e2] eqn:E2; simpl in H; [done |].
    apply IHb in E2 as (x & F & S & N). exists x. simpl in N.
    rewrite Sg in S. case_decide as D.
    + by destruct (scope_of g1 x).
    + simpl. rewrite F, bool_decide_eq_false_2, orb_true_r by done.
      by rewrite <- Sc, <- En.
Qed.

Lemma unbound_exit_free_identifier_witness :
  ∃ x, free_in x (Let "x" (Num 1) (Add (Var "x") (Var "y"))) = true ∧
       scope_of init x = [] ∧
       Asm.env (Asm.new_Program 0 ∅ []) !! Some x = None.
Proof.
  apply (unbound_exit_free_identifier
           (Let "x" (Num 1) (Add (Var "x") (Var "y"))) init
           (Asm.new_Program 0 ∅ []) UnboundVariable).
  vm_compute. reflexivity.
Defined.

End LetHygiene.

(** * The scanner *)
Section LexerCoverage.
Import Lexer LexerShape.
Context `{Unicode}.
Local Open Scope nat_scope.

Lemma diff_signals_lookup c :
  diff_signals !! c =
    if decide (ord "<" = c) then Some l_lt
    else if decide (ord "(" = c) then Some l_left_par
    else if decide (ord "-" = c) then Some l_minus
    else if decide (ord "=" = c) then Some l_equal
    else None.
Proof.
  unfold diff_signals. cbn [list_to_map foldr fst snd].
  by rewrite !lookup_insert, lookup_empty.
Qed.

Lemma base_signals_lookup c :
  base_signals !! c =
    if decide (ord "*" = c) then Some (mkToken (codes "*") MUL)
    else if decide (ord "/" = c) then Some (mkToken (codes "/") DIV)
    else if decide (ord "~" = c) then Some (mkToken (codes "~") NEG)
    else if decide (ord ")" = c) then Some (mkToken (codes ")") RPR)
    else if decide (ord " " = c) then Some (mkToken (codes " ") WSP)
    else if decide (newline = c) then Some (mkToken [newline] NLN)
    else if decide (ord "=" = c) then Some (mkToken (codes "=") EQL)
    else if decide (ord "+" = c) then Some (mkToken (codes "+") ADD)
    else None.
Proof.
  unfold base_signals. cbn [list_to_map foldr fst snd].
  by rewrite !lookup_insert, lookup_empty.
Qed.

Lemma keys_lookup w :
  keys !! w =
    if decide (codes "true" = w) then Some TRU
    else if decide (codes "false" = w) then Some FLS
    else if decide (codes "not" = w) then Some NOT
    else if decide (codes "let" = w) then Some LET
    else if decide (codes "in" = w) then Some INX
    else if decide (codes "end" = w) then Some END
    else if decide (codes "if" = w) then Some IFX
    else if decide (codes "then" = w) then Some THN
    else if decide (codes "else" = w) then Some ELS
    else if decide (codes "or" = w) then Some ORX
    else if decide (codes "and" = w) then Some AND
    else if decide (codes "fn" = w) then Some FNX
    else None.
Proof.
  unfold keys. cbn [list_to_map foldr fst snd].
  by rewrite !lookup_insert, lookup_empty.
Qed.

(** A keyword is found under its spelling, and under no other text. *)
Lemma keys_spelling w k : keys !! w = Some k → w = spelling k ∧ k ≠ EOF ∧
  k ≠ WSP ∧ k ≠ COM ∧ k ≠ NLN ∧ k ≠ STR ∧ k ≠ NUM ∧ k ≠ VAR.
Proof.
  rewrite keys_lookup.
  repeat (case_decide as E; [intros [= <-]; subst w; by split_and!|clear E]).
  done.
Qed.

(** ** The loops *)

Lemma scan_length p rest : (length (scan p rest) ≤ length rest)%nat.
Proof. induction rest as [|c rest IH]; simpl; [lia|]. destruct (p c); simpl; lia. Qed.

Lemma scan_Forall p rest : Forall (λ c, p c = true) (scan p rest).
Proof.
  induction rest as [|c rest IH]; simpl; [constructor|].
  destruct (p c) eqn:E; by constructor.
Qed.

Lemma scan_app p l s :
  Forall (λ c, p c = true) l → stops p s → scan p (l ++ s) = l.
Proof.
  induction 1 as [|c l E _ IH]; intros S; simpl.
  - destruct s as [|c s]; [done|]. simpl. by rewrite (S c).
  - rewrite E. f_equal. by apply IH.
Qed.

Lemma skip_block_length rest : (skip_block rest ≤ length rest - 1)%nat.
Proof.
  induction rest as [|a rest IH]; simpl; [lia|].
  destruct rest as [|b rest]; [simpl; lia|].
  case_bool_decide; [lia|]. simpl in *. lia.
Qed.

(** ** A call reads the source from its position on *)

Lemma l_digit_drop source p c :
  l_digit source (S p) c =
    ((l_digit (drop p source) 1 c).1, (p + (l_digit (drop p source) 1 c).2)%nat).
Proof.
  unfold l_digit. rewrite drop_drop. replace (p + 1)%nat with (S p) by lia.
  simpl. f_equal. lia.
Qed.

Lemma l_string_drop source p c :
  l_string source (S p) c =
    ((l_string (drop p source) 1 c).1, (p + (l_string (drop p source) 1 c).2)%nat).
Proof.
  unfold l_string. rewrite drop_drop. replace (p + 1)%nat with (S p) by lia.
  simpl. f_equal. lia.
Qed.

Lemma action_drop c action source p :
  diff_signals !! c = Some action →
  action source (S p) =
    ((action (drop p source) 1).1, (p + (action (drop p source) 1).2)%nat).
Proof.
  rewrite diff_signals_lookup.
  assert (L : drop p source !! 1%nat = source !! S p)
    by (rewrite lookup_drop; f_equal; lia).
  assert (D : drop 1 (drop p source) = drop (S p) source)
    by (rewrite drop_drop; f_equal; lia).
  repeat case_decide; intros [= <-].
  - unfold l_lt. rewrite L. destruct (source !! S p); [|simpl; f_equal; lia].
    repeat case_decide; simpl; f_equal; lia.
  - unfold l_left_par. rewrite L, D. case_decide; simpl; f_equal; lia.
  - unfold l_minus. rewrite L, D. case_decide; simpl; f_equal; lia.
  - unfold l_equal. rewrite L. case_decide; simpl; f_equal; lia.
Qed.

Lemma getToken_drop source p :
  getToken source p =
    match getToken (drop p source) 0 with
    | Got t q => Got t (p + q)
    | Invalid c => Invalid c
    end.
Proof.
  unfold getToken. rewrite lookup_drop, Nat.add_0_r.
  destruct (source !! p) as [c|]; [|by rewrite Nat.add_0_r].
  cbv zeta. destruct (isdigit c).
  { rewrite l_digit_drop. by destruct (l_digit (drop p source) 1 c). }
  destruct (isalpha c).
  { rewrite l_string_drop. by destruct (l_string (drop p source) 1 c). }
  destruct (diff_signals !! c) as [action|] eqn:E.
  { rewrite (action_drop c action source p E).
    by destruct (action (drop p source) 1). }
  destruct (base_signals !! c); [|done]. f_equal. lia.
Qed.

(** ** Every call but the last one moves on *)

Lemma action_progress c action source p :
  diff_signals !! c = Some action →
  kind (action source p).1 ≠ EOF ∧ p ≤ (action source p).2 ∧
  (p ≤ length source → (action source p).2 ≤ length source + 1).
Proof.
  rewrite diff_signals_lookup.
  pose proof (scan_length (λ c, bool_decide (c ≠ newline)) (drop p source)) as L1.
  pose proof (skip_block_length (drop p source)) as L2.
  rewrite length_drop in L1, L2.
  repeat case_decide; intros [= <-].
  - unfold l_lt. destruct (source !! p) eqn:E; [|simpl; split_and!; (done || lia)].
    apply lookup_lt_Some in E.
    repeat case_decide; simpl; split_and!; (done || lia).
  - unfold l_left_par. case_decide as E; simpl; split_and!; try (done || lia).
    apply lookup_lt_Some in E. lia.
  - unfold l_minus. case_decide; simpl; split_and!; (done || lia).
  - unfold l_equal. case_decide; simpl; split_and!; (done || lia).
Qed.

Lemma keys_default w : default VAR (keys !! w) ≠ EOF.
Proof.
  destruct (keys !! w) as [k|] eqn:E; [|done].
  apply keys_spelling in E. simpl. tauto.
Qed.

Lemma base_signals_kind c t : base_signals !! c = Some t → kind t ≠ EOF.
Proof. rewrite base_signals_lookup. repeat case_decide; by intros [= <-]. Qed.

Lemma getToken_progress source p t q :
  getToken source p = Got t q →
  (kind t = EOF ∧ text t = [] ∧ q = p ∧ length source ≤ p) ∨
  (kind t ≠ EOF ∧ p < length source ∧ p < q ≤ length source + 1).
Proof.
  unfold getToken. destruct (source !! p) as [c|] eqn:E.
  2: { intros [= <- <-]. left. by apply lookup_ge_None in E. }
  apply lookup_lt_Some in E. cbv zeta. intros G. right.
  destruct (isdigit c).
  { unfold l_digit in G. injection G as <- <-. simpl.
    pose proof (scan_length isdigit (drop (S p) source)) as L.
    rewrite length_drop in L. split; [done|lia]. }
  destruct (isalpha c).
  { unfold l_string in G. injection G as <- <-. simpl.
    pose proof (scan_length (λ c, isalpha c || isdigit c) (drop (S p) source)) as L.
    rewrite length_drop in L. split; [apply keys_default|lia]. }
  destruct (diff_signals !! c) as [action|] eqn:D.
  { destruct (action_progress c action source (S p) D) as (K & L & U).
    destruct (action source (S p)) as [t' q']. injection G as <- <-.
    simpl in *. split; [done|lia]. }
  destruct (base_signals !! c) as [t'|] eqn:B; [|done].
  injection G as <- <-. split; [by eapply base_signals_kind|lia].
Qed.

Lemma tokens_from_enough fuel source p :
  (length source - p < fuel)%nat → is_Some (tokens_from fuel source p).
Proof.
  revert p. induction fuel as [|fuel IH]; intros p L; [lia|]. simpl.
  destruct (getToken source p) as [t q|c] eqn:G; [|done].
  case_decide as K; [done|].
  destruct (getToken_progress _ _ _ _ G) as [[? _]|(_ & L1 & L2 & _)]; [done|].
  destruct (IH q) as [r ->]; [lia|]. done.
Qed.

Lemma tokens_from_fuel fuel fuel' source p :
  length source - p < fuel → length source - p < fuel' →
  tokens_from fuel source p = tokens_from fuel' source p.
Proof.
  revert fuel' p. induction fuel as [|fuel IH]; intros [|fuel'] p L L'; try lia.
  cbn [tokens_from]. destruct (getToken source p) as [t q|c] eqn:G; [|done].
  case_decide as K; [done|].
  destruct (getToken_progress _ _ _ _ G) as [[? _]|(_ & L1 & L2 & _)]; [done|].
  by rewrite (IH fuel' q) by lia.
Qed.

Lemma tokens_from_drop fuel source p :
  length source - p < fuel →
  tokens_from fuel source p = tokens (drop p source).
Proof.
  unfold tokens. revert source p.
  induction fuel as [|fuel IH]; intros source p L; [lia|].
  cbn [tokens_from]. rewrite (getToken_drop source p).
  destruct (getToken (drop p source) 0) as [t q|c] eqn:G; [|done].
  case_decide as K; [done|].
  destruct (getToken_progress _ _ _ _ G) as [[? _]|(_ & L1 & L2 & _)]; [done|].
  rewrite length_drop in L1.
  rewrite (IH source (p + q)) by lia.
  rewrite (tokens_from_fuel _ fuel (drop p source) q)
    by (rewrite length_drop; lia).
  rewrite (IH (drop p source) q) by (rewrite length_drop; lia).
  by rewrite drop_drop.
Qed.

(** One turn of the loop of [tokens]. *)
Lemma tokens_unfold source t q :
  getToken source 0 = Got t q → kind t ≠ EOF →
  tokens source =
    rest ← tokens (drop q source);
    Some (if decide (kind t ≠ WSP ∧ kind t ≠ COM ∧ kind t ≠ NLN)
          then yield t rest else rest).
Proof.
  intros G K. unfold tokens at 1. cbn [tokens_from]. rewrite G.
  case_decide; [done|].
  destruct (getToken_progress _ _ _ _ G) as [[? _]|(_ & L1 & L2 & _)]; [done|].
  by rewrite tokens_from_drop by lia.
Qed.

Lemma tokens_nil : tokens [] = Some (Tokens []).
Proof. done. Qed.

(** X18: every call of [getToken] that does not return the end of file
    starts inside the source and moves the position forward, to at most one
    place past the end; a call at or past the end returns the end of file
    with an empty text and leaves the position.  So the loop of [tokens]
    ends on every source, within one turn per character and one more. *)
Theorem lexer_terminates source :
  (∀ p t q, getToken source p = Got t q →
     (kind t = EOF ∧ text t = [] ∧ q = p ∧ length source ≤ p) ∨
     (kind t ≠ EOF ∧ p < length source ∧ p < q ≤ length source + 1)) ∧
  ∃ r, tokens source = Some r ∧
       ∀ fuel, length source < fuel → tokens_from fuel source 0 = Some r.
Proof.
  split; [apply getToken_progress|].
  destruct (tokens_from_enough (S (length source)) source 0) as [r E]; [lia|].
  exists r. split; [done|]. intros fuel L.
  rewrite <- E. apply tokens_from_fuel; lia.
Qed.

(** ** The tokens that are yielded *)

Lemma tokens_from_yielded (P : Token → Prop) fuel source p r :
  (∀ p t q, getToken source p = Got t q →
     kind t ≠ EOF → kind t ≠ WSP → kind t ≠ COM → kind t ≠ NLN → P t) →
  tokens_from fuel source p = Some r → Forall P (yielded r).
Proof.
  intros HP. revert p r. induction fuel as [|fuel IH]; intros p r; [done|].
  cbn [tokens_from]. destruct (getToken source p) as [t q|c] eqn:G.
  2: { intros [= <-]. constructor. }
  case_decide as K; [intros [= <-]; constructor|].
  destruct (tokens_from fuel source q) as [rest|] eqn:E; [|done].
  apply IH in E. simpl. intros [= <-].
  case_decide as D; [|done]. destruct D as (? & ? & ?).
  destruct rest; simpl in *; constructor; eauto.
Qed.

Lemma action_spelled c action source p :
  diff_signals !! c = Some action →
  kind (action source p).1 = COM ∨ spelled (action source p).1.
Proof.
  rewrite diff_signals_lookup. repeat case_decide; intros [= <-].
  - unfold l_lt. destruct (source !! p); [|by right].
    repeat case_decide; by right.
  - unfold l_left_par. case_decide; [by left|by right].
  - unfold l_minus. case_decide; [by left|by right].
  - unfold l_equal. case_decide; by right.
Qed.

(** X19: every token that [tokens] yields is as the parser expects it: a
    number is a non-empty run of digit characters, an identifier is a letter
    followed by letters and digits and is none of the twelve keywords, every
    other token has exactly the text of its kind, and no yielded token is an
    end of file, a blank, a new line, a comment or a string. *)
Theorem yielded_tokens_spelled source r :
  tokens source = Some r → Forall spelled (yielded r).
Proof.
  apply tokens_from_yielded. clear r. intros p t q.
  unfold getToken. destruct (source !! p) as [c|]; [|by intros [= <- <-]].
  cbv zeta. destruct (isdigit c) eqn:Dc.
  { intros [= <- <-] _ _ _ _. split; [done|].
    constructor; [done|apply scan_Forall]. }
  destruct (isalpha c) eqn:Ac.
  { intros [= <- <-] _ _ _ _. unfold spelled. cbn [kind text].
    destruct (keys !! _) as [k|] eqn:E; cbn [default].
    - apply keys_spelling in E as (E & ?). destruct k; tauto.
    - split; [|done]. eexists _, _. split_and!; [done..|].
      apply (scan_Forall (λ c, isalpha c || isdigit c)). }
  destruct (diff_signals !! c) as [action|] eqn:D.
  { destruct (action_spelled c action source (S p) D) as [K|K];
      destruct (action source (S p)) as [t' q']; intros [= <- <-]; done. }
  destruct (base_signals !! c) as [t'|] eqn:B; [|done].
  intros [= <- <-]. revert B. rewrite base_signals_lookup.
  repeat case_decide; intros [= <-]; done.
Qed.

(** ** The error *)

Lemma diff_signals_None c :
  diff_signals !! c = None ↔
  c ∉ [ord "<"; ord "("; ord "-"; ord "="].
Proof.
  rewrite diff_signals_lookup, !not_elem_of_cons.
  repeat (case_decide;
    [split; [done|]; intros ?; destruct_and!; congruence|]).
  split; [|done]. intros _. split_and!; try congruence. apply not_elem_of_nil.
Qed.

Lemma base_signals_None c :
  base_signals !! c = None ↔
  c ∉ [ord "*"; ord "/"; ord "~"; ord ")"; ord " "; newline; ord "=";
       ord "+"].
Proof.
  rewrite base_signals_lookup, !not_elem_of_cons.
  repeat (case_decide;
    [split; [done|]; intros ?; destruct_and!; congruence|]).
  split; [|done]. intros _. split_and!; try congruence. apply not_elem_of_nil.
Qed.

Lemma signal_chars_split c :
  c ∉ signal_chars ↔
  diff_signals !! c = None ∧ base_signals !! c = None.
Proof.
  rewrite diff_signals_None, base_signals_None. unfold signal_chars.
  rewrite !not_elem_of_cons. tauto.
Qed.

Lemma getToken_invalid source p c :
  getToken source p = Invalid c ↔
  source !! p = Some c ∧ isdigit c = false ∧ isalpha c = false ∧
  c ∉ signal_chars.
Proof.
  rewrite signal_chars_split. unfold getToken.
  destruct (source !! p) as [c'|]; [|split; [done|by intros [? _]]].
  cbv zeta. split.
  - destruct (isdigit c') eqn:D; [by destruct (l_digit _ _ _)|].
    destruct (isalpha c') eqn:A; [by destruct (l_string _ _ _)|].
    destruct (diff_signals !! c') as [action|] eqn:S;
      [by destruct (action _ _)|].
    destruct (base_signals !! c') eqn:B; [done|]. by intros [= <-].
  - intros ([= ->] & -> & -> & -> & ->). done.
Qed.

Lemma tokens_from_error fuel source p l c :
  tokens_from fuel source p = Some (ValueError l c) →
  ∃ q, getToken source q = Invalid c.
Proof.
  revert p l. induction fuel as [|fuel IH]; intros p l; [done|].
  cbn [tokens_from]. destruct (getToken source p) as [t q|c'] eqn:G.
  2: { intros [= <- <-]. by exists p. }
  case_decide as K; [done|].
  destruct (tokens_from fuel source q) as [rest|] eqn:E; [|done].
  simpl. case_decide; destruct rest; simpl; intros [= <- <-] || intros [=];
    by eapply IH.
Qed.

(** X20: [tokens] raises [ValueError] only on a character of the source that
    is no digit, no letter and none of the eleven signal characters, and never
    on a source made of digits, letters and signal characters only: there it
    ends normally. *)
Theorem invalid_character source :
  (∀ l c, tokens source = Some (ValueError l c) →
     c ∈ source ∧ isdigit c = false ∧ isalpha c = false ∧
     c ∉ signal_chars) ∧
  (Forall (λ c, isdigit c = true ∨ isalpha c = true ∨ c ∈ signal_chars)
     source →
   ∃ l, tokens source = Some (Tokens l)).
Proof.
  assert (E : ∀ l c, tokens source = Some (ValueError l c) →
     c ∈ source ∧ isdigit c = false ∧ isalpha c = false ∧
     c ∉ signal_chars).
  { intros l c T. apply tokens_from_error in T as [q G].
    apply getToken_invalid in G as (G & ?). split; [|done].
    by eapply list_elem_of_lookup_2. }
  split; [done|]. intros F.
  destruct (tokens_from_enough (S (length source)) source 0) as [r T]; [lia|].
  fold (tokens source) in T. destruct r as [l|l c]; [by exists l|].
  destruct (E l c T) as (I & D & A & S).
  rewrite Forall_forall in F. destruct (F c I) as [?|[?|?]]; congruence.
Qed.

(** ** Blanks and comments *)

Lemma tokens_skip source t q :
  getToken source 0 = Got t q → kind t = WSP ∨ kind t = COM ∨ kind t = NLN →
  tokens source = tokens (drop q source).
Proof.
  intros G K.
  assert (E : kind t ≠ EOF)
    by (intros E; rewrite E in K; by destruct K as [|[|]]).
  rewrite (tokens_unfold source t q G E).
  destruct (tokens (drop q source)); [|done]. simpl.
  case_decide as D; [|done]. destruct D as (? & ? & ?).
  by destruct K as [|[|]].
Qed.

Lemma tokens_keep source t q :
  getToken source 0 = Got t q →
  kind t ≠ EOF → kind t ≠ WSP → kind t ≠ COM → kind t ≠ NLN →
  tokens source = yield t <$> tokens (drop q source).
Proof.
  intros G ? ? ? ?. rewrite (tokens_unfold source t q G) by done.
  destruct (tokens (drop q source)); [|done]. simpl.
  case_decide as D; [done|]. by destruct D.
Qed.

Lemma getToken_line line s :
  newline ∉ line → stops (λ c, bool_decide (c ≠ newline)) s →
  getToken (codes "--" ++ line ++ s) 0 =
    Got (mkToken (codes "--") COM) (length line + 3).
Proof.
  intros N S. unfold getToken. cbn [codes app lookup list_lookup].
  change (isdigit _) with false. change (isalpha _) with false. cbv iota zeta.
  rewrite diff_signals_lookup. do 2 (case_decide; [done|]).
  case_decide; [|done]. unfold l_minus. cbn [lookup list_lookup drop].
  case_decide; [|done].
  rewrite app_comm_cons.
  rewrite (scan_app _ (_ :: line) s); [f_equal; simpl; lia| |done].
  constructor; [done|]. apply Forall_forall. intros c I.
  apply bool_decide_eq_true. by intros ->.
Qed.

(** X21: blanks, new lines and line comments in front of a source change
    nothing: [tokens] gives on the source what it gives on the rest.  A line
    comment runs up to and including the first new line, or to the end of
    the source when there is none. *)
Theorem blanks_dropped s :
  tokens (ord " " :: s) = tokens s ∧
  tokens (newline :: s) = tokens s ∧
  ∀ line, newline ∉ line →
    tokens (codes "--" ++ line ++ newline :: s) = tokens s ∧
    tokens (codes "--" ++ line) = Some (Tokens []).
Proof.
  split_and!.
  - by rewrite (tokens_skip _ (mkToken (codes " ") WSP) 1); [|done|left].
  - by rewrite (tokens_skip _ (mkToken [newline] NLN) 1); [|done|right; right].
  - intros line N. split.
    + rewrite (tokens_skip _ _ _ (getToken_line line (newline :: s) N
        ltac:(by intros c [= <-]))) by (right; by left).
      rewrite (app_assoc _ line), (cons_middle newline), (app_assoc _ [_]).
      rewrite drop_app_length'; [done|]. rewrite !length_app. simpl. lia.
    + pose proof (getToken_line line [] N ltac:(by intros c [=])) as G.
      rewrite app_nil_r in G.
      rewrite (tokens_skip _ _ _ G) by (right; by left).
      rewrite drop_ge; [done|]. rewrite length_app. simpl. lia.
Qed.

Lemma skip_block_closed l s :
  closes (l ++ [ord "*"]) = false →
  skip_block (l ++ ord "*" :: ord ")" :: s) = length l.
Proof.
  induction l as [|a l IH]; [done|]. intros C.
  change (closes ((a :: l) ++ [ord "*"])) with (closes (a :: l ++ [ord "*"])) in C.
  change ((a :: l) ++ ord "*" :: ord ")" :: s)
    with (a :: l ++ ord "*" :: ord ")" :: s).
  cbn [closes skip_block] in *.
  destruct l as [|b l]; cbn [app] in *;
    apply orb_false_iff in C as [C1 C2]; rewrite C1;
    cbn [length]; f_equal; by apply IH.
Qed.

Lemma skip_block_open l : closes l = false → skip_block l = length l - 1.
Proof.
  induction l as [|a l IH]; [done|]. cbn [closes skip_block].
  destruct l as [|b l]; [done|]. intros [C1 C2]%orb_false_iff.
  rewrite C1, IH by done. simpl. lia.
Qed.

Lemma getToken_block rest :
  getToken (ord "(" :: ord "*" :: rest) 0 =
    Got (mkToken [ord "("; ord "*"] COM) (skip_block (ord "*" :: rest) + 3).
Proof.
  unfold getToken. cbn [lookup list_lookup].
  change (isdigit _) with false. change (isalpha _) with false. cbv iota zeta.
  rewrite diff_signals_lookup. case_decide; [done|].
  case_decide; [|done]. unfold l_left_par. cbn [lookup list_lookup drop].
  case_decide; [|done]. f_equal. lia.
Qed.

(** X22: a block comment in front of a source changes nothing, where the
    comment ends with the first star followed by a closing parenthesis that
    is found from the star of the opening on.  So an opening parenthesis, a
    star and a closing parenthesis are a whole comment, and a block comment
    that is never closed takes the rest of the source, without an error. *)
Theorem block_comments_dropped s :
  (∀ body, closes (ord "*" :: body ++ [ord "*"]) = false →
     tokens (ord "(" :: ord "*" :: body ++ ord "*" :: ord ")" :: s) =
     tokens s) ∧
  tokens (ord "(" :: ord "*" :: ord ")" :: s) = tokens s ∧
  (∀ body, closes (ord "*" :: body) = false →
     tokens (ord "(" :: ord "*" :: body) = Some (Tokens [])).
Proof.
  split_and!.
  - intros body C.
    rewrite (tokens_skip _ _ _ (getToken_block _)) by (right; by left).
    change (ord "*" :: body ++ ord "*" :: ord ")" :: s)
      with ((ord "*" :: body) ++ ord "*" :: ord ")" :: s) at 1.
    rewrite (skip_block_closed (ord "*" :: body) s C).
    replace (ord "(" :: ord "*" :: body ++ ord "*" :: ord ")" :: s)
      with ((ord "(" :: ord "*" :: body ++ [ord "*"; ord ")"]) ++ s)
      by (simpl; by rewrite <- app_assoc).
    rewrite drop_app_length'; [done|]. simpl. rewrite length_app. simpl. lia.
  - by rewrite (tokens_skip _ _ _ (getToken_block _)) by (right; by left).
  - intros body C.
    rewrite (tokens_skip _ _ _ (getToken_block _)) by (right; by left).
    rewrite (skip_block_open _ C). rewrite drop_ge; [done|]. simpl. lia.
Qed.

(** ** Numbers and words *)

(** X23: a number and a word are read whole.  A non-empty run of digits
    followed by a source that does not start with a digit is yielded as one
    NUM token with the run as its text, and a letter followed by letters and
    digits, before a source that starts with neither, is yielded as one
    token with these characters as its text, of the kind [keys] gives it or
    else VAR; the tokens of the rest follow. *)
Theorem longest_match s :
  (∀ c ds, isdigit c = true → Forall (λ c, isdigit c = true) ds →
     stops isdigit s →
     tokens (c :: ds ++ s) = yield (mkToken (c :: ds) NUM) <$> tokens s) ∧
  (∀ c more, isdigit c = false → isalpha c = true →
     Forall (λ c, isalnum c = true) more → stops isalnum s →
     tokens (c :: more ++ s) =
       yield (mkToken (c :: more) (default VAR (keys !! (c :: more))))
         <$> tokens s).
Proof.
  split.
  - intros c ds D F St.
    assert (G : getToken (c :: ds ++ s) 0 =
                Got (mkToken (c :: ds) NUM) (S (length ds))).
    { unfold getToken. cbn [lookup list_lookup]. rewrite D. cbv zeta.
      unfold l_digit. cbn [drop]. rewrite drop_0.
      by rewrite (scan_app _ ds s F St). }
    rewrite (tokens_keep _ _ _ G) by done.
    change (c :: ds ++ s) with ((c :: ds) ++ s).
    by rewrite drop_app_length'.
  - intros c more D A F St.
    assert (G : getToken (c :: more ++ s) 0 =
                Got (mkToken (c :: more) (default VAR (keys !! (c :: more))))
                    (S (length more))).
    { unfold getToken. cbn [lookup list_lookup]. rewrite D, A. cbv zeta.
      unfold l_string. cbn [drop]. rewrite drop_0.
      by rewrite (scan_app (λ c, isalpha c || isdigit c) more s F St). }
    assert (K : ∀ k, keys !! (c :: more) = Some k →
                k ≠ EOF ∧ k ≠ WSP ∧ k ≠ COM ∧ k ≠ NLN)
      by (intros k E%keys_spelling; tauto).
    rewrite (tokens_keep _ _ _ G).
    + change (c :: more ++ s) with ((c :: more) ++ s).
      by rewrite drop_app_length'.
    + cbn [kind]. destruct (keys !! _) as [k|]; [by apply K|done].
    + cbn [kind]. destruct (keys !! _) as [k|]; [by apply K|done].
    + cbn [kind]. destruct (keys !! _) as [k|]; [by apply K|done].
    + cbn [kind]. destruct (keys !! _) as [k|]; [by apply K|done].
Qed.

End LexerCoverage.

(** ** Examples, with tables that class ASCII only *)
Section LexerExamples.
Import Lexer LexerShape.

Lemma yielded_tokens_spelled_witness :
  Forall (@spelled ascii_only)
    [mkToken (codes "let") LET; mkToken (codes "v1") VAR;
     mkToken (codes "<-") ASN; mkToken (codes "20") NUM].
Proof.
  apply (@yielded_tokens_spelled ascii_only (codes "let v1 <- 20")
           (Tokens [mkToken (codes "let") LET; mkToken (codes "v1") VAR;
                    mkToken (codes "<-") ASN; mkToken (codes "20") NUM])).
  vm_compute. reflexivity.
Defined.

Lemma invalid_character_witness :
  ord "?" ∈ codes "1 ? 2" ∧ @isdigit ascii_only (ord "?") = false ∧
  @isalpha ascii_only (ord "?") = false ∧ ord "?" ∉ signal_chars.
Proof.
  apply (proj1 (@invalid_character ascii_only (codes "1 ? 2"))
           [mkToken (codes "1") NUM] (ord "?")).
  vm_compute. reflexivity.
Defined.

Lemma blanks_dropped_witness :
  @tokens ascii_only (codes "-- 3" ++ newline :: codes "1") =
    @tokens ascii_only (codes "1") ∧
  @tokens ascii_only (codes "-- 3") = Some (Tokens []).
Proof.
  apply (proj2 (proj2 (@blanks_dropped ascii_only (codes "1"))) (codes " 3")).
  by apply (bool_decide_unpack _).
Defined.

Lemma block_comments_dropped_witness :
  @tokens ascii_only
    (ord "(" :: ord "*" :: codes " 2 " ++ ord "*" :: ord ")" :: codes "1") =
  @tokens ascii_only (codes "1").
Proof.
  apply (proj1 (@block_comments_dropped ascii_only (codes "1")) (codes " 2 ")).
  vm_compute. reflexivity.
Defined.

Lemma longest_match_witness :
  @tokens ascii_only (codes "12+3") =
    yield (mkToken (codes "12") NUM) <$> @tokens ascii_only (codes "+3").
Proof.
  apply (proj1 (@longest_match ascii_only (codes "+3")) (ord "1") (codes "2")).
  - reflexivity.
  - by repeat constructor.
  - by intros c [= <-].
Defined.

End LexerExamples.

(** * The parser *)
Section ParserCoverage.
Import Lexer Parser ParserShape.
Context `{Builtins}.
Variable tokens : list Token.
Local Open Scope nat_scope.

(** ** The rules of [post] *)

Lemma post_ret {A} (a : A) i (P : A → nat → Prop) :
  i ≤ length tokens → P a i → post tokens (mret a) i P.
Proof. unfold post, mret, M_ret. lia || (split; [lia|done]). Qed.

Lemma post_raise {A} e i (P : A → nat → Prop) :
  i ≤ length tokens → fault tokens e i → post tokens (raise e) i P.
Proof. unfold post, raise. split; [lia|done]. Qed.

Lemma post_bind {A B} (c : M A) (k : A → M B) i (P : B → nat → Prop) :
  post tokens c i (λ a j, post tokens (k a) j P) →
  post tokens (c ≫= k) i P.
Proof.
  unfold post, mbind, M_bind. destruct (c i) as [a j|e j|]; [|done..].
  intros [L K]. destruct (k a j) as [b j'|e j'|]; [| |done].
  - destruct K as [L' K]. split; [lia|done].
  - destruct K as [L' K]. split; [lia|done].
Qed.

Lemma post_mono {A} (c : M A) i (P Q : A → nat → Prop) :
  post tokens c i P → (∀ a j, i ≤ j ≤ length tokens → P a j → Q a j) →
  post tokens c i Q.
Proof.
  unfold post. destruct (c i) as [a j|e j|]; [|done..].
  intros [L K] I. split; [done|]. by apply I.
Qed.

Lemma post_current_token i (P : option Token → nat → Prop) :
  i ≤ length tokens → P (tokens !! i) i → post tokens (current_token tokens) i P.
Proof. unfold post, current_token. split; [lia|done]. Qed.

Lemma post_advance i (P : unit → nat → Prop) :
  i < length tokens → P tt (S i) → post tokens advance i P.
Proof. unfold post, advance. split; [lia|done]. Qed.

Lemma post_kind_of i (P : TokenType → nat → Prop) :
  i ≤ length tokens →
  (∀ t, tokens !! i = Some t → P (kind t) i) →
  post tokens (kind_of (tokens !! i)) i P.
Proof.
  intros L K. destruct (tokens !! i) as [t|] eqn:E; simpl.
  - apply post_ret; [done|]. by apply K.
  - apply post_raise; [done|]. apply lookup_ge_None in E. simpl. lia.
Qed.

Lemma post_text_of i j (P : list N → nat → Prop) :
  j ≤ length tokens → (i = j → i ≤ length tokens) →
  (∀ t, tokens !! i = Some t → P (text t) j) →
  (tokens !! i = None → j = length tokens) →
  post tokens (text_of (tokens !! i)) j P.
Proof.
  intros L _ K E. destruct (tokens !! i) as [t|]; simpl.
  - apply post_ret; [done|]. by apply K.
  - apply post_raise; [done|]. simpl. by apply E.
Qed.

Lemma post_expect token_type i (P : unit → nat → Prop) :
  i ≤ length tokens →
  (∀ t, tokens !! i = Some t → kind t = token_type → P tt (S i)) →
  post tokens (expect tokens token_type) i P.
Proof.
  intros L K. unfold expect. apply post_bind, post_current_token; [done|].
  destruct (tokens !! i) as [t|] eqn:E.
  - case_decide as D.
    + apply post_raise; [done|]. by left.
    + apply lookup_lt_Some in E as E'. apply post_advance; [done|].
      apply (K t); [done|]. by destruct (decide (kind t = token_type)).
  - apply post_raise; [done|]. by left.
Qed.

Lemma post_continues ops i (P : bool → nat → Prop) :
  i ≤ length tokens →
  ((∃ t, tokens !! i = Some t ∧ kind t ∈ ops) → P true i) →
  P false i →
  post tokens (continues tokens ops) i P.
Proof.
  intros L T F. unfold continues. apply post_bind, post_current_token; [done|].
  destruct (tokens !! i) as [t|] eqn:E; [|by apply post_ret].
  apply post_ret; [done|]. case_bool_decide; [|done]. apply T. by exists t.
Qed.

Ltac prim :=
  first
    [ apply post_ret; [lia|]
    | apply post_raise; [lia|]
    | apply post_bind, post_ret; [lia|]
    | apply post_bind, post_raise; [lia|]
    | apply post_bind, post_current_token; [lia|]
    | apply post_bind, post_advance; [lia|]
    | apply post_bind, post_expect; [lia|intros ? ?%lookup_lt_Some _] ];
  cbv beta.

Ltac call lem :=
  apply post_bind; eapply post_mono; [apply lem; lia|];
  cbv beta; intros ? ? ? ?.

(** ** The methods below [parse_exp] *)

Section BelowPost.
Variable rec : M tree.
Variables lo turns : nat.
Hypothesis Hrec :
  ∀ i, lo < i ≤ length tokens → post tokens rec i (λ _ j, i < j).
Hypothesis Hturns : length tokens ≤ turns.

Lemma post_parse_value_token i :
  lo ≤ i ≤ length tokens →
  post tokens (parse_value_token tokens rec) i (λ _ j, i < j).
Proof.
  intros Li. unfold parse_value_token. prim.
  destruct (tokens !! i) as [t|] eqn:E; cbn [kind_of text_of].
  2: { prim. apply lookup_ge_None in E. simpl. lia. }
  apply lookup_lt_Some in E as Lt. prim.
  case_decide as K1; [do 3 prim; lia|].
  case_decide as K2; [prim; call Hrec; do 2 prim; lia|].
  case_decide as K3.
  { do 2 prim. destruct (int (text t)) eqn:I; prim; [lia|].
    exists t. by split_and!; [lia|..]. }
  case_decide as K4; [do 2 prim; lia|].
  prim. right. split; [done|]. right. exists t. split; [done|].
  rewrite !not_elem_of_cons in *. tauto.
Qed.

Lemma post_parse_value_while n ops exp i :
  lo ≤ i ≤ length tokens → length tokens - i ≤ n →
  post tokens (parse_value_while tokens rec n ops exp) i (λ _ _, True).
Proof.
  revert exp i. induction n as [|n IH]; intros exp i Li Lt;
    cbn [parse_value_while];
    (apply post_bind, post_continues; [lia| |by prim]);
    intros (t & E%lookup_lt_Some & _); [lia|].
  call post_parse_value_token.
  eapply post_mono; [apply IH; lia|done].
Qed.

Lemma post_parse_value n i :
  lo ≤ i ≤ length tokens → length tokens - i ≤ n →
  post tokens (parse_value tokens rec n) i (λ _ j, i < j).
Proof.
  intros Li Lt. unfold parse_value. call post_parse_value_token.
  eapply post_mono; [apply post_parse_value_while; lia|].
  cbv beta. lia.
Qed.

Lemma post_parse_let n i :
  lo ≤ i ≤ length tokens → length tokens - i ≤ n →
  post tokens (parse_let tokens rec n) i (λ _ j, i < j).
Proof.
  intros Li Lt. unfold parse_let. prim.
  destruct (tokens !! i) as [t|] eqn:E; cbn [kind_of].
  2: { prim. apply lookup_ge_None in E. simpl. lia. }
  apply lookup_lt_Some in E as Lt'. prim.
  case_decide; [|by apply post_parse_value].
  do 2 prim. destruct (tokens !! S i) as [t'|] eqn:E'; cbn [text_of].
  2: { prim. apply lookup_ge_None in E'. simpl. lia. }
  apply lookup_lt_Some in E' as Lt''.
  do 3 prim. call Hrec. prim. call Hrec. do 2 prim. lia.
Qed.

Lemma post_parse_unary n depth i :
  lo ≤ i ≤ length tokens → length tokens - i ≤ n →
  length tokens - i ≤ depth →
  post tokens (parse_unary tokens rec n depth) i (λ _ j, i < j).
Proof.
  revert i. induction depth as [|depth IH]; intros i Li Lt Ld;
    cbn [parse_unary]; prim;
    (destruct (tokens !! i) as [t|] eqn:E; cbn [kind_of];
     [|prim; apply lookup_ge_None in E; simpl; lia]);
    apply lookup_lt_Some in E as Lt'; prim;
    (case_decide; [try lia|]);
    try (case_decide; [try lia|]);
    try by apply post_parse_let.
  - unfold parse_not. prim. call IH. prim. lia.
  - unfold parse_neg. prim. call IH. prim. lia.
Qed.

Lemma post_getitem op_cls kind i (P : (tree → tree → tree) → nat → Prop) :
  i ≤ length tokens → kind ∈ op_cls.*1 → (∀ cls, P cls i) →
  post tokens (getitem op_cls kind) i P.
Proof.
  intros Li K HP. unfold getitem.
  destruct (list_find _ op_cls) as [[n [k cls]]|] eqn:E; [by prim|].
  apply list_find_None in E. apply list_elem_of_fmap in K as ([k cls] & -> & K).
  rewrite Forall_forall in E. by destruct (E _ K).
Qed.

Lemma post_parse_binary_while n parser ops op_cls left_expr i :
  (∀ i, lo ≤ i ≤ length tokens → post tokens parser i (λ _ j, i < j)) →
  (∀ k, k ∈ ops → k ∈ op_cls.*1) →
  lo ≤ i ≤ length tokens → length tokens - i ≤ n →
  post tokens (parse_binary_while tokens n parser ops op_cls left_expr) i
    (λ _ _, True).
Proof.
  intros Hp Hops. revert left_expr i.
  induction n as [|n IH]; intros left_expr i Li Lt;
    cbn [parse_binary_while];
    (apply post_bind, post_continues; [lia| |by prim]);
    intros (t & E & K); apply lookup_lt_Some in E as Lt'; [lia|].
  do 3 prim. destruct (tokens !! S i) as [t'|] eqn:E'.
  2: { prim. right. split; [done|]. left. apply lookup_ge_None in E'. lia. }
  call Hp. rewrite E. cbn [kind_of]. prim.
  apply post_bind, post_getitem; [lia|by apply Hops|]. intros cls.
  eapply post_mono; [apply IH; lia|done].
Qed.

Lemma post_parse_binary n parser ops op_cls i :
  (∀ i, lo ≤ i ≤ length tokens → post tokens parser i (λ _ j, i < j)) →
  (∀ k, k ∈ ops → k ∈ op_cls.*1) →
  lo ≤ i ≤ length tokens → length tokens - i ≤ n →
  post tokens (parse_binary tokens n parser ops op_cls) i (λ _ j, i < j).
Proof.
  intros Hp Hops Li Lt. unfold parse_binary. call Hp.
  eapply post_mono; [apply post_parse_binary_while; (done || lia)|].
  cbv beta. lia.
Qed.

Lemma post_parse_mul_div i :
  lo ≤ i ≤ length tokens →
  post tokens (parse_mul_div tokens rec turns) i (λ _ j, i < j).
Proof.
  intros Li. unfold parse_mul_div. apply post_parse_binary; [|done|done|lia].
  intros j Lj. apply post_parse_unary; lia.
Qed.

Lemma post_parse_add_sub i :
  lo ≤ i ≤ length tokens →
  post tokens (parse_add_sub tokens rec turns) i (λ _ j, i < j).
Proof.
  intros Li. unfold parse_add_sub. apply post_parse_binary; [|done|done|lia].
  intros j Lj. by apply post_parse_mul_div.
Qed.

Lemma post_parse_less_equal_grater_while count left_expr i :
  lo ≤ i ≤ length tokens → length tokens - i ≤ count →
  post tokens
    (parse_less_equal_grater_while tokens rec count turns left_expr)
    i (λ _ _, True).
Proof.
  revert left_expr i. induction count as [|count IH]; intros left_expr i Li Lt;
    cbn [parse_less_equal_grater_while];
    (apply post_bind, post_continues; [lia| |by prim]);
    intros (t & E & K); apply lookup_lt_Some in E as Lt'; [lia|].
  do 2 prim. call post_parse_add_sub. rewrite E. cbn [kind_of]. prim.
  eapply post_mono; [apply IH; lia|done].
Qed.

Lemma post_parse_less_equal_grater_exp i :
  lo ≤ i ≤ length tokens →
  post tokens (parse_less_equal_grater_exp tokens rec turns) i
    (λ _ j, i < j).
Proof.
  intros Li. unfold parse_less_equal_grater_exp. call post_parse_add_sub.
  eapply post_mono; [apply post_parse_less_equal_grater_while; lia|].
  cbv beta. lia.
Qed.

Lemma post_parse_and_while count left_expr i :
  lo ≤ i ≤ length tokens → length tokens - i ≤ count →
  post tokens (parse_and_while tokens rec count turns left_expr) i
    (λ _ _, True).
Proof.
  revert left_expr i. induction count as [|count IH]; intros left_expr i Li Lt;
    cbn [parse_and_while];
    (apply post_bind, post_continues; [lia| |by prim]);
    intros (t & E & K); apply lookup_lt_Some in E as Lt'; [lia|].
  prim. call post_parse_less_equal_grater_exp.
  eapply post_mono; [apply IH; lia|done].
Qed.

Lemma post_parse_and i :
  lo ≤ i ≤ length tokens →
  post tokens (parse_and tokens rec turns) i (λ _ j, i < j).
Proof.
  intros Li. unfold parse_and. call post_parse_less_equal_grater_exp.
  eapply post_mono; [apply post_parse_and_while; lia|].
  cbv beta. lia.
Qed.

Lemma post_parse_or_while count left_expr i :
  lo ≤ i ≤ length tokens → length tokens - i ≤ count →
  post tokens (parse_or_while tokens rec count turns left_expr) i
    (λ _ _, True).
Proof.
  revert left_expr i. induction count as [|count IH]; intros left_expr i Li Lt;
    cbn [parse_or_while];
    (apply post_bind, post_continues; [lia| |by prim]);
    intros (t & E & K); apply lookup_lt_Some in E as Lt'; [lia|].
  prim. call post_parse_and.
  eapply post_mono; [apply IH; lia|done].
Qed.

Lemma post_parse_or i :
  lo ≤ i ≤ length tokens →
  post tokens (parse_or tokens rec turns) i (λ _ j, i < j).
Proof.
  intros Li. unfold parse_or. call post_parse_and.
  eapply post_mono; [apply post_parse_or_while; lia|].
  cbv beta. lia.
Qed.

Lemma post_parse_if_then_else i :
  lo ≤ i ≤ length tokens →
  post tokens (parse_if_then_else tokens rec turns) i (λ _ j, i < j).
Proof.
  intros Li. unfold parse_if_then_else. prim.
  destruct (tokens !! i) as [t|] eqn:E; cbn [kind_of].
  2: { prim. apply lookup_ge_None in E. simpl. lia. }
  apply lookup_lt_Some in E as Lt'. prim.
  case_decide; [|by apply post_parse_or].
  prim. call Hrec. prim. call Hrec. prim. call Hrec. prim. lia.
Qed.

Lemma post_parse_fn i :
  lo ≤ i ≤ length tokens →
  post tokens (parse_fn tokens rec) i (λ _ j, i < j).
Proof.
  intros Li. unfold parse_fn.
  apply post_bind, post_expect; [lia|]. intros t E%lookup_lt_Some _. prim.
  destruct (tokens !! S i) as [t'|] eqn:E'; cbn [text_of].
  2: { prim. apply lookup_ge_None in E'. simpl. lia. }
  apply lookup_lt_Some in E' as Lt''.
  do 3 prim. call Hrec. prim. lia.
Qed.

Lemma post_parse_exp_body i :
  lo ≤ i ≤ length tokens →
  post tokens (parse_exp_body tokens rec turns) i (λ _ j, i < j).
Proof.
  intros Li. unfold parse_exp_body. prim.
  destruct (tokens !! i) as [t|] eqn:E; cbn [kind_of].
  2: { prim. apply lookup_ge_None in E. simpl. lia. }
  prim. case_decide; [by apply post_parse_fn|by apply post_parse_if_then_else].
Qed.

End BelowPost.

Lemma post_parse_exp turns depth i :
  length tokens ≤ turns → i ≤ length tokens → length tokens - i < depth →
  post tokens (parse_exp tokens turns depth) i (λ _ j, i < j).
Proof.
  intros Lt. revert i. induction depth as [|depth IH]; intros i Li Ld; [lia|].
  cbn [parse_exp]. apply (post_parse_exp_body _ i); [|done|lia].
  intros j Lj. apply IH; lia.
Qed.

End ParserCoverage.

Section ParserLocality.
Import Lexer Parser ParserShape.
Context `{Builtins}.
Variables tokens tokens' : list Token.
Local Open Scope nat_scope.

(** ** The rules of [follows] *)

Lemma follows_ret {A} (a : A) i : follows tokens tokens' (mret a) (mret a) i.
Proof. by split. Qed.

Lemma follows_raise {A} e i : follows tokens tokens' (raise (A:=A) e) (raise e) i.
Proof. by split. Qed.

Lemma follows_diverge {A} (c' : M A) i : follows tokens tokens' diverge c' i.
Proof. done. Qed.

Lemma follows_advance i : follows tokens tokens' advance advance i.
Proof. split; [simpl; lia|done]. Qed.

Lemma same_look_at i j :
  i ≤ j → same_before tokens tokens' j →
  (i = j → same_look tokens tokens' j) → same_look tokens tokens' i.
Proof.
  intros L B S. destruct (decide (i = j)) as [->|]; [by apply S|].
  left. apply B. lia.
Qed.

Lemma same_before_le i j :
  i ≤ j → same_before tokens tokens' j → same_before tokens tokens' i.
Proof. intros L B k K. apply B. lia. Qed.

Lemma follows_bind {A B} (c c' : M A) (k k' : A → M B) i :
  follows tokens tokens' c c' i →
  (∀ a j, c i = Return a j → follows tokens tokens' (k a) (k' a) j) →
  follows tokens tokens' (c ≫= k) (c' ≫= k') i.
Proof.
  unfold follows, mbind, M_bind.
  destruct (c i) as [a j|e j|] eqn:E; [| |done].
  - intros [L F] K. specialize (K a j eq_refl).
    destruct (k a j) as [b j'|e j'|]; [| |done]; destruct K as [L' K];
      (split; [lia|]); intros Bf Lk.
    + rewrite F; [by apply K|by eapply same_before_le|].
      by eapply same_look_at.
    + rewrite F; [by apply K|by eapply same_before_le|].
      eapply same_look_at; [done..|]. intros _. by left.
  - intros [L F] _. split; [done|]. intros Bf Lk. by rewrite F.
Qed.

(** A method that reads the current token and raises at once when there
    is none. *)
Lemma follows_current_token {A} (k k' : option Token → M A) i :
  (∀ t, tokens !! i = Some t → follows tokens tokens' (k (Some t)) (k' (Some t)) i) →
  (tokens !! i = None →
   ∃ e, k None i = Raise e i ∧ k' None i = Raise e i) →
  follows tokens tokens' (current_token tokens ≫= k) (current_token tokens' ≫= k') i.
Proof.
  unfold follows, mbind, M_bind, current_token.
  intros S N. destruct (tokens !! i) as [t|] eqn:E.
  - specialize (S t eq_refl).
    destruct (k (Some t) i) as [a j|e j|]; [| |done]; destruct S as [L S];
      (split; [done|]); intros Bf Lk.
    + assert (same_look tokens tokens' i) as [->|[E' _]]
        by by eapply same_look_at.
      * rewrite E. by apply S.
      * congruence.
    + assert (same_look tokens tokens' i) as [->|[E' _]]
        by (eapply same_look_at; [done..|]; intros _; by left).
      * rewrite E. by apply S.
      * congruence.
  - destruct (N eq_refl) as (e & -> & E'). split; [done|].
    intros _ ->. by rewrite E.
Qed.

Lemma follows_expect token_type i :
  follows tokens tokens' (expect tokens token_type) (expect tokens' token_type) i.
Proof.
  unfold expect. apply follows_current_token.
  - intros t E. case_decide; [apply follows_raise|apply follows_advance].
  - intros _. by eexists.
Qed.

Lemma follows_continues ops i :
  ops ⊆ continuing →
  follows tokens tokens' (continues tokens ops) (continues tokens' ops) i.
Proof.
  intros O. unfold follows, same_look, continues, mbind, M_bind, current_token.
  destruct (tokens !! i) as [t|] eqn:E; cbn; (split; [done|]).
  - intros _ [->|[E' _]]; [by rewrite E|congruence].
  - intros _ [->|[_ (u & -> & K)]]; [by rewrite E|]. cbn. f_equal.
    apply bool_decide_eq_false. intros I. by apply K, O.
Qed.

Lemma continues_true ops i j :
  continues tokens ops i = Return true j → j = i ∧ is_Some (tokens !! i).
Proof.
  unfold continues, mbind, M_bind, current_token.
  destruct (tokens !! i); [|done]. by intros [= _ <-].
Qed.

Ltac fcall lem := apply follows_bind; [apply lem|intros ? ? _].

Ltac floop :=
  apply follows_bind; [apply follows_continues; set_solver|];
  intros [] ? Ec; [apply continues_true in Ec as [-> [? Ec]]|by apply follows_ret].

Ltac fop :=
  apply follows_current_token; [intros ? _|congruence].

Ltac fprim :=
  first
    [ apply follows_ret
    | apply follows_raise
    | apply follows_diverge
    | apply follows_bind; [apply follows_ret|intros ? ? _]
    | apply follows_bind; [apply follows_advance|intros ? ? _]
    | apply follows_bind; [apply follows_expect|intros ? ? _] ].

Ltac ftoken :=
  apply follows_current_token;
    [intros ? ?; cbn [kind_of text_of]|intros _; by eexists].

(** ** The methods below [parse_exp] *)

Section BelowFollows.
Variables rec rec' : M tree.
Variables turns turns' : nat.
Hypothesis Hrec : ∀ i, follows tokens tokens' rec rec' i.
Hypothesis Hturns : turns ≤ turns'.

Lemma follows_parse_value_token i :
  follows tokens tokens' (parse_value_token tokens rec) (parse_value_token tokens' rec') i.
Proof.
  unfold parse_value_token. ftoken. fprim.
  repeat case_decide; repeat fprim.
  - fcall Hrec. fprim. fprim.
  - destruct (int _); fprim.
Qed.

Lemma follows_parse_value_while n n' ops exp i :
  n ≤ n' → ops ⊆ continuing →
  follows tokens tokens' (parse_value_while tokens rec n ops exp)
    (parse_value_while tokens' rec' n' ops exp) i.
Proof.
  intros Ln O. revert n' exp i Ln.
  induction n as [|n IH]; intros n' exp i Ln; destruct n' as [|n'];
    try lia; cbn [parse_value_while]; floop; try by fprim.
  fcall follows_parse_value_token. apply IH. lia.
Qed.

Lemma follows_parse_value n n' i :
  n ≤ n' →
  follows tokens tokens' (parse_value tokens rec n) (parse_value tokens' rec' n') i.
Proof.
  intros Ln. unfold parse_value. fcall follows_parse_value_token.
  apply follows_parse_value_while; [done|]. set_solver.
Qed.

Lemma follows_parse_let n n' i :
  n ≤ n' →
  follows tokens tokens' (parse_let tokens rec n) (parse_let tokens' rec' n') i.
Proof.
  intros Ln. unfold parse_let. ftoken. fprim.
  case_decide; [|by apply follows_parse_value].
  fprim. ftoken. do 3 fprim. fcall Hrec. fprim. fcall Hrec. fprim. fprim.
Qed.

Lemma follows_parse_unary n n' depth depth' i :
  n ≤ n' → depth ≤ depth' →
  follows tokens tokens' (parse_unary tokens rec n depth)
    (parse_unary tokens' rec' n' depth') i.
Proof.
  intros Ln. revert depth' i.
  induction depth as [|depth IH]; intros depth' i Ld; destruct depth' as [|depth'];
    try lia; cbn [parse_unary]; ftoken; fprim;
    (case_decide; [try by fprim|]);
    try (case_decide; [try by fprim|]);
    try by apply follows_parse_let.
  - unfold parse_not. fprim. fcall IH; [lia|]. fprim.
  - unfold parse_neg. fprim. fcall IH; [lia|]. fprim.
Qed.

Lemma follows_getitem op_cls kind i :
  follows tokens tokens' (getitem op_cls kind) (getitem op_cls kind) i.
Proof. unfold getitem. destruct (list_find _ _) as [[? [? ?]]|]; fprim. Qed.

Lemma follows_parse_binary_while n n' parser parser' ops op_cls left_expr i :
  (∀ i, follows tokens tokens' parser parser' i) → ops ⊆ continuing → n ≤ n' →
  follows tokens tokens' (parse_binary_while tokens n parser ops op_cls left_expr)
    (parse_binary_while tokens' n' parser' ops op_cls left_expr) i.
Proof.
  intros Hp O. revert n' left_expr i.
  induction n as [|n IH]; intros n' left_expr i Ln; destruct n' as [|n'];
    try lia; cbn [parse_binary_while]; floop; try by fprim.
  fop. fprim. apply follows_current_token; [|intros _; by eexists].
  intros t' E'. fcall Hp. cbn [kind_of]. fprim. fcall follows_getitem.
  apply IH. lia.
Qed.

Lemma follows_parse_binary n n' parser parser' ops op_cls i :
  (∀ i, follows tokens tokens' parser parser' i) → ops ⊆ continuing → n ≤ n' →
  follows tokens tokens' (parse_binary tokens n parser ops op_cls)
    (parse_binary tokens' n' parser' ops op_cls) i.
Proof.
  intros Hp O Ln. unfold parse_binary. fcall Hp.
  by apply follows_parse_binary_while.
Qed.

Lemma follows_parse_mul_div i :
  follows tokens tokens' (parse_mul_div tokens rec turns) (parse_mul_div tokens' rec' turns') i.
Proof.
  unfold parse_mul_div. apply follows_parse_binary; [|set_solver|done].
  intros j. by apply follows_parse_unary.
Qed.

Lemma follows_parse_add_sub i :
  follows tokens tokens' (parse_add_sub tokens rec turns) (parse_add_sub tokens' rec' turns') i.
Proof.
  unfold parse_add_sub. apply follows_parse_binary; [|set_solver|done].
  apply follows_parse_mul_div.
Qed.

Lemma follows_parse_less_equal_grater_while n n' left_expr i :
  n ≤ n' →
  follows tokens tokens' (parse_less_equal_grater_while tokens rec n turns left_expr)
    (parse_less_equal_grater_while tokens' rec' n' turns' left_expr) i.
Proof.
  revert n' left_expr i.
  induction n as [|n IH]; intros n' left_expr i Ln; destruct n' as [|n'];
    try lia; cbn [parse_less_equal_grater_while]; floop; try by fprim.
  fop. fprim. fcall follows_parse_add_sub. cbn [kind_of]. fprim.
  apply IH. lia.
Qed.

Lemma follows_parse_less_equal_grater_exp i :
  follows tokens tokens' (parse_less_equal_grater_exp tokens rec turns)
    (parse_less_equal_grater_exp tokens' rec' turns') i.
Proof.
  unfold parse_less_equal_grater_exp. fcall follows_parse_add_sub.
  by apply follows_parse_less_equal_grater_while.
Qed.

Lemma follows_parse_and_while n n' left_expr i :
  n ≤ n' →
  follows tokens tokens' (parse_and_while tokens rec n turns left_expr)
    (parse_and_while tokens' rec' n' turns' left_expr) i.
Proof.
  revert n' left_expr i.
  induction n as [|n IH]; intros n' left_expr i Ln; destruct n' as [|n'];
    try lia; cbn [parse_and_while]; floop; try by fprim.
  fprim. fcall follows_parse_less_equal_grater_exp. apply IH. lia.
Qed.

Lemma follows_parse_and i :
  follows tokens tokens' (parse_and tokens rec turns) (parse_and tokens' rec' turns') i.
Proof.
  unfold parse_and. fcall follows_parse_less_equal_grater_exp.
  by apply follows_parse_and_while.
Qed.

Lemma follows_parse_or_while n n' left_expr i :
  n ≤ n' →
  follows tokens tokens' (parse_or_while tokens rec n turns left_expr)
    (parse_or_while tokens' rec' n' turns' left_expr) i.
Proof.
  revert n' left_expr i.
  induction n as [|n IH]; intros n' left_expr i Ln; destruct n' as [|n'];
    try lia; cbn [parse_or_while]; floop; try by fprim.
  fprim. fcall follows_parse_and. apply IH. lia.
Qed.

Lemma follows_parse_or i :
  follows tokens tokens' (parse_or tokens rec turns) (parse_or tokens' rec' turns') i.
Proof.
  unfold parse_or. fcall follows_parse_and. by apply follows_parse_or_while.
Qed.

Lemma follows_parse_if_then_else i :
  follows tokens tokens' (parse_if_then_else tokens rec turns)
    (parse_if_then_else tokens' rec' turns') i.
Proof.
  unfold parse_if_then_else. ftoken. fprim.
  case_decide; [|by apply follows_parse_or].
  fprim. fcall Hrec. fprim. fcall Hrec. fprim. fcall Hrec. fprim.
Qed.

Lemma follows_parse_fn i :
  follows tokens tokens' (parse_fn tokens rec) (parse_fn tokens' rec') i.
Proof.
  unfold parse_fn. fprim. ftoken. do 3 fprim. fcall Hrec. fprim.
Qed.

Lemma follows_parse_exp_body i :
  follows tokens tokens' (parse_exp_body tokens rec turns)
    (parse_exp_body tokens' rec' turns') i.
Proof.
  unfold parse_exp_body. ftoken. fprim.
  case_decide; [apply follows_parse_fn|apply follows_parse_if_then_else].
Qed.

End BelowFollows.

Lemma follows_parse_exp turns turns' depth depth' i :
  turns ≤ turns' → depth ≤ depth' →
  follows tokens tokens' (parse_exp tokens turns depth) (parse_exp tokens' turns' depth') i.
Proof.
  intros Lt. revert depth' i.
  induction depth as [|depth IH]; intros depth' i Ld; [done|].
  destruct depth' as [|depth']; [lia|]. cbn [parse_exp].
  apply follows_parse_exp_body; [|done]. intros j. apply IH. lia.
Qed.

End ParserLocality.

Section ParserClaims.
Import Lexer Parser ParserShape.
Context `{Builtins}.
Local Open Scope nat_scope.

Section Run.
Variable tokens : list Token.

Lemma post_parse :
  match parse tokens with
  | Return _ j => 0 < j ≤ length tokens
  | Raise e j => j ≤ length tokens ∧ fault tokens e j
  | Diverge => False
  end.
Proof.
  pose proof (post_parse_exp tokens (length tokens) (S (length tokens)) 0
                ltac:(lia) ltac:(lia) ltac:(lia)) as P.
  unfold post in P. unfold parse.
  destruct (parse_exp _ _ _ _) as [exp j|e j|]; [lia| |done].
  split; [lia|tauto].
Qed.

(** The bounds of the model are never reached: one nested call of
    [parse_exp] per token and one more, and one turn of each loop per token,
    are enough, and larger bounds give the same outcome.  [cur_token_idx]
    is left at most at the number of tokens and, when [parse] returns, behind
    at least one token. *)
Lemma parse_total :
  parse tokens ≠ Diverge ∧
  stop (parse tokens) ≤ length tokens ∧
  (∀ exp j, parse tokens = Return exp j → 0 < j) ∧
  (∀ turns depth, length tokens ≤ turns → length tokens < depth →
     parse_exp tokens turns depth 0 = parse tokens).
Proof.
  pose proof post_parse as P.
  split_and!.
  - by destruct (parse tokens).
  - destruct (parse tokens); simpl; lia.
  - intros exp j E. rewrite E in P. lia.
  - intros turns depth Lt Ld.
    pose proof (follows_parse_exp tokens tokens (length tokens) turns
                  (S (length tokens)) depth 0 Lt ltac:(lia)) as F.
    unfold follows in F. unfold parse in *.
    destruct (parse_exp tokens (length tokens) _ _) as [exp j|e j|]; [| |done];
      destruct F as [_ F]; apply F; (done || by left).
Qed.

(** X25: where the exceptions of [parse] are raised.  An [AttributeError]
    leaves [cur_token_idx] at the number of tokens: the tokens have run out.
    The [ValueError] of [int] leaves it just behind a NUM token whose text
    [int] refuses.  The [SyntaxError] "Parse error" leaves it at the end of
    the tokens or at a token that is no identifier, opening parenthesis,
    number or boolean.  A [KeyError] is never raised.  In each case
    [cur_token_idx] is at most the number of tokens. *)
Theorem parse_faults e j :
  parse tokens = Raise e j → j ≤ length tokens ∧ fault tokens e j.
Proof. intros E. pose proof post_parse as P. by rewrite E in P. Qed.

End Run.

(** The outcome of [parse] on a second list that is the same up to where
    [parse] stops on the first. *)
Lemma parse_follows tokens tokens' :
  same_before tokens tokens' (stop (parse tokens)) →
  match parse tokens with
  | Return _ j => same_look tokens tokens' j
  | Raise _ j => tokens' !! j = tokens !! j
  | Diverge => True
  end →
  parse tokens' = parse tokens.
Proof.
  intros B K.
  set (turns := length tokens `max` length tokens').
  destruct (parse_total tokens') as (_ & _ & _ & E).
  rewrite <- (E turns (S turns)) by lia.
  pose proof (follows_parse_exp tokens tokens' (length tokens) turns
                (S (length tokens)) (S turns) 0 ltac:(lia) ltac:(lia)) as F.
  unfold follows in F. destruct (parse_total tokens) as (D & _).
  unfold parse in *.
  destruct (parse_exp tokens (length tokens) _ _) as [exp j|e j|]; [| |done];
    destruct F as [_ F]; by apply F.
Qed.

(** X26: [parse] reads no token behind the index at which it stops: a second
    list that holds the same tokens up to and including that index (or ends
    where the first ends) gives the same outcome, whatever follows.  So the
    tokens behind a complete expression are ignored without an error. *)
Theorem parse_reads_prefix tokens tokens' :
  (∀ k, k ≤ stop (parse tokens) → tokens' !! k = tokens !! k) →
  parse tokens' = parse tokens.
Proof.
  intros S. apply parse_follows.
  - intros k K. apply S. lia.
  - destruct (parse tokens) as [exp j|e j|]; [left| |done]; by apply S.
Qed.

(** X27: when [parse] returns a tree after reading all the tokens, it returns
    the same tree, with [cur_token_idx] at the same place, on these tokens
    followed by a token on which no loop goes on (no operator, identifier,
    opening parenthesis, number or boolean) and by anything. *)
Theorem parse_stops_at_closer tokens exp u rest :
  parse tokens = Return exp (length tokens) → kind u ∉ continuing →
  parse (tokens ++ u :: rest) = Return exp (length tokens).
Proof.
  intros E K. rewrite <- E. apply parse_follows; rewrite E; simpl.
  - intros k Lk. by apply lookup_app_l.
  - right. split; [by apply lookup_ge_None|]. exists u. split; [|done].
    by apply list_lookup_middle.
Qed.

End ParserClaims.

Section ParserLevels.
Import Lexer Parser ParserShape.

(** The outcome is computed up to the next call of [int]. *)
Ltac head :=
  lazymatch goal with
  | |- ?l = ?r => let l' := eval lazy head in l in change (l' = r)
  end.

(** X28: three numbers joined by two binary operators are grouped by the
    level of the operators: [*] and [/] bind tightest, then [+] and [-],
    then [=], [<=] and [<] on one level, then [and], then [or]; the second
    operator takes the middle number only when its level is tighter, so
    operators of one level group to the left. *)
Theorem binary_levels `{Builtins} a o1 b o2 c x y z l1 l2 :
  kind a = NUM → kind b = NUM → kind c = NUM →
  int (text a) = Some x → int (text b) = Some y → int (text c) = Some z →
  level (kind o1) = Some l1 → level (kind o2) = Some l2 →
  parse [a; o1; b; o2; c] =
    Return (if bool_decide (l2 < l1)%nat
            then node (kind o1) (Num x) (node (kind o2) (Num y) (Num z))
            else node (kind o2) (node (kind o1) (Num x) (Num y)) (Num z)) 5.
Proof.
  destruct H as [int0].
  destruct a as [ta ka], b as [tb kb], c as [tc kc], o1 as [t1 k1],
    o2 as [t2 k2]; cbn [kind text int].
  intros -> -> -> Hx Hy Hz L1 L2.
  change (int0 (text (mkToken ta NUM)) = Some x) in Hx.
  change (int0 (text (mkToken tb NUM)) = Some y) in Hy.
  change (int0 (text (mkToken tc NUM)) = Some z) in Hz.
  destruct k1; try discriminate L1; injection L1 as <-;
    destruct k2; try discriminate L2; injection L2 as <-;
    head; rewrite Hx; head; rewrite Hy; head; rewrite Hz; reflexivity.
Qed.

End ParserLevels.

Section ParserExamples.
Import Lexer Parser ParserShape.

Lemma binary_levels_witness :
  @parse decimal
    [mkToken (codes "1") NUM; mkToken (codes "=") EQL;
     mkToken (codes "2") NUM; mkToken (codes "<") LTH;
     mkToken (codes "3") NUM] =
  Return (Lth (Eql (Num 1) (Num 2)) (Num 3)) 5.
Proof.
  by apply (@binary_levels decimal
              (mkToken (codes "1") NUM) (mkToken (codes "=") EQL)
              (mkToken (codes "2") NUM) (mkToken (codes "<") LTH)
              (mkToken (codes "3") NUM) 1%Z 2%Z 3%Z 3%nat 3%nat).
Defined.

Lemma parse_faults_witness :
  (2 ≤ 2)%nat ∧
  @fault decimal [mkToken (codes "1") NUM; mkToken (codes "+") ADD]
    (SyntaxError "Parse error") 2.
Proof.
  apply (@parse_faults decimal
           [mkToken (codes "1") NUM; mkToken (codes "+") ADD]).
  vm_compute. reflexivity.
Defined.

Lemma parse_reads_prefix_witness :
  @parse decimal [mkToken (codes "1") NUM; mkToken (codes ")") RPR;
                  mkToken (codes "+") ADD] =
  @parse decimal [mkToken (codes "1") NUM; mkToken (codes ")") RPR;
                  mkToken (codes "2") NUM].
Proof.
  apply (@parse_reads_prefix decimal).
  intros [|[|k]] K; [reflexivity..|]. vm_compute in K. lia.
Defined.

Lemma parse_stops_at_closer_witness :
  @parse decimal
    ([mkToken (codes "1") NUM; mkToken (codes "+") ADD;
      mkToken (codes "2") NUM] ++
     mkToken (codes ")") RPR :: [mkToken (codes "3") NUM]) =
  Return (Add (Num 1) (Num 2)) 3.
Proof.
  apply (@parse_stops_at_closer decimal
           [mkToken (codes "1") NUM; mkToken (codes "+") ADD;
            mkToken (codes "2") NUM]).
  - vm_compute. reflexivity.
  - by apply (bool_decide_unpack _).
Defined.

End ParserExamples.
